(** * flickr-exporter: the scheduled Flickr -> Ghost synchronisation job

    A shallow embedding of [photoUploader] and [downloadImage], as written in
    [src/index.ts] and in a second copy of the same file ([part_000]), which
    differs in the new checkpoint, in the download destination and in the
    logging.  The job talks to three outside services (the Flickr API,
    the Ghost admin API, the Firebase realtime database) and to the local
    file system; none of them is code of this repository, so their answers
    are left to an environment of oracles, and every call is recorded in a
    trace.  JavaScript exceptions, rejected promises, promises that never
    settle and the end of the process on an event that nothing listens to are
    explicit results of a small state-and-error monad. *)

From Stdlib Require Import ZArith Ascii String List Sorting.Sorted.
From stdpp Require Import base option list sorting gmap strings.

Local Open Scope string_scope.
Local Open Scope Z_scope.

(** ** JavaScript strings

    Strings are sequences of code units; [String.compare] is the
    lexicographic comparison on code units that [Array.prototype.sort] applies
    when no comparator is given, for strings whose code units fit a byte. *)

Definition str_le (s t : string) : Prop := String.leb s t = true.

#[global] Instance str_le_dec s t : Decision (str_le s t).
Proof. unfold str_le. apply _. Defined.

(** Cutting a string at every code unit that [is_sep] accepts: empty pieces
    are kept, and the empty string gives one empty piece. *)
Fixpoint split_by (is_sep : ascii -> bool) (s : string) : list string :=
  match s with
  | EmptyString => [EmptyString]
  | String c s' =>
      if is_sep c then EmptyString :: split_by is_sep s'
      else match split_by is_sep s' with
           | [] => [String c EmptyString]
           | piece :: rest => String c piece :: rest
           end
  end.

(** [s.split(sep)] for a separator of one code unit. *)
Definition split (sep : ascii) (s : string) : list string :=
  split_by (λ c, Ascii.eqb c sep) s.

(** [l.sort()] on an array of strings. *)
Definition sort (l : list string) : list string := merge_sort str_le l.

(** [l.includes(x)] on an array of strings. *)
Definition includes (l : list string) (x : string) : bool :=
  bool_decide (x ∈ l).

(** Line 121 of index.ts (108 of part_000):
    [[...photo.tags.split(' '), 'flickr'].sort()]. *)
Definition tags_of (tag_string : string) : list string :=
  sort (split " " tag_string ++ ["flickr"]).

(** The tags for which [ghost.tags.add] is called (the loop of lines 126-131):
    the elements of [tags], in order, that [ghostTags] does not include. *)
Definition missing_tags (tags ghostTags : list string) : list string :=
  filter (λ t, includes ghostTags t = false) tags.

(** [path.basename(p)] (POSIX): the last non-empty piece between slashes,
    and the empty string when there is none. *)
Definition basename (p : string) : string :=
  default "" (last (filter (λ piece, piece ≠ "") (split "/" p))).

(** [path.resolve('/tmp/' + base)] for a [base] without slash, as
    [path.basename] returns it: the dot segments are the only ones that
    normalisation rewrites. *)
Definition resolve_in_tmp (base : string) : string :=
  if decide (base = "" ∨ base = ".") then "/tmp"
  else if decide (base = "..") then "/"
  else "/tmp/" ++ base.

(** ** [Date.prototype.toISOString]

    The ECMAScript rendering of a time value (milliseconds since the epoch,
    UTC).  A time value outside +-8.64e15 is an invalid date, for which
    [toISOString] throws a [RangeError]: [None] here. *)

Definition digit (n : Z) : string :=
  String (ascii_of_N (Z.to_N (48 + n mod 10))) "".

(** The last [k] decimal digits of [n], zero-padded. *)
Fixpoint digits (k : nat) (n : Z) : string :=
  match k with
  | O => ""
  | S k' => digits k' (n / 10) ++ digit n
  end.

(** Year, month and day of the day that is [days] days after 1970-01-01, in
    the proleptic Gregorian calendar. *)
Definition civil_from_days (days : Z) : Z * Z * Z :=
  let z := days + 719468 in
  let era := z / 146097 in
  let doe := z - era * 146097 in
  let yoe := (doe - doe / 1460 + doe / 36524 - doe / 146096) / 365 in
  let doy := doe - (365 * yoe + yoe / 4 - yoe / 100) in
  let mp := (5 * doy + 2) / 153 in
  let d := doy - (153 * mp + 2) / 5 + 1 in
  let m := if mp <? 10 then mp + 3 else mp - 9 in
  let y := yoe + era * 400 + (if m <=? 2 then 1 else 0) in
  (y, m, d).

Definition iso_year (y : Z) : string :=
  if (0 <=? y) && (y <=? 9999) then digits 4 y
  else (if y <? 0 then "-" else "+") ++ digits 6 (Z.abs y).

Definition toISOString (t : Z) : option string :=
  if (Z.abs t <=? 8640000000000000) then
    let '(y, m, d) := civil_from_days (t / 86400000) in
    let ms := t mod 86400000 in
    Some (iso_year y ++ "-" ++ digits 2 m ++ "-" ++ digits 2 d ++ "T"
          ++ digits 2 (ms / 3600000) ++ ":" ++ digits 2 (ms / 60000 mod 60)
          ++ ":" ++ digits 2 (ms / 1000 mod 60) ++ "." ++ digits 3 (ms mod 1000)
          ++ "Z")
  else None.

(** ** Data model *)

(** A photo of the Flickr listing, with the fields the job reads.  The
    listing is JSON: [description] (an object with a [_content] field) and
    [url_o] are the two fields the job dereferences or passes on that the
    listing can leave out, so they are optional here; [dateupload] is the
    number the field converts to in [photo.dateupload * 1000]. *)
Record Photo := {
  p_id : string;
  p_title : string;
  p_description : option string;
  p_dateupload : Z;
  p_tags : string;
  p_url_o : option string;
}.

(** A value that was thrown, or that a promise was rejected with: an [Error]
    object with its [message], or a string.  [downloadImage] rejects with a
    string ([reject(err.message)]); the libraries throw [Error] objects. *)
Inductive thrown :=
  | ErrorObj (message : string)
  | Primitive (s : string).

(** The [error] field of a status record. *)
Inductive ErrorField :=
  | ErrNull
  | ErrUndefined
  | ErrMessage (m : string).

(** [(e as any).message]: the property of an [Error] object; [undefined] on a
    string. *)
Definition message_of (e : thrown) : ErrorField :=
  match e with
  | ErrorObj m => ErrMessage m
  | Primitive _ => ErrUndefined
  end.

(** The record under [photo_status/<id>]. *)
Record PhotoStatus := {
  st_id : string;
  st_url_o : option string;
  st_title : string;
  st_desc : string;
  st_date : Z;
  st_tags : string;
  st_success : bool;
  st_error : ErrorField;
}.

(** The first argument of [ghost.posts.add]. *)
Record Post := {
  post_title : string;
  post_html : string;
  post_status : string;
  post_tags : list string;
  post_feature_image : string;
  post_published_at : string;
}.

(** How an awaited call ends, when it ends. *)
Inductive Outcome (A : Type) :=
  | Returned (a : A)
  | Threw (e : thrown).
Arguments Returned {A} a.
Arguments Threw {A} e.

(** What [https.get] leads to: a response whose body is piped to the file
    until the stream finishes; an ['error'] event on the request; neither
    (a response that stalls: nothing in [downloadImage] listens for it); or
    no request at all, when the call itself throws a [TypeError], as it does
    on a string that is no URL and on a protocol other than [https:]. *)
Inductive HttpsOutcome :=
  | HttpsResponse
  | HttpsError (message : string)
  | HttpsStall
  | HttpsThrows (message : string).

(** One entry of the trace per call to a service or to the file system,
    with how the call went.  For [fs.createWriteStream], which returns at once,
    that is how the opening of the file goes afterwards; for a call that threw
    before it reached its service, it is what it threw. *)
Inductive Event :=
  | EvLastCheckGet (r : Outcome Z)
  | EvGetPhotos (min_upload_date : Z) (r : Outcome (list Photo))
  | EvStatusGet (id : string) (r : Outcome (option PhotoStatus))
  | EvCreateWriteStream (path : string) (r : Outcome unit)
  | EvHttpsGet (url : string) (r : HttpsOutcome)
  | EvUnlink (path : string) (r : Outcome unit)
  | EvImagesUpload (ref : string) (r : Outcome string)
  | EvTagsBrowse (r : Outcome (list string))
  | EvTagsAdd (name slug : string) (r : Outcome unit)
  | EvPostsAdd (post : Post) (r : Outcome unit)
  | EvStatusSet (id : string) (st : PhotoStatus) (r : Outcome unit)
  | EvLastCheckSet (n : Z) (r : Outcome unit).

(** The state the job reads and writes: the two database references
    ([last_check_time], [photo_status]), the files on disk, and the trace of
    calls made so far. *)
Record World := {
  last_check_time : Z;
  photo_status : gmap string PhotoStatus;
  files : gset string;
  trace : list Event;
}.

(** The services.  Each oracle sees the whole world, trace included, so its
    answer may change from one call to the next.  A database read returns what
    the world holds unless the oracle makes it fail; a write, an unlink or the
    opening of a file that the oracle lets through takes effect, and one that
    fails changes nothing. *)
Record Env := {
  last_check_get_fails : World -> option thrown;
  flickr_getPhotos : World -> Z -> Outcome (list Photo);
  status_get_fails : World -> string -> option thrown;
  open_fails : World -> string -> option thrown;
  https_get : World -> string -> HttpsOutcome;
  unlink_fails : World -> string -> option thrown;
  ghost_images_upload : World -> string -> Outcome string;
  ghost_tags_browse : World -> Outcome (list string);
  ghost_tags_add : World -> string -> option thrown;
  ghost_posts_add : World -> Post -> option thrown;
  status_set_fails : World -> string -> PhotoStatus -> option thrown;
  last_check_set_fails : World -> Z -> option thrown;
}.

(** The two copies of the file. *)
Inductive Variant := IndexTs | Part000.

(** ** The monad: state, exceptions, and promises that never settle

    [Pending] is the result of an [await] after which the job does not
    resume: nothing settles the promise, or the process ends first. *)

Inductive Result (A : Type) :=
  | Ok (a : A)
  | Throw (e : thrown)
  | Pending.
Arguments Ok {A} a.
Arguments Throw {A} e.
Arguments Pending {A}.

Definition M (A : Type) : Type := World -> Result A * World.

Definition ret {A} (a : A) : M A := λ w, (Ok a, w).

Definition throw {A} (e : thrown) : M A := λ w, (Throw e, w).

Definition never {A} : M A := λ w, (Pending, w).

Definition bind {A B} (m : M A) (k : A -> M B) : M B :=
  λ w, match m w with
       | (Ok a, w') => k a w'
       | (Throw e, w') => (Throw e, w')
       | (Pending, w') => (Pending, w')
       end.

(** [try { m } catch (e) { h e }]: a promise that never settles is not
    caught. *)
Definition try_catch {A} (m : M A) (h : thrown -> M A) : M A :=
  λ w, match m w with
       | (Throw e, w') => h e w'
       | r => r
       end.

(** [p.then(k)] with no rejection handler, inside a [new Promise] executor:
    when [p] rejects, [k] never runs and the outer promise is left
    unsettled. *)
Definition unhandled {A} (m : M A) : M A :=
  λ w, match m w with
       | (Throw _, w') => (Pending, w')
       | r => r
       end.

Declare Scope js_scope.
Delimit Scope js_scope with js.
Notation "x <- m ;; k" := (bind m (λ x, k))
  (at level 100, m at next level, right associativity) : js_scope.
Notation "m ;; k" := (bind m (λ _, k))
  (at level 100, right associativity) : js_scope.
Local Open Scope js_scope.

Definition emit (e : Event) (w : World) : World :=
  {| last_check_time := last_check_time w;
     photo_status := photo_status w;
     files := files w;
     trace := trace w ++ [e] |}.

Definition set_last_check_time (n : Z) (w : World) : World :=
  {| last_check_time := n;
     photo_status := photo_status w;
     files := files w;
     trace := trace w |}.

Definition set_photo_status (id : string) (st : PhotoStatus) (w : World) : World :=
  {| last_check_time := last_check_time w;
     photo_status := <[id := st]> (photo_status w);
     files := files w;
     trace := trace w |}.

Definition set_files (fs : gset string) (w : World) : World :=
  {| last_check_time := last_check_time w;
     photo_status := photo_status w;
     files := fs;
     trace := trace w |}.

Definition of_outcome {A} (r : Outcome A) : Result A :=
  match r with
  | Returned a => Ok a
  | Threw e => Throw e
  end.

Definition unit_outcome (f : option thrown) : Outcome unit :=
  match f with
  | None => Returned tt
  | Some e => Threw e
  end.

(** The double quote, for the messages that contain it. *)
Definition dq : string := String "034"%char "".

(** ** What the database refuses, and the end of the process *)

(** The property of a status record that holds [undefined], if any, in the
    order of the literal of lines 96-105: [url_o] when the listing gave none,
    [error] when the [catch] block read the [message] of a string. *)
Definition undefined_property (st : PhotoStatus) : option string :=
  match st_url_o st, st_error st with
  | None, _ => Some "url_o"
  | Some _, ErrUndefined => Some "error"
  | Some _, _ => None
  end.

(** What [set] throws on a value that holds [undefined], before it sends
    anything to the database. *)
Definition undefined_error (id prop : string) : thrown :=
  ErrorObj ("set failed: value argument contains undefined in property 'photo_status."
            ++ id ++ "." ++ prop ++ "'").

(** An ['error'] event of a write stream is on its way and nothing listens
    to it: the stream of the download that has just been rejected could not
    open its file, and [https.get] threw in the same turn, which took the job
    to the [catch] block.  Node raises the event at the next turn of the event
    loop, as an uncaught exception, and the process ends there. *)
Definition stream_error_queued (w : World) : bool :=
  match reverse (trace w) with
  | EvHttpsGet _ (HttpsThrows _) :: EvCreateWriteStream _ (Threw _) :: _ => true
  | _ => false
  end.

(** ** The job *)

Section Job.
Context (env : Env).

(** *** Calls to the services *)

(** [(await last_check_ref.get()).val()] *)
Definition last_check_ref_get : M Z := λ w,
  match last_check_get_fails env w with
  | Some e => (Throw e, emit (EvLastCheckGet (Threw e)) w)
  | None =>
      (Ok (last_check_time w),
       emit (EvLastCheckGet (Returned (last_check_time w))) w)
  end.

(** [await last_check_ref.set(n)] *)
Definition last_check_ref_set (n : Z) : M unit := λ w,
  match last_check_set_fails env w n with
  | Some e => (Throw e, emit (EvLastCheckSet n (Threw e)) w)
  | None =>
      (Ok tt, emit (EvLastCheckSet n (Returned tt)) (set_last_check_time n w))
  end.

(** [flickr.people.getPhotos({..., min_upload_date})], down to
    [res.photos.photo]. *)
Definition getPhotos (min_upload_date : Z) : M (list Photo) := λ w,
  let r := flickr_getPhotos env w min_upload_date in
  (of_outcome r, emit (EvGetPhotos min_upload_date r) w).

(** [(await photo_status_ref.child(id).get()).val()]: [null] ([None]) when
    nothing is stored under the id. *)
Definition photo_status_get (id : string) : M (option PhotoStatus) := λ w,
  match status_get_fails env w id with
  | Some e => (Throw e, emit (EvStatusGet id (Threw e)) w)
  | None =>
      (Ok (photo_status w !! id),
       emit (EvStatusGet id (Returned (photo_status w !! id))) w)
  end.

(** [await photo_status_ref.child(id).set(st)].  The call validates the
    value first and throws on an undefined property without writing.
    Otherwise the write goes to the database, which stores the record or
    refuses it.  With a stream error on its way the call is still made, but
    the process ends before the answer: the job never resumes. *)
Definition photo_status_set (id : string) (st : PhotoStatus) : M unit := λ w,
  match undefined_property st with
  | Some prop =>
      (Throw (undefined_error id prop),
       emit (EvStatusSet id st (Threw (undefined_error id prop))) w)
  | None =>
      match status_set_fails env w id st with
      | Some e =>
          (if stream_error_queued w then Pending else Throw e,
           emit (EvStatusSet id st (Threw e)) w)
      | None =>
          (if stream_error_queued w then Pending else Ok tt,
           emit (EvStatusSet id st (Returned tt)) (set_photo_status id st w))
      end
  end.

(** [fs.createWriteStream(path)] returns the stream at once and opens the
    file afterwards.  When the open succeeds the file exists from there on.
    When it fails (the path is a directory, or lies in none) the stream emits
    ['error'], to which nothing listens.  The result is how the open goes. *)
Definition createWriteStream (path : string) : M (Outcome unit) := λ w,
  match open_fails env w path with
  | Some e => (Ok (Threw e), emit (EvCreateWriteStream path (Threw e)) w)
  | None =>
      (Ok (Returned tt),
       emit (EvCreateWriteStream path (Returned tt)) (set_files ({[path]} ∪ files w) w))
  end.

Definition https_request (url : string) : M HttpsOutcome := λ w,
  let r := https_get env w url in
  (Ok r, emit (EvHttpsGet url r) w).

(** [await fsPromises.unlink(path)] *)
Definition unlink (path : string) : M unit := λ w,
  match unlink_fails env w path with
  | Some e => (Throw e, emit (EvUnlink path (Threw e)) w)
  | None =>
      (Ok tt, emit (EvUnlink path (Returned tt)) (set_files (files w ∖ {[path]}) w))
  end.

(** [await ghost.images.upload({ref, file})], down to the [url] of the
    answer; [file] is [path.resolve(ref)], the same file. *)
Definition images_upload (ref : string) : M string := λ w,
  let r := ghost_images_upload env w ref in
  (of_outcome r, emit (EvImagesUpload ref r) w).

(** [await ghost.tags.browse({limit: 10000})], mapped to the names. *)
Definition tags_browse : M (list string) := λ w,
  let r := ghost_tags_browse env w in
  (of_outcome r, emit (EvTagsBrowse r) w).

(** [await ghost.tags.add({name, slug})] *)
Definition tags_add (name slug : string) : M unit := λ w,
  let r := unit_outcome (ghost_tags_add env w name) in
  (of_outcome r, emit (EvTagsAdd name slug r) w).

(** [await ghost.posts.add(post, {source: 'html'})] *)
Definition posts_add (post : Post) : M unit := λ w,
  let r := unit_outcome (ghost_posts_add env w post) in
  (of_outcome r, emit (EvPostsAdd post r) w).

(** [new Date(t).toISOString()] *)
Definition date_toISOString (t : Z) : M string :=
  match toISOString t with
  | Some s => ret s
  | None => throw (ErrorObj "Invalid time value")
  end.

(** *** [downloadImage] *)

(** The [destination] of the download: [path.resolve(`/tmp/${basename}`)]
    in index.ts, the bare [path.basename(url)] in part_000. *)
Definition destination (v : Variant) (url : string) : string :=
  match v with
  | IndexTs => resolve_in_tmp (basename url)
  | Part000 => basename url
  end.

(** The promise [downloadImage(url)].  What the executor throws rejects the
    promise with the [TypeError] thrown: [path.basename(undefined)] on a
    missing URL, before any call, and [https.get] on a string it does not
    take, after the stream was created.  When the stream cannot open its file,
    its ['error'] event ends the process before anything comes of the request.
    On an ['error'] event of the request, the handler unlinks the destination
    and rejects with the message, a string, in the [then] of that unlink: the
    promise never settles when the unlink fails. *)
Definition downloadImage (v : Variant) (url : option string) : M string :=
  match url with
  | None =>
      throw (ErrorObj ("The " ++ dq ++ "path" ++ dq
                       ++ " argument must be of type string. Received undefined"))
  | Some u =>
      let dest := destination v u in
      fileStream <- createWriteStream dest ;;
      r <- https_request u ;;
      match r, fileStream with
      | HttpsThrows msg, _ => throw (ErrorObj msg)
      | _, Threw _ => never
      | HttpsResponse, Returned _ => ret dest
      | HttpsError msg, Returned _ =>
          unhandled (unlink dest) ;; throw (Primitive msg)
      | HttpsStall, Returned _ => never
      end
  end.

(** *** [photoUploader] *)

(** The loop of lines 126-131: [for (const tag of tags)
    if (!ghostTags.includes(tag)) await ghost.tags.add(...)]. *)
Fixpoint create_tags (ghostTags tags : list string) : M unit :=
  match tags with
  | [] => ret tt
  | tag :: rest =>
      (if includes ghostTags tag then ret tt else tags_add tag tag) ;;
      create_tags ghostTags rest
  end.

(** The object passed to [ghost.posts.add]. *)
Definition post_of (photo : Photo) (desc : string) (tags : list string)
    (image_url published_at : string) : Post :=
  {| post_title := p_title photo;
     post_html := "<p>" ++ desc ++ "</p>";
     post_status := "published";
     post_tags := tags;
     post_feature_image := image_url;
     post_published_at := published_at |}.

(** The body of the [try] block; [desc] is [photo.description._content],
    which the status record has already read when the block starts. *)
Definition publish (v : Variant) (photo : Photo) (desc : string) : M unit :=
  filePath <- downloadImage v (p_url_o photo) ;;
  imageUpload <- images_upload filePath ;;
  unlink filePath ;;
  let tags := tags_of (p_tags photo) in
  ghostTags <- tags_browse ;;
  create_tags ghostTags tags ;;
  published_at <- date_toISOString (p_dateupload photo * 1000) ;;
  posts_add (post_of photo desc tags imageUpload published_at).

(** [current_status && current_status.success] *)
Definition already_published (current_status : option PhotoStatus) : bool :=
  match current_status with
  | Some st => st_success st
  | None => false
  end.

(** The [photoStatus] literal of lines 96-105. *)
Definition initial_status (photo : Photo) (desc : string) : PhotoStatus :=
  {| st_id := p_id photo;
     st_url_o := p_url_o photo;
     st_title := p_title photo;
     st_desc := desc;
     st_date := p_dateupload photo;
     st_tags := p_tags photo;
     st_success := true;
     st_error := ErrNull |}.

(** The two assignments of the [catch] block. *)
Definition failed_status (st : PhotoStatus) (e : thrown) : PhotoStatus :=
  {| st_id := st_id st;
     st_url_o := st_url_o st;
     st_title := st_title st;
     st_desc := st_desc st;
     st_date := st_date st;
     st_tags := st_tags st;
     st_success := false;
     st_error := message_of e |}.

(** One iteration of [for (const photo of photos)]. *)
Definition process_photo (v : Variant) (photo : Photo) : M unit :=
  current_status <- photo_status_get (p_id photo) ;;
  if already_published current_status then ret tt
  else
    match p_description photo with
    | None =>
        throw (ErrorObj "Cannot read properties of undefined (reading '_content')")
    | Some desc =>
        let photoStatus := initial_status photo desc in
        photoStatus <- try_catch (publish v photo desc ;; ret photoStatus)
                                 (λ e, ret (failed_status photoStatus e)) ;;
        photo_status_set (p_id photo) photoStatus
    end.

Fixpoint for_each {A} (body : A -> M unit) (l : list A) : M unit :=
  match l with
  | [] => ret tt
  | x :: rest => body x ;; for_each body rest
  end.

(** Lines 60-62 of index.ts and line 57 of part_000, with [now] the clock
    reading in milliseconds ([new Date().getTime()], [Date.now()]).  A time
    value is an integer of magnitude at most 8.64e15: the subtraction is exact
    in double arithmetic and the rounded quotient by 1000 stays in the unit
    interval of the exact one, so [Math.floor] gives the floor of the
    quotient. *)
Definition next_check_time (v : Variant) (now : Z) : Z :=
  match v with
  | IndexTs => (now - 24 * 60 * 60 * 1000) / 1000
  | Part000 => now
  end.

(** The [console.log] of lines 64-68 of index.ts renders
    [new Date(last_check_time * 1000).toISOString()], which throws on an
    invalid date; part_000 has no such line. *)
Definition log_window (v : Variant) (last : Z) : M unit :=
  match v with
  | IndexTs => date_toISOString (last * 1000) ;; ret tt
  | Part000 => ret tt
  end.

(** The function scheduled every five minutes. *)
Definition photoUploader (v : Variant) (now : Z) : M unit :=
  last <- last_check_ref_get ;;
  let next := next_check_time v now in
  log_window v last ;;
  photos <- getPhotos last ;;
  for_each (process_photo v) photos ;;
  last_check_ref_set next.
End Job.

(** ** Reading the trace *)

(** The calls of the publish sub-steps: download, image upload, unlink of
    the temporary file, tag listing and creation, post creation. *)
Definition is_publish_event (e : Event) : bool :=
  match e with
  | EvCreateWriteStream _ _ | EvHttpsGet _ _ | EvUnlink _ _
  | EvImagesUpload _ _ | EvTagsBrowse _ | EvTagsAdd _ _ _ | EvPostsAdd _ _ => true
  | _ => false
  end.

Definition is_status_get (e : Event) : bool :=
  match e with EvStatusGet _ _ => true | _ => false end.

Definition is_status_set (e : Event) : bool :=
  match e with EvStatusSet _ _ _ => true | _ => false end.

Definition is_checkpoint_set (e : Event) : bool :=
  match e with EvLastCheckSet _ _ => true | _ => false end.

(** The calls that only read: the checkpoint read, the listing, the status
    reads. *)
Definition is_read (e : Event) : bool :=
  match e with
  | EvLastCheckGet _ | EvGetPhotos _ _ | EvStatusGet _ _ => true
  | _ => false
  end.

(** The names for which [ghost.tags.add] was called, in call order. *)
Definition tag_adds (evs : list Event) : list string :=
  omap (λ e, match e with EvTagsAdd name _ _ => Some name | _ => None end) evs.

(** The posts passed to [ghost.posts.add], in call order. *)
Definition posts_added (evs : list Event) : list Post :=
  omap (λ e, match e with EvPostsAdd post _ => Some post | _ => None end) evs.

(** The world after a run, whatever its result. *)
Definition after_run (env : Env) (v : Variant) (now : Z) (w : World) : World :=
  (photoUploader env v now w).2.

(** Successive scheduled runs, one per clock reading. *)
Definition after_runs (env : Env) (v : Variant) (nows : list Z) (w : World) : World :=
  foldl (λ w now, after_run env v now w) w nows.

(** ** The tag list as the specification words it

    The whitespace-separated tokens of the tag string together with the fixed
    tag, as a set, listed in ascending order.  It is the specification's
    description and not a translation of the source; [tags_of] is compared
    with it below. *)

Definition is_whitespace (c : ascii) : bool :=
  let n := N_of_ascii c in
  ((n =? 32) || ((9 <=? n) && (n <=? 13)))%N.

Definition whitespace_tokens (s : string) : list string :=
  filter (λ piece, piece ≠ "") (split_by is_whitespace s).

Definition tag_set_as_specified (tag_string : string) : list string :=
  merge_sort str_le (remove_dups (whitespace_tokens tag_string ++ ["flickr"])).

(** ** Vocabulary of the properties *)

Local Open Scope list_scope.

(** The world in which the iteration continues after the status read. *)
Definition after_status_get (photo : Photo) (w : World) : World :=
  emit (EvStatusGet (p_id photo) (Returned (photo_status w !! p_id photo))) w.

(** The status record that the iteration hands to the database, from the
    result of the [try] block. *)
Definition status_after (photo : Photo) (desc : string) (r : Result unit)
    : option PhotoStatus :=
  match r with
  | Ok _ => Some (initial_status photo desc)
  | Throw e => Some (failed_status (initial_status photo desc) e)
  | Pending => None
  end.

(** The run up to the listing: lines 56-81. *)
Definition list_candidates (env : Env) (v : Variant) : M (list Photo) :=
  last <- last_check_ref_get env ;;
  log_window v last ;;
  getPhotos env last.

(** The values with which [last_check_ref.set] was called, in call order. *)
Definition checkpoint_sets (evs : list Event) : list Z :=
  omap (λ e, match e with EvLastCheckSet n _ => Some n | _ => None end) evs.

(** The hosted URLs that [ghost.images.upload] returned, in call order. *)
Definition uploads (evs : list Event) : list string :=
  omap (λ e, match e with EvImagesUpload _ (Returned url) => Some url | _ => None end) evs.

(** The successful [ghost.tags.add] calls for [names], name and slug alike. *)
Definition tag_add_events (names : list string) : list Event :=
  map (λ t, EvTagsAdd t t (Returned tt)) names.

Definition is_tag_add (e : Event) : bool :=
  match e with EvTagsAdd _ _ _ => true | _ => false end.

(** The calls to the tags of Ghost: listing and creation. *)
Definition is_tag_event (e : Event) : bool :=
  match e with EvTagsBrowse _ | EvTagsAdd _ _ _ => true | _ => false end.

(** The tag names that [ghost.tags.browse] returned, in call order. *)
Definition tag_listings (evs : list Event) : list (list string) :=
  omap (λ e, match e with EvTagsBrowse (Returned names) => Some names | _ => None end) evs.

(** The [ghost.tags.add] calls among [evs] are those of the tag loop on
    [tags]: none as long as no listing has returned; after the one listing,
    a call for each element of [tags] that the listing lacks, in list order,
    all of which returned, or the first of them up to one that threw. *)
Definition tag_loop_calls (tags : list string) (evs : list Event) : Prop :=
  match tag_listings evs with
  | [] => filter is_tag_add evs = []
  | [names] =>
      filter is_tag_add evs = tag_add_events (missing_tags tags names) ∨
      ∃ n t e, missing_tags tags names !! n = Some t ∧
               filter is_tag_add evs
               = tag_add_events (take n (missing_tags tags names))
                 ++ [EvTagsAdd t t (Threw e)]
  | _ => False
  end.

(** The calls of the first three sub-steps: download, image upload, unlink. *)
Definition is_file_event (e : Event) : bool :=
  match e with
  | EvCreateWriteStream _ _ | EvHttpsGet _ _ | EvUnlink _ _ | EvImagesUpload _ _ => true
  | _ => false
  end.

(** [w'] continues [w]: same checkpoint, same status records, and a trace
    that grew by events that all satisfy [P]. *)
Definition continues (P : Event -> bool) (w w' : World) : Prop :=
  last_check_time w' = last_check_time w ∧
  photo_status w' = photo_status w ∧
  ∃ evs, trace w' = trace w ++ evs ∧ forallb P evs = true.

(** A computation all of whose runs continue the world they start from. *)
Definition stays (P : Event -> bool) {A} (m : M A) : Prop :=
  ∀ w, continues P w (m w).2.

(** Every record that says [success = true] is still there, unchanged. *)
Definition keeps_published (w w' : World) : Prop :=
  ∀ id st, photo_status w !! id = Some st -> st_success st = true ->
           photo_status w' !! id = Some st.

(** [w'] is a later world of the same loop: the checkpoint is untouched, no
    call has written it, and the published records are kept. *)
Definition advances (w w' : World) : Prop :=
  last_check_time w' = last_check_time w ∧
  keeps_published w w' ∧
  ∃ evs, trace w' = trace w ++ evs ∧
         forallb (λ e, negb (is_checkpoint_set e)) evs = true.

(** ** Sample photos, services and worlds *)

Definition photoA : Photo :=
  {| p_id := "A"; p_title := "Beach"; p_description := Some "At the beach";
     p_dateupload := 1401234567; p_tags := "beach sunset";
     p_url_o := Some "https://live.staticflickr.com/1/A_o.jpg" |}.

Definition photoB : Photo :=
  {| p_id := "B"; p_title := "Hill"; p_description := Some "On the hill";
     p_dateupload := 1401234600; p_tags := "";
     p_url_o := Some "https://live.staticflickr.com/1/B_o.jpg" |}.

Definition photoC : Photo :=
  {| p_id := "C"; p_title := "Logo"; p_description := Some "The logo";
     p_dateupload := 1401234700; p_tags := "flickr";
     p_url_o := Some "https://live.staticflickr.com/1/C_o.jpg" |}.

(** A photo whose listing entry has no description. *)
Definition photoD : Photo :=
  {| p_id := "D"; p_title := "Untitled"; p_description := None;
     p_dateupload := 1401234650; p_tags := "";
     p_url_o := Some "https://live.staticflickr.com/1/D_o.jpg" |}.

(** A photo whose [url_o] is a file name and no URL. *)
Definition photoE : Photo :=
  {| p_id := "E"; p_title := "Pier"; p_description := Some "At the pier";
     p_dateupload := 1401234800; p_tags := "sea";
     p_url_o := Some "E_o.jpg" |}.

(** A photo for which the listing gives no [url_o]. *)
Definition photoF : Photo :=
  {| p_id := "F"; p_title := "Dune"; p_description := Some "In the dunes";
     p_dateupload := 1401234900; p_tags := "sand";
     p_url_o := None |}.

(** A photo whose [url_o] is the empty string. *)
Definition photoG : Photo :=
  {| p_id := "G"; p_title := "Fog"; p_description := Some "In the fog";
     p_dateupload := 1401235000; p_tags := "";
     p_url_o := Some "" |}.

(** A file system in which [/tmp] and [/] are directories and no file has
    an empty name. *)
Definition sample_open_fails (path : string) : option thrown :=
  if decide (path = "/tmp" ∨ path = "/")
  then Some (ErrorObj ("EISDIR: illegal operation on a directory, open '" ++ path ++ "'")%string)
  else if decide (path = "")
  then Some (ErrorObj "ENOENT: no such file or directory, open ''")
  else None.

(** [https.get] on a string that does not start as an https URL. *)
Definition sample_https_throws (url : string) : option string :=
  if String.prefix "https://" url then None
  else if String.prefix "http://" url
  then Some ("Protocol " ++ dq ++ "http:" ++ dq ++ " not supported. Expected "
             ++ dq ++ "https:" ++ dq)%string
  else Some "Invalid URL".

(** The names of the tags that Ghost created, in call order. *)
Definition tags_created (evs : list Event) : list string :=
  omap (λ e, match e with EvTagsAdd name _ (Returned _) => Some name | _ => None end) evs.

(** Services that list [photos], know the tags [ghostTags] and those created
    since, and fail on the given download URLs, upload paths and status ids
    only. *)
Definition service (photos : list Photo) (ghostTags : list string)
    (bad_downloads bad_uploads bad_status_sets : list string) : Env :=
  {| last_check_get_fails := λ _, None;
     flickr_getPhotos := λ _ _, Returned photos;
     status_get_fails := λ _ _, None;
     open_fails := λ _ path, sample_open_fails path;
     https_get := λ _ url,
       match sample_https_throws url with
       | Some msg => HttpsThrows msg
       | None =>
           if bool_decide (url ∈ bad_downloads) then HttpsError "socket hang up"
           else HttpsResponse
       end;
     unlink_fails := λ _ _, None;
     ghost_images_upload := λ _ ref,
       if bool_decide (ref ∈ bad_uploads)
       then Threw (ErrorObj "Request failed with status code 500")
       else Returned ("https://blog.example/content/images/" ++ basename ref)%string;
     ghost_tags_browse := λ w, Returned (ghostTags ++ tags_created (trace w));
     ghost_tags_add := λ _ _, None;
     ghost_posts_add := λ _ _, None;
     status_set_fails := λ _ id _,
       if bool_decide (id ∈ bad_status_sets) then Some (ErrorObj "PERMISSION_DENIED")
       else None;
     last_check_set_fails := λ _ _, None |}.

(** Services whose listing fails. *)
Definition listing_down : Env :=
  {| last_check_get_fails := λ _, None;
     flickr_getPhotos := λ _ _, Threw (ErrorObj "getaddrinfo ENOTFOUND api.flickr.com");
     status_get_fails := λ _ _, None;
     open_fails := λ _ _, None;
     https_get := λ _ _, HttpsResponse;
     unlink_fails := λ _ _, None;
     ghost_images_upload := λ _ _, Returned "https://blog.example/content/images/x.jpg";
     ghost_tags_browse := λ _, Returned [];
     ghost_tags_add := λ _ _, None;
     ghost_posts_add := λ _ _, None;
     status_set_fails := λ _ _ _, None;
     last_check_set_fails := λ _ _, None |}.

Definition world0 : World :=
  {| last_check_time := 1401000000; photo_status := ∅; files := ∅; trace := [] |}.

(** A world in which photo A has been published. *)
Definition world_A_published : World :=
  {| last_check_time := 1401000000;
     photo_status := {[ "A" := initial_status photoA "At the beach" ]};
     files := ∅; trace := [] |}.

Definition now0 : Z := 1401300000000.

(** ** [paramsSerializer]

    The serializer that the Ghost client hands to axios (lines 34-43 of both
    files): [Object.keys(parameters).reduce(...).join('&')], each part being
    the key, [=], and [encodeURIComponent([].concat(parameters[key]).join(','))].
    [parameters] is the object as the list of its keys, in [Object.keys]
    order, with their values. *)

(** The integers that a number holds exactly, and that [ToString] writes
    digit by digit: those of magnitude at most 2^53 - 1. *)
Definition safe_integer (n : Z) : bool := Z.abs n <=? 9007199254740991.

(** A value that is not an array: undefined, null, a string, a safe integer,
    or a boolean. *)
Inductive Scalar :=
  | SUndefined
  | SNull
  | SString (s : string)
  | SNumber (n : Z) (safe : safe_integer n = true)
  | SBool (b : bool).

(** The value of a parameter: a scalar or an array of scalars. *)
Inductive ParamValue :=
  | PScalar (x : Scalar)
  | PArray (xs : list Scalar).

Fixpoint uint_string (d : Decimal.uint) : string :=
  match d with
  | Decimal.Nil => ""
  | Decimal.D0 d' => String "0" (uint_string d')
  | Decimal.D1 d' => String "1" (uint_string d')
  | Decimal.D2 d' => String "2" (uint_string d')
  | Decimal.D3 d' => String "3" (uint_string d')
  | Decimal.D4 d' => String "4" (uint_string d')
  | Decimal.D5 d' => String "5" (uint_string d')
  | Decimal.D6 d' => String "6" (uint_string d')
  | Decimal.D7 d' => String "7" (uint_string d')
  | Decimal.D8 d' => String "8" (uint_string d')
  | Decimal.D9 d' => String "9" (uint_string d')
  end.

(** The decimal numeral of an integer: its digits, after [-] when it is
    negative. *)
Definition decimal_numeral (n : Z) : string :=
  match Z.to_int n with
  | Decimal.Pos d => uint_string d
  | Decimal.Neg d => String "-" (uint_string d)
  end.

(** What [join] writes for an element: nothing for undefined and null, the
    string conversion otherwise, which for a safe integer is its decimal
    numeral. *)
Definition element_string (x : Scalar) : string :=
  match x with
  | SUndefined | SNull => ""
  | SString s => s
  | SNumber n _ => decimal_numeral n
  | SBool true => "true"
  | SBool false => "false"
  end.

(** [l.join(sep)] on an array of strings. *)
Definition join (sep : string) (l : list string) : string := String.concat sep l.

(** [[].concat(v)]: the elements of an array, the one value otherwise. *)
Definition concat_empty (v : ParamValue) : list Scalar :=
  match v with
  | PScalar x => [x]
  | PArray xs => xs
  end.

(** The characters that [encodeURIComponent] leaves as they are: letters,
    digits and [- _ . ! ~ * ' ( )]. *)
Definition unreserved (c : ascii) : bool :=
  let n := N_of_ascii c in
  (((48 <=? n) && (n <=? 57)) || ((65 <=? n) && (n <=? 90)) || ((97 <=? n) && (n <=? 122))
   || (n =? 45) || (n =? 95) || (n =? 46) || (n =? 33) || (n =? 126) || (n =? 42)
   || (n =? 39) || (n =? 40) || (n =? 41))%N.

Definition hex_digit (n : N) : ascii :=
  ascii_of_N (if (n <? 10)%N then 48 + n else 55 + n)%N.

(** [%XX] for the byte [b]. *)
Definition percent (b : N) : string :=
  String "%" (String (hex_digit (b / 16)) (String (hex_digit (b mod 16)) "")).

(** The encoding of one code unit below 256: itself when unreserved, else the
    escaped bytes of its UTF-8 form, one byte below 128 and two from there
    on. *)
Definition encode_unit (c : ascii) : string :=
  let n := N_of_ascii c in
  if unreserved c then String c ""
  else if (n <? 128)%N then percent n
  else (percent (192 + n / 64) ++ percent (128 + n mod 64))%string.

(** [encodeURIComponent(s)] on a string of code units below 256. *)
Fixpoint encodeURIComponent (s : string) : string :=
  match s with
  | EmptyString => ""
  | String c s' => (encode_unit c ++ encodeURIComponent s')%string
  end.

(** The [val] of the reducer. *)
Definition param_value (v : ParamValue) : string :=
  encodeURIComponent (join "," (map element_string (concat_empty v))).

Definition paramsSerializer (parameters : list (string * ParamValue)) : string :=
  join "&"
    (fold_left (λ parts '(key, v), parts ++ [(key ++ "=" ++ param_value v)%string])
       parameters []).

(** *** Vocabulary for the serializer *)

Fixpoint string_forall (P : ascii -> bool) (s : string) : bool :=
  match s with
  | EmptyString => true
  | String c s' => P c && string_forall P s'
  end.

(** The string [s] does not contain the character [c]. *)
Definition lacks (c : ascii) (s : string) : bool :=
  string_forall (λ d, negb (Ascii.eqb d c)) s.

(** A parameter as the receiver can know it: the key, and the value joined
    with commas. *)
Definition normal_form (kv : string * ParamValue) : string * string :=
  (kv.1, join "," (map element_string (concat_empty kv.2))).

(** One part of the query string. *)
Definition serialized_pair (kv : string * ParamValue) : string :=
  (kv.1 ++ "=" ++ param_value kv.2)%string.

Definition hex_value (c : ascii) : N :=
  let n := N_of_ascii c in
  (if n <? 58 then n - 48 else n - 55)%N.

(** A left inverse of [encodeURIComponent], by which the encoding is shown
    to lose nothing: escapes are read back as bytes, and two bytes as one code
    unit. *)
Fixpoint decode_component (s : string) : string :=
  match s with
  | EmptyString => ""
  | String "%" (String h1 (String l1 rest)) =>
      let b := (16 * hex_value h1 + hex_value l1)%N in
      if (b <? 128)%N then String (ascii_of_N b) (decode_component rest)
      else match rest with
           | String "%" (String h2 (String l2 rest')) =>
               String (ascii_of_N ((b - 192) * 64 + (16 * hex_value h2 + hex_value l2 - 128)))
                 (decode_component rest')
           | _ => ""
           end
  | String c rest => String c (decode_component rest)
  end.

(** ** Vocabulary of the further properties *)

(** A status record that mirrors the photo it was built from, with [error]
    null exactly when [success] is true. *)
Definition mirrors (photo : Photo) (st : PhotoStatus) : Prop :=
  st_id st = p_id photo ∧
  st_url_o st = p_url_o photo ∧
  st_title st = p_title photo ∧
  p_description photo = Some (st_desc st) ∧
  st_date st = p_dateupload photo ∧
  st_tags st = p_tags photo ∧
  (st_success st = true <-> st_error st = ErrNull).

(** A stored record is sound when it carries the id it is stored under and
    has [error] null exactly when [success] is true. *)
Definition record_ok (id : string) (st : PhotoStatus) : Prop :=
  st_id st = id ∧ (st_success st = true <-> st_error st = ErrNull).

Definition store_ok (w : World) : Prop :=
  ∀ id st, photo_status w !! id = Some st -> record_ok id st.

(** A computation every run of which relates the world it starts from to the
    world it ends in. *)
Definition respects (R : World -> World -> Prop) {A} (m : M A) : Prop :=
  ∀ w, R w (m w).2.

Definition same_files (w w' : World) : Prop := files w' = files w.

(** The ids whose status was read, in call order. *)
Definition status_reads (evs : list Event) : list string :=
  omap (λ e, match e with EvStatusGet id _ => Some id | _ => None end) evs.

(** The status writes, with the id and the record, in call order. *)
Definition status_writes (evs : list Event) : list (string * PhotoStatus) :=
  omap (λ e, match e with EvStatusSet id st _ => Some (id, st) | _ => None end) evs.

(** The posts that [ghost.posts.add] accepted, in call order. *)
Definition posts_created (evs : list Event) : list Post :=
  omap (λ e, match e with EvPostsAdd post (Returned _) => Some post | _ => None end) evs.

(** The [min_upload_date] of the listings, in call order. *)
Definition listings (evs : list Event) : list Z :=
  omap (λ e, match e with EvGetPhotos m _ => Some m | _ => None end) evs.

(** The publish calls other than [ghost.posts.add]. *)
Definition is_pre_post_event (e : Event) : bool :=
  match e with
  | EvCreateWriteStream _ _ | EvHttpsGet _ _ | EvUnlink _ _
  | EvImagesUpload _ _ | EvTagsBrowse _ | EvTagsAdd _ _ _ => true
  | _ => false
  end.

(** The calls an iteration of the loop can make. *)
Definition is_loop_event (e : Event) : bool :=
  is_status_get e || is_publish_event e || is_status_set e.

(** The events of one iteration on [photo]: the status read of its id, then
    publish calls among which at most one [ghost.posts.add], then at most one
    status write, of a record that mirrors the photo and that says failure
    only if no post was created. *)
Definition iteration_events (photo : Photo) (evs : list Event) : Prop :=
  ∃ o pub sets,
    evs = EvStatusGet (p_id photo) o :: pub ++ sets ∧
    forallb is_publish_event pub = true ∧
    (length (posts_added pub) ≤ 1)%nat ∧
    (sets = [] ∧ posts_created pub = []
     ∨ ∃ st res, sets = [EvStatusSet (p_id photo) st res] ∧ mirrors photo st ∧
                 (st_success st = false -> posts_created pub = [])).

(** The posts of one iteration on [photo]: its events start with the status
    read of the photo's id and hold no other read; [ghost.posts.add] is called
    at most once; and when a post was created, the one status write of the
    iteration is for the photo's id and says success. *)
Definition iteration_posts (photo : Photo) (evs : list Event) : Prop :=
  ∃ o calls,
    evs = EvStatusGet (p_id photo) o :: calls ∧ status_reads calls = [] ∧
    (length (posts_added calls) ≤ 1)%nat ∧
    (posts_created calls = []
     ∨ ∃ st, status_writes calls = [(p_id photo, st)] ∧ st_success st = true).

(** A write stream that could not open its file. *)
Definition is_failed_open (e : Event) : bool :=
  match e with EvCreateWriteStream _ (Threw _) => true | _ => false end.

(** The calls of the sub-steps that follow the download. *)
Definition is_after_download (e : Event) : bool :=
  match e with
  | EvImagesUpload _ _ | EvUnlink _ _ | EvTagsBrowse _ | EvTagsAdd _ _ _
  | EvPostsAdd _ _ => true
  | _ => false
  end.

(** No record disappears between [w] and [w']. *)
Definition keeps_records (w w' : World) : Prop :=
  ∀ id, is_Some (photo_status w !! id) -> is_Some (photo_status w' !! id).

(** Soundness of the store carries over from [w] to [w']. *)
Definition keeps_sound (w w' : World) : Prop := store_ok w -> store_ok w'.

(** Every record of [w'] was in [w] already, or is sound and holds no
    undefined property. *)
Definition written_ok (w w' : World) : Prop :=
  ∀ id st, photo_status w' !! id = Some st ->
           photo_status w !! id = Some st
           ∨ record_ok id st ∧ undefined_property st = None.

(** A computation that calls [ghost.posts.add] at most once, and that has
    created no post when it does not return. *)
Definition one_post (m : M unit) : Prop :=
  ∀ w, ∃ evs, trace (m w).2 = trace w ++ evs ∧
              (length (posts_added evs) ≤ 1)%nat ∧
              ((m w).1 ≠ Ok tt -> posts_created evs = []).

(** * Properties *)

(** ** The helpers, on examples *)

Example tags_of_beach_sunset :
  tags_of "beach sunset" = ["beach"; "flickr"; "sunset"].
Proof. reflexivity. Qed.

Example toISOString_epoch : toISOString 0 = Some "1970-01-01T00:00:00.000Z".
Proof. reflexivity. Qed.

Example toISOString_2014 :
  toISOString (1401234567 * 1000) = Some "2014-05-27T23:49:27.000Z".
Proof. reflexivity. Qed.

Example basename_flickr :
  basename "https://live.staticflickr.com/65535/52_ab_o.jpg" = "52_ab_o.jpg".
Proof. reflexivity. Qed.

(** ** The order on tags *)

#[global] Instance str_le_total : Total str_le.
Proof. intros s t. apply String.leb_total. Qed.

#[global] Instance str_le_antisymm : AntiSymm (=) str_le.
Proof. intros s t. apply String.leb_antisym. Qed.

#[global] Instance str_le_trans : Transitive str_le.
Proof.
  unfold str_le, String.leb. intros s.
  induction s as [|a s IH]; intros [|b t] [|c u]; simpl; try done.
  unfold Ascii.compare.
  destruct (N.compare_spec (N_of_ascii a) (N_of_ascii b)) as [Hab|Hab|Hab],
           (N.compare_spec (N_of_ascii b) (N_of_ascii c)) as [Hbc|Hbc|Hbc],
           (N.compare_spec (N_of_ascii a) (N_of_ascii c)) as [Hac|Hac|Hac];
    try done; try lia.
  apply IH.
Qed.

(** Sorting is determined by its result being sorted and a rearrangement of
    the input, so [sort] stands for whatever algorithm the engine runs. *)
Lemma sort_unique (l l' : list string) :
  Sorted str_le l' -> l' ≡ₚ l -> l' = sort l.
Proof.
  intros Hs Hp. apply (Sorted_unique str_le); [done|apply Sorted_merge_sort, _|].
  unfold sort. by rewrite merge_sort_Permutation.
Qed.

Lemma tags_of_sorted (s : string) : Sorted str_le (tags_of s).
Proof. unfold tags_of, sort. apply Sorted_merge_sort, _. Qed.

Lemma tags_of_permutation (s : string) : tags_of s ≡ₚ split " " s ++ ["flickr"].
Proof. unfold tags_of, sort. apply merge_sort_Permutation. Qed.

(** ** Inversion of the monad's operations *)

Lemma bind_ok_inv {A B} (m : M A) (k : A -> M B) w b w' :
  bind m k w = (Ok b, w') ->
  ∃ a w1, m w = (Ok a, w1) ∧ k a w1 = (Ok b, w').
Proof.
  unfold bind. destruct (m w) as [[a|e|] w1]; intros H; try discriminate.
  by exists a, w1.
Qed.

(** ** How a world evolves *)

Lemma continues_refl P w : continues P w w.
Proof. repeat split. exists []. by rewrite app_nil_r. Qed.

Lemma continues_trans P w1 w2 w3 :
  continues P w1 w2 -> continues P w2 w3 -> continues P w1 w3.
Proof.
  intros (Hc1 & Hs1 & evs1 & Ht1 & Hp1) (Hc2 & Hs2 & evs2 & Ht2 & Hp2).
  repeat split; [congruence | congruence |].
  exists (evs1 ++ evs2). rewrite Ht2, Ht1, <- app_assoc. split; [done|].
  rewrite forallb_app. by rewrite Hp1, Hp2.
Qed.

Lemma continues_emit P e w : P e = true -> continues P w (emit e w).
Proof. intros He. repeat split. exists [e]. simpl. by rewrite He. Qed.

Lemma stays_ret P {A} (a : A) : stays P (ret a).
Proof. intros w. apply continues_refl. Qed.

Lemma stays_throw P {A} e : stays P (@throw A e).
Proof. intros w. apply continues_refl. Qed.

Lemma stays_never P {A} : stays P (@never A).
Proof. intros w. apply continues_refl. Qed.

Lemma stays_bind P {A B} (m : M A) (k : A -> M B) :
  stays P m -> (∀ a, stays P (k a)) -> stays P (bind m k).
Proof.
  intros Hm Hk w. unfold bind. specialize (Hm w).
  destruct (m w) as [[a|e|] w1]; simpl in *; [|done..].
  eapply continues_trans; [done|]. apply Hk.
Qed.

Lemma stays_unhandled P {A} (m : M A) : stays P m -> stays P (unhandled m).
Proof.
  intros Hm w. unfold unhandled. specialize (Hm w).
  by destruct (m w) as [[a|e|] w1].
Qed.

Create HintDb stays.
#[local] Hint Resolve stays_ret stays_throw stays_never : stays.

(** ** The publish sub-steps touch neither the checkpoint nor the statuses *)

Section PublishStays.
Context (env : Env).

Ltac emits := intros w; simpl; apply continues_emit; reflexivity.

Lemma stays_createWriteStream path : stays is_publish_event (createWriteStream env path).
Proof.
  intros w. unfold createWriteStream. destruct (open_fails env w path); simpl.
  - by apply continues_emit.
  - repeat split. by eexists [_].
Qed.

Lemma stays_https_request url : stays is_publish_event (https_request env url).
Proof. emits. Qed.

Lemma stays_unlink path : stays is_publish_event (unlink env path).
Proof.
  intros w. unfold unlink. destruct (unlink_fails env w path); simpl.
  - by apply continues_emit.
  - repeat split. by eexists [_].
Qed.

Lemma stays_images_upload ref : stays is_publish_event (images_upload env ref).
Proof. emits. Qed.

Lemma stays_tags_browse : stays is_publish_event (tags_browse env).
Proof. emits. Qed.

Lemma stays_tags_add name slug : stays is_publish_event (tags_add env name slug).
Proof. emits. Qed.

Lemma stays_posts_add post : stays is_publish_event (posts_add env post).
Proof. emits. Qed.

Lemma stays_date_toISOString P t : stays P (date_toISOString t).
Proof. unfold date_toISOString. destruct (toISOString t); auto with stays. Qed.

Lemma stays_downloadImage v url : stays is_publish_event (downloadImage env v url).
Proof.
  unfold downloadImage. destruct url as [u|]; [|auto with stays].
  apply stays_bind; [apply stays_createWriteStream|intros fileStream].
  apply stays_bind; [apply stays_https_request|intros [|msg| |msg]];
    destruct fileStream; auto with stays.
  apply stays_bind; [|auto with stays].
  apply stays_unhandled, stays_unlink.
Qed.

Lemma stays_create_tags ghostTags tags :
  stays is_publish_event (create_tags env ghostTags tags).
Proof.
  induction tags as [|tag rest IH]; simpl; [auto with stays|].
  apply stays_bind; [|done].
  destruct (includes ghostTags tag); [auto with stays|apply stays_tags_add].
Qed.

Lemma stays_publish v photo desc : stays is_publish_event (publish env v photo desc).
Proof.
  unfold publish.
  apply stays_bind; [apply stays_downloadImage|intros filePath].
  apply stays_bind; [apply stays_images_upload|intros imageUpload].
  apply stays_bind; [apply stays_unlink|intros _].
  apply stays_bind; [apply stays_tags_browse|intros ghostTags].
  apply stays_bind; [apply stays_create_tags|intros _].
  apply stays_bind; [apply stays_date_toISOString|intros published_at].
  apply stays_posts_add.
Qed.
End PublishStays.

(** ** One iteration of the loop, case by case *)

Section Iteration.
Context (env : Env) (v : Variant).

Lemma process_photo_read_fails photo w e :
  status_get_fails env w (p_id photo) = Some e ->
  process_photo env v photo w
  = (Throw e, emit (EvStatusGet (p_id photo) (Threw e)) w).
Proof.
  intros Hget. unfold process_photo, bind, photo_status_get. by rewrite Hget.
Qed.

Lemma process_photo_skips photo w :
  status_get_fails env w (p_id photo) = None ->
  already_published (photo_status w !! p_id photo) = true ->
  process_photo env v photo w = (Ok tt, after_status_get photo w).
Proof.
  intros Hget Hpub. unfold process_photo, bind, photo_status_get.
  by rewrite Hget, Hpub.
Qed.

Lemma process_photo_no_description photo w :
  status_get_fails env w (p_id photo) = None ->
  already_published (photo_status w !! p_id photo) = false ->
  p_description photo = None ->
  process_photo env v photo w
  = (Throw (ErrorObj "Cannot read properties of undefined (reading '_content')"),
     after_status_get photo w).
Proof.
  intros Hget Hpub Hdesc. unfold process_photo, bind, photo_status_get.
  by rewrite Hget, Hpub, Hdesc.
Qed.

Lemma process_photo_attempts photo desc w r w2 :
  status_get_fails env w (p_id photo) = None ->
  already_published (photo_status w !! p_id photo) = false ->
  p_description photo = Some desc ->
  publish env v photo desc (after_status_get photo w) = (r, w2) ->
  process_photo env v photo w
  = match status_after photo desc r with
    | Some st => photo_status_set env (p_id photo) st w2
    | None => (Pending, w2)
    end.
Proof.
  intros Hget Hpub Hdesc Hattempt.
  unfold process_photo, bind at 1, photo_status_get.
  rewrite Hget, Hpub, Hdesc. fold (after_status_get photo w).
  unfold bind at 1, try_catch, bind at 1. rewrite Hattempt.
  by destruct r as [[]|e|].
Qed.

(** The cases are exhaustive: what an iteration does is one of the four. *)
Lemma process_photo_cases photo w :
  (∃ e, status_get_fails env w (p_id photo) = Some e) ∨
  (status_get_fails env w (p_id photo) = None ∧
   (already_published (photo_status w !! p_id photo) = true ∨
    already_published (photo_status w !! p_id photo) = false ∧
    (p_description photo = None ∨ ∃ desc, p_description photo = Some desc))).
Proof.
  destruct (status_get_fails env w (p_id photo)) as [e|]; [left; eauto|right].
  split; [done|].
  destruct (already_published _); [by left|right]. split; [done|].
  destruct (p_description photo); eauto.
Qed.
End Iteration.

(** ** The status write *)

Section StatusWrite.
Context (env : Env).

(** A status write adds its event to the trace, and the record to the store
    when the database took it.  It returns only then, and only in a process
    that lives on; it never goes through with an undefined property. *)
Lemma photo_status_set_cases id st w :
  ∃ res,
    (photo_status_set env id st w).2
    = emit (EvStatusSet id st res)
        (match res with Returned _ => set_photo_status id st w | Threw _ => w end) ∧
    (undefined_property st ≠ None -> ∃ e, res = Threw e) ∧
    match (photo_status_set env id st w).1 with
    | Ok _ => res = Returned tt ∧ stream_error_queued w = false
    | Throw e => res = Threw e
    | Pending => stream_error_queued w = true
    end.
Proof.
  unfold photo_status_set. destruct (undefined_property st) as [prop|].
  { eexists (Threw _). split; [reflexivity|]. split; [by eexists|done]. }
  destruct (status_set_fails env w id st) as [e|], (stream_error_queued w);
    [exists (Threw e)|exists (Threw e)|exists (Returned tt)|exists (Returned tt)];
    (split; [reflexivity|]); (split; [done|]); done.
Qed.

Lemma photo_status_set_undefined id st prop w :
  undefined_property st = Some prop ->
  photo_status_set env id st w
  = (Throw (undefined_error id prop),
     emit (EvStatusSet id st (Threw (undefined_error id prop))) w).
Proof. intros Hprop. unfold photo_status_set. by rewrite Hprop. Qed.

Lemma photo_status_set_world id st w :
  ∃ res, trace (photo_status_set env id st w).2 = trace w ++ [EvStatusSet id st res] ∧
         files (photo_status_set env id st w).2 = files w ∧
         last_check_time (photo_status_set env id st w).2 = last_check_time w ∧
         (photo_status (photo_status_set env id st w).2 = photo_status w
          ∨ undefined_property st = None ∧
            photo_status (photo_status_set env id st w).2 = <[id := st]> (photo_status w)) ∧
         ((photo_status_set env id st w).1 = Ok tt ->
          res = Returned tt ∧
          photo_status (photo_status_set env id st w).2 = <[id := st]> (photo_status w)) ∧
         (∀ e, (photo_status_set env id st w).1 = Throw e ->
               res = Threw e ∧
               photo_status (photo_status_set env id st w).2 = photo_status w).
Proof.
  destruct (photo_status_set_cases id st w) as (res & Hw & Hundef & Hres).
  exists res. rewrite Hw.
  destruct (photo_status_set env id st w).1 as [[]|e|], res as [[]|e'];
    simpl; split_and!; try done; try (by left); try (by destruct Hres);
    try (intros e0 [= <-]; by simplify_eq).
  - right. split; [|done]. destruct (undefined_property st); [|done].
    by destruct Hundef as [e ?].
  - right. split; [|done]. destruct (undefined_property st); [|done].
    by destruct Hundef as [e ?].
Qed.
End StatusWrite.

(** ** What the loop preserves *)

Lemma advances_refl w : advances w w.
Proof. repeat split; [by intros ?? |]. exists []. by rewrite app_nil_r. Qed.

Lemma advances_trans w1 w2 w3 : advances w1 w2 -> advances w2 w3 -> advances w1 w3.
Proof.
  intros (Hc1 & Hk1 & evs1 & Ht1 & Hp1) (Hc2 & Hk2 & evs2 & Ht2 & Hp2).
  repeat split; [congruence | intros id st ??; eauto |].
  exists (evs1 ++ evs2). rewrite Ht2, Ht1, <- app_assoc. split; [done|].
  by rewrite forallb_app, Hp1, Hp2.
Qed.

Lemma continues_advances P w w' :
  (∀ e, P e = true -> is_checkpoint_set e = false) ->
  continues P w w' -> advances w w'.
Proof.
  intros HP (Hc & Hs & evs & Ht & Hp). repeat split; [done| |].
  - intros id st ??. by rewrite Hs.
  - exists evs. split; [done|]. rewrite forallb_forall in *.
    intros e He. by rewrite (HP e (Hp e He)).
Qed.

Lemma publish_event_not_checkpoint e :
  is_publish_event e = true -> is_checkpoint_set e = false.
Proof. by destruct e. Qed.

Lemma status_get_not_checkpoint e :
  is_status_get e = true -> is_checkpoint_set e = false.
Proof. by destruct e. Qed.

Section Loop.
Context (env : Env) (v : Variant).

Lemma photo_status_set_advances id st w :
  already_published (photo_status w !! id) = false ->
  advances w (photo_status_set env id st w).2.
Proof.
  intros Hpub. destruct (photo_status_set_cases env id st w) as (res & -> & _).
  destruct res as [[]|e]; simpl.
  - repeat split; [|by eexists [_]].
    intros id' st' Hst' Hsucc. simpl.
    rewrite lookup_insert_ne; [done|]. intros <-.
    by rewrite Hst' in Hpub; simpl in Hpub; congruence.
  - eapply continues_advances, (continues_emit is_status_set); [|done].
    by intros [].
Qed.

Lemma after_status_get_continues photo w :
  continues is_status_get w (after_status_get photo w).
Proof. by apply continues_emit. Qed.

Lemma process_photo_advances photo w :
  advances w (process_photo env v photo w).2.
Proof.
  destruct (process_photo_cases env photo w)
    as [[e Hget]|[Hget [Hpub|[Hpub [Hdesc|[desc Hdesc]]]]]].
  - rewrite (process_photo_read_fails _ _ _ _ _ Hget). simpl.
    eapply continues_advances, (continues_emit is_status_get); [|done].
    apply status_get_not_checkpoint.
  - rewrite (process_photo_skips _ _ _ _ Hget Hpub). simpl.
    eapply continues_advances, after_status_get_continues.
    apply status_get_not_checkpoint.
  - rewrite (process_photo_no_description _ _ _ _ Hget Hpub Hdesc). simpl.
    eapply continues_advances, after_status_get_continues.
    apply status_get_not_checkpoint.
  - destruct (publish env v photo desc (after_status_get photo w)) as [r w2] eqn:Hattempt.
    rewrite (process_photo_attempts _ _ _ _ _ _ _ Hget Hpub Hdesc Hattempt).
    pose proof (stays_publish env v photo desc (after_status_get photo w)) as Hstay.
    rewrite Hattempt in Hstay. simpl in Hstay.
    assert (advances w w2) as Hw2.
    { eapply advances_trans.
      - eapply continues_advances, after_status_get_continues.
        apply status_get_not_checkpoint.
      - eapply continues_advances, Hstay. apply publish_event_not_checkpoint. }
    assert (photo_status w2 = photo_status w) as Hsame.
    { destruct Hstay as (_ & -> & _). done. }
    destruct (status_after photo desc r) as [st|]; [|done].
    eapply advances_trans; [done|].
    apply photo_status_set_advances. by rewrite Hsame.
Qed.

Lemma for_each_advances photos w :
  advances w (for_each (process_photo env v) photos w).2.
Proof.
  revert w. induction photos as [|photo rest IH]; intros w; simpl.
  - apply advances_refl.
  - unfold bind. pose proof (process_photo_advances photo w) as Hp.
    destruct (process_photo env v photo w) as [[[]|e|] w1]; simpl in *; [|done..].
    eapply advances_trans; [done|apply IH].
Qed.

(** An iteration on a photo that is already published only reads its
    status. *)
Lemma process_photo_published photo w :
  already_published (photo_status w !! p_id photo) = true ->
  ∃ r, (process_photo env v photo w).2 = emit (EvStatusGet (p_id photo) r) w.
Proof.
  intros Hpub. destruct (status_get_fails env w (p_id photo)) as [e|] eqn:Hget.
  - rewrite (process_photo_read_fails _ _ _ _ _ Hget). by eexists.
  - rewrite (process_photo_skips _ _ _ _ Hget Hpub). by eexists.
Qed.

Lemma for_each_all_published photos w :
  (∀ photo, photo ∈ photos -> already_published (photo_status w !! p_id photo) = true) ->
  continues is_status_get w (for_each (process_photo env v) photos w).2 ∧
  files (for_each (process_photo env v) photos w).2 = files w.
Proof.
  revert w. induction photos as [|photo rest IH]; intros w Hall; simpl.
  - split; [apply continues_refl|done].
  - unfold bind.
    destruct (process_photo_published photo w) as [r Hw1]; [apply Hall; left|].
    destruct (process_photo env v photo w) as [[[]|e|] w1]; simpl in *; subst w1;
      try (split; [by apply continues_emit|done]).
    destruct (IH (emit (EvStatusGet (p_id photo) r) w)) as [Hc Hf].
    { intros photo' Hin. simpl. apply Hall. by right. }
    split; [|by rewrite Hf].
    eapply continues_trans; [|done]. by apply continues_emit.
Qed.
End Loop.

(** ** The shape of a run *)

Section Run.
Context (env : Env) (v : Variant).

Lemma photoUploader_unfold now w :
  photoUploader env v now w
  = match list_candidates env v w with
    | (Ok photos, w1) =>
        match for_each (process_photo env v) photos w1 with
        | (Ok _, w2) => last_check_ref_set env (next_check_time v now) w2
        | (Throw e, w2) => (Throw e, w2)
        | (Pending, w2) => (Pending, w2)
        end
    | (Throw e, w1) => (Throw e, w1)
    | (Pending, w1) => (Pending, w1)
    end.
Proof.
  unfold photoUploader, list_candidates, bind.
  destruct (last_check_ref_get env w) as [[last|e|] w0]; [|done..].
  destruct (log_window v last w0) as [[[]|e|] w0']; [|done..].
  destruct (getPhotos env last w0') as [[photos|e|] w1]; [|done..].
  by destruct (for_each (process_photo env v) photos w1) as [[[]|e|] w2].
Qed.

Lemma log_window_world last w : (log_window v last w).2 = w.
Proof.
  unfold log_window, bind, date_toISOString.
  destruct v; [|done]. by destruct (toISOString (last * 1000)).
Qed.

Lemma list_candidates_continues w :
  continues is_read w (list_candidates env v w).2 ∧
  files (list_candidates env v w).2 = files w.
Proof.
  unfold list_candidates, bind, last_check_ref_get.
  destruct (last_check_get_fails env w) as [e|]; simpl.
  { split; [by apply continues_emit|done]. }
  pose proof (log_window_world (last_check_time w)
                (emit (EvLastCheckGet (Returned (last_check_time w))) w)) as Hlog.
  destruct (log_window v (last_check_time w) _) as [[[]|e|] w0]; simpl in *; subst w0;
    try (split; [by apply continues_emit|done]).
  split; [|done].
  eapply continues_trans; by apply continues_emit.
Qed.

Lemma last_check_ref_set_trace n w :
  ∃ r, trace (last_check_ref_set env n w).2 = trace w ++ [EvLastCheckSet n r] ∧
       files (last_check_ref_set env n w).2 = files w ∧
       photo_status (last_check_ref_set env n w).2 = photo_status w ∧
       ((last_check_ref_set env n w).1 = Ok tt ∧ r = Returned tt ∧
        last_check_time (last_check_ref_set env n w).2 = n
        ∨ (∃ e, (last_check_ref_set env n w).1 = Throw e ∧ r = Threw e) ∧
          last_check_time (last_check_ref_set env n w).2 = last_check_time w).
Proof.
  unfold last_check_ref_set. destruct (last_check_set_fails env w n) as [e|]; simpl.
  - exists (Threw e). repeat split; eauto.
  - exists (Returned tt). repeat split; eauto.
Qed.

Lemma checkpoint_sets_app evs1 evs2 :
  checkpoint_sets (evs1 ++ evs2) = checkpoint_sets evs1 ++ checkpoint_sets evs2.
Proof. unfold checkpoint_sets. apply omap_app. Qed.

Lemma checkpoint_sets_none evs :
  forallb (λ e, negb (is_checkpoint_set e)) evs = true -> checkpoint_sets evs = [].
Proof.
  induction evs as [|e evs IH]; [done|]. simpl. intros [He Hevs]%andb_true_iff.
  unfold checkpoint_sets in *. simpl. destruct e; simpl in *; try done; auto.
Qed.

Lemma read_not_checkpoint e : is_read e = true -> is_checkpoint_set e = false.
Proof. by destruct e. Qed.

(** The world in which the loop ends is a later world of the run's start,
    with no checkpoint write so far. *)
Lemma loop_advances w photos w1 :
  list_candidates env v w = (Ok photos, w1) ->
  advances w (for_each (process_photo env v) photos w1).2.
Proof.
  intros Hlist. eapply advances_trans; [|apply for_each_advances].
  destruct (list_candidates_continues w) as [Hc _]. rewrite Hlist in Hc.
  eapply continues_advances, Hc. apply read_not_checkpoint.
Qed.

Lemma run_keeps_published now w : keeps_published w (after_run env v now w).
Proof.
  unfold after_run. rewrite photoUploader_unfold.
  destruct (list_candidates env v w) as [[photos|e|] w1] eqn:Hlist;
    try (destruct (list_candidates_continues w) as [(_ & Hs & _) _];
         rewrite Hlist in Hs; simpl in *; intros id st ??; by rewrite Hs).
  pose proof (loop_advances w photos w1 Hlist) as (_ & Hk & _).
  destruct (for_each (process_photo env v) photos w1) as [[[]|e|] w2]; simpl in *; [|done..].
  destruct (last_check_ref_set_trace (next_check_time v now) w2) as (r & _ & _ & Hs & _).
  intros id st ??. rewrite Hs. eauto.
Qed.
End Run.

(** ** Photos already published are skipped *)

Lemma after_runs_keeps_published env v nows w :
  keeps_published w (after_runs env v nows w).
Proof.
  revert w. induction nows as [|now nows IH]; intros w; simpl; [by intros ??|].
  intros id st Hst Hsucc. apply IH; [|done].
  by apply run_keeps_published.
Qed.

Lemma already_published_inv (o : option PhotoStatus) :
  already_published o = true -> ∃ st, o = Some st ∧ st_success st = true.
Proof. destruct o as [st|]; [|done]. simpl. eauto. Qed.

(** C1. A photo whose stored status says [success = true] is skipped: its
    iteration makes no call but the status read and changes neither the
    statuses nor the files; a run all of whose candidates are in that state
    makes no publish call and no status write; and such a record survives any
    number of further runs, so the photo stays skipped. *)
Theorem published_photos_are_skipped (env : Env) (v : Variant) :
  (∀ photo w,
      already_published (photo_status w !! p_id photo) = true ->
      let w' := (process_photo env v photo w).2 in
      photo_status w' = photo_status w ∧ files w' = files w ∧
      ∃ r, trace w' = trace w ++ [EvStatusGet (p_id photo) r]) ∧
  (∀ now w photos w1,
      list_candidates env v w = (Ok photos, w1) ->
      (∀ photo, photo ∈ photos ->
                already_published (photo_status w !! p_id photo) = true) ->
      let w' := after_run env v now w in
      photo_status w' = photo_status w ∧ files w' = files w ∧
      ∃ evs, trace w' = trace w ++ evs ∧ posts_added evs = [] ∧
             forallb (λ e, negb (is_publish_event e) && negb (is_status_set e)) evs = true) ∧
  (∀ nows w photo,
      already_published (photo_status w !! p_id photo) = true ->
      photo_status (after_runs env v nows w) !! p_id photo
      = photo_status w !! p_id photo).
Proof.
  split; [|split].
  - intros photo w Hpub w'. subst w'.
    destruct (process_photo_published env v photo w Hpub) as [r ->].
    simpl. eauto.
  - intros now w photos w1 Hlist Hall w'. subst w'. unfold after_run.
    rewrite photoUploader_unfold, Hlist.
    destruct (list_candidates_continues env v w) as [(Hc0 & Hs0 & evs0 & Ht0 & Hp0) Hf0].
    rewrite Hlist in Hc0, Hs0, Ht0, Hf0. simpl in *.
    destruct (for_each_all_published env v photos w1)
      as [(Hc1 & Hs1 & evs1 & Ht1 & Hp1) Hf1].
    { intros photo Hin. rewrite Hs0. by apply Hall. }
    assert (∀ evs, forallb (λ e, is_read e || is_checkpoint_set e) evs = true ->
                   posts_added evs = [] ∧
                   forallb (λ e, negb (is_publish_event e) && negb (is_status_set e)) evs = true)
      as Hquiet.
    { induction evs as [|e evs IH]; [done|]. simpl.
      intros [He Hevs]%andb_true_iff. destruct (IH Hevs) as [IH1 IH2].
      unfold posts_added in *. simpl. rewrite IH2.
      by destruct e. }
    assert (forallb (λ e, is_read e || is_checkpoint_set e) (evs0 ++ evs1) = true) as Hp01.
    { rewrite forallb_app. apply andb_true_iff. split.
      - rewrite forallb_forall in *. intros e He. by rewrite (Hp0 e He).
      - rewrite forallb_forall in *. intros e He. specialize (Hp1 e He). by destruct e. }
    destruct (for_each (process_photo env v) photos w1) as [[[]|e|] w2]; simpl in *.
    + destruct (last_check_ref_set_trace env (next_check_time v now) w2)
        as (r & Ht & Hf & Hs & _).
      rewrite Hs, Hf. repeat split; [congruence..|].
      exists (evs0 ++ evs1 ++ [EvLastCheckSet (next_check_time v now) r]).
      rewrite Ht, Ht1, Ht0, <- !app_assoc. split; [done|].
      apply Hquiet. rewrite app_assoc, forallb_app, Hp01. done.
    + repeat split; [congruence..|]. exists (evs0 ++ evs1).
      rewrite Ht1, Ht0, <- app_assoc. split; [done|]. by apply Hquiet.
    + repeat split; [congruence..|]. exists (evs0 ++ evs1).
      rewrite Ht1, Ht0, <- app_assoc. split; [done|]. by apply Hquiet.
  - intros nows w photo Hpub.
    destruct (already_published_inv _ Hpub) as (st & Hst & Hsucc).
    rewrite Hst. by apply after_runs_keeps_published.
Qed.

Lemma published_photos_are_skipped_witness :
  let env := service [photoA] ["beach"; "flickr"] [] [] [] in
  list_candidates env IndexTs world_A_published
  = (Ok [photoA],
     (list_candidates env IndexTs world_A_published).2) ∧
  already_published (photo_status world_A_published !! "A") = true ∧
  photo_status (after_run env IndexTs now0 world_A_published)
  = photo_status world_A_published ∧
  trace (after_run env IndexTs now0 world_A_published)
  = [EvLastCheckGet (Returned 1401000000);
     EvGetPhotos 1401000000 (Returned [photoA]);
     EvStatusGet "A" (Returned (Some (initial_status photoA "At the beach")));
     EvLastCheckSet 1401213600 (Returned tt)] ∧
  photo_status (after_runs env IndexTs [now0; now0 + 300000] world_A_published) !! "A"
  = Some (initial_status photoA "At the beach").
Proof.
  intros env.
  destruct (published_photos_are_skipped env IndexTs) as (_ & Hrun & Hruns).
  assert (already_published (photo_status world_A_published !! "A") = true) as Hpub
    by (vm_compute; reflexivity).
  split; [vm_compute; reflexivity|]. split; [exact Hpub|].
  destruct (Hrun now0 world_A_published [photoA] _ eq_refl) as (Hs & _ & _).
  { intros photo Hin. apply list_elem_of_singleton in Hin. subst photo. exact Hpub. }
  split; [exact Hs|]. split; [vm_compute; reflexivity|].
  exact (Hruns [now0; now0 + 300000] world_A_published photoA Hpub).
Defined.

(** ** A failed attempt is recorded, and the loop goes on *)




(** ** The checkpoint after a failed download *)

Lemma for_each_app {A} (body : A -> M unit) (l1 l2 : list A) w :
  for_each body (l1 ++ l2) w = bind (for_each body l1) (λ _, for_each body l2) w.
Proof.
  revert w. induction l1 as [|x l1 IH]; intros w; simpl; [reflexivity|].
  unfold bind. destruct (body x w) as [[[]|e|] w1]; [|reflexivity..].
  rewrite IH. reflexivity.
Qed.

(** An exception that leaves an iteration leaves the loop and the run: the
    photos after it are not touched and the checkpoint is not written. *)
Lemma exception_ends_the_run env v now w done photo rest w1 w2 w3 e :
  list_candidates env v w = (Ok (done ++ photo :: rest), w1) ->
  for_each (process_photo env v) done w1 = (Ok tt, w2) ->
  process_photo env v photo w2 = (Throw e, w3) ->
  photoUploader env v now w = (Throw e, w3) ∧
  last_check_time w3 = last_check_time w ∧
  ∃ evs, trace w3 = trace w ++ evs ∧ checkpoint_sets evs = [].
Proof.
  intros Hlist Hdone Hbody.
  assert (for_each (process_photo env v) (done ++ photo :: rest) w1 = (Throw e, w3))
    as Hloop.
  { rewrite for_each_app. unfold bind at 1. rewrite Hdone. simpl.
    unfold bind at 1. by rewrite Hbody. }
  pose proof (loop_advances env v w _ w1 Hlist) as (Hc & _ & evs & Ht & Hp).
  rewrite Hloop in Hc, Ht. simpl in *.
  rewrite photoUploader_unfold, Hlist, Hloop. repeat split; [done|].
  exists evs. split; [done|]. by apply checkpoint_sets_none.
Qed.

(** C3 fails on a photo whose download rejects.  On an ['error'] event of the
    request [downloadImage] rejects with the message, a string, and the
    [catch] block reads the [message] of that string: undefined.  The status
    write throws on the undefined property, outside the [try] block, and the
    run ends with that write: no record is stored, the photos after this one
    are not looked at and [last_check_ref.set] is never called. *)
Theorem checkpoint_lost_after_download_error
    (env : Env) (v : Variant) (now : Z) (w w1 w2 w3 : World)
    (done rest : list Photo) (photo : Photo) (desc msg : string) :
  list_candidates env v w = (Ok (done ++ photo :: rest), w1) ->
  for_each (process_photo env v) done w1 = (Ok tt, w2) ->
  status_get_fails env w2 (p_id photo) = None ->
  already_published (photo_status w2 !! p_id photo) = false ->
  p_description photo = Some desc ->
  downloadImage env v (p_url_o photo) (after_status_get photo w2)
  = (Throw (Primitive msg), w3) ->
  let st := failed_status (initial_status photo desc) (Primitive msg) in
  let e := undefined_error (p_id photo) "error" in
  publish env v photo desc (after_status_get photo w2) = (Throw (Primitive msg), w3) ∧
  st_error st = ErrUndefined ∧
  (photoUploader env v now w).1 = Throw e ∧
  trace (after_run env v now w) = trace w3 ++ [EvStatusSet (p_id photo) st (Threw e)] ∧
  photo_status (after_run env v now w) = photo_status w2 ∧
  last_check_time (after_run env v now w) = last_check_time w ∧
  ∃ evs, trace (after_run env v now w) = trace w ++ evs ∧ checkpoint_sets evs = [].
Proof.
  intros Hlist Hdone Hget Hpub Hdesc Hdl st e.
  assert (publish env v photo desc (after_status_get photo w2)
          = (Throw (Primitive msg), w3)) as Hattempt.
  { unfold publish, bind at 1. by rewrite Hdl. }
  assert (undefined_property st = Some "error") as Hprop.
  { unfold undefined_property, st. simpl.
    destruct (p_url_o photo) as [u|] eqn:Hurl; [done|].
    discriminate Hdl. }
  assert (process_photo env v photo w2
          = (Throw e, emit (EvStatusSet (p_id photo) st (Threw e)) w3)) as Hbody.
  { rewrite (process_photo_attempts _ _ _ _ _ _ _ Hget Hpub Hdesc Hattempt).
    cbn [status_after]. by apply photo_status_set_undefined. }
  destruct (exception_ends_the_run _ _ now _ _ _ _ _ _ _ _ Hlist Hdone Hbody)
    as (Hrun & Hcheck & Hevs).
  pose proof (stays_downloadImage env v (p_url_o photo) (after_status_get photo w2))
    as (_ & Hstore & _).
  rewrite Hdl in Hstore. simpl in Hstore.
  unfold after_run. rewrite Hrun. simpl.
  split; [exact Hattempt|]. split; [reflexivity|]. split; [reflexivity|].
  split; [reflexivity|]. split; [exact Hstore|]. split; [exact Hcheck|exact Hevs].
Qed.

(** A run that lists photos A and B, in which the request for A's image emits
    ['error']: the run throws at A's status write, B is not looked at and the
    checkpoint stays.  The same run with a failing upload in place of the
    failing download, which throws an [Error], records the failure and writes
    the checkpoint. *)
Lemma checkpoint_lost_after_download_error_witness :
  let env := service [photoA; photoB] ["beach"; "flickr"]
               ["https://live.staticflickr.com/1/A_o.jpg"] [] [] in
  let env' := service [photoA; photoB] ["beach"; "flickr"] [] ["/tmp/A_o.jpg"] [] in
  (publish env IndexTs photoA "At the beach"
     (after_status_get photoA (list_candidates env IndexTs world0).2)).1
  = Throw (Primitive "socket hang up") ∧
  (photoUploader env IndexTs now0 world0).1 = Throw (undefined_error "A" "error") ∧
  status_reads (trace (after_run env IndexTs now0 world0)) = ["A"] ∧
  photo_status (after_run env IndexTs now0 world0) !! "A" = None ∧
  checkpoint_sets (trace (after_run env IndexTs now0 world0)) = [] ∧
  last_check_time (after_run env IndexTs now0 world0) = last_check_time world0 ∧
  (photoUploader env' IndexTs now0 world0).1 = Ok tt ∧
  (st_success <$> photo_status (after_run env' IndexTs now0 world0) !! "A") = Some false ∧
  checkpoint_sets (trace (after_run env' IndexTs now0 world0)) = [1401213600].
Proof.
  intros env env'.
  pose (w1 := (list_candidates env IndexTs world0).2).
  pose (w3 := (downloadImage env IndexTs (p_url_o photoA) (after_status_get photoA w1)).2).
  assert (downloadImage env IndexTs (p_url_o photoA) (after_status_get photoA w1)
          = (Throw (Primitive "socket hang up"), w3)) as Hdl by (vm_compute; reflexivity).
  destruct (checkpoint_lost_after_download_error env IndexTs now0 world0 w1 w1 w3
              [] [photoB] photoA "At the beach" "socket hang up"
              eq_refl eq_refl eq_refl eq_refl eq_refl Hdl)
    as (Hattempt & _ & Hrun & _ & Hstore & Hcheck & _).
  split; [exact (f_equal fst Hattempt)|]. split; [exact Hrun|].
  split; [vm_compute; reflexivity|].
  split; [rewrite Hstore; vm_compute; reflexivity|].
  split; [vm_compute; reflexivity|]. split; [exact Hcheck|].
  split; [vm_compute; reflexivity|]. split; vm_compute; reflexivity.
Defined.

(** ** The temporary file *)

(** When the download succeeds and the upload throws, the [unlink] of the
    [try] block is jumped over and nothing else removes the file. *)
Lemma failed_upload_keeps_file env v photo url desc w :
  status_get_fails env w (p_id photo) = None ->
  already_published (photo_status w !! p_id photo) = false ->
  p_url_o photo = Some url ->
  p_description photo = Some desc ->
  (∀ w', open_fails env w' (destination v url) = None) ->
  (∀ w', https_get env w' url = HttpsResponse) ->
  (∀ w', ∃ e, ghost_images_upload env w' (destination v url) = Threw e) ->
  destination v url ∈ files (process_photo env v photo w).2.
Proof.
  intros Hget Hpub Hurl Hdesc Hopen Hresp Hup.
  set (w1 := emit (EvHttpsGet url HttpsResponse)
               (emit (EvCreateWriteStream (destination v url) (Returned tt))
                  (set_files ({[destination v url]} ∪ files (after_status_get photo w))
                     (after_status_get photo w)))).
  destruct (Hup w1) as [e He].
  assert (publish env v photo desc (after_status_get photo w)
          = (Throw e, emit (EvImagesUpload (destination v url) (Threw e)) w1)) as Hattempt.
  { unfold publish, bind at 1, downloadImage. rewrite Hurl.
    unfold bind at 1, createWriteStream. rewrite Hopen.
    unfold bind at 1, https_request. rewrite Hresp.
    unfold ret at 1, bind at 1, images_upload. fold w1. by rewrite He. }
  rewrite (process_photo_attempts _ _ _ _ _ _ _ Hget Hpub Hdesc Hattempt).
  cbn [status_after].
  match goal with |- context [photo_status_set env ?id ?st ?w0] =>
    destruct (photo_status_set_world env id st w0) as (res & _ & Hf & _) end.
  rewrite Hf. simpl. apply elem_of_union_l. by apply elem_of_singleton.
Qed.

(** C4, on a run whose only photo fails at the upload: the run returns, the
    failure is recorded, and the downloaded file is still on disk. *)
Theorem temp_file_left_after_failed_upload :
  let env := service [photoA] ["beach"; "flickr"] [] ["/tmp/A_o.jpg"] [] in
  (photoUploader env IndexTs now0 world0).1 = Ok tt ∧
  (st_success <$> photo_status (after_run env IndexTs now0 world0) !! "A") = Some false ∧
  files (after_run env IndexTs now0 world0) = {[ "/tmp/A_o.jpg" ]} ∧
  "/tmp/A_o.jpg" ∈ files (after_run env IndexTs now0 world0).
Proof.
  intros env. assert (files (after_run env IndexTs now0 world0) = {[ "/tmp/A_o.jpg" ]})
    as Hfiles by (vm_compute; reflexivity).
  split; [vm_compute; reflexivity|]. split; [vm_compute; reflexivity|].
  split; [exact Hfiles|]. rewrite Hfiles. by apply elem_of_singleton.
Qed.

(** The other paths do remove the file: a request error unlinks it inside
    [downloadImage], and a successful upload is followed by the unlink. *)
Example temp_file_removed_on_other_paths :
  let env := service [photoB] ["beach"; "flickr"]
               ["https://live.staticflickr.com/1/B_o.jpg"] [] [] in
  let env' := service [photoC] ["beach"; "flickr"] [] [] [] in
  trace (after_run env IndexTs now0 world0)
  = [EvLastCheckGet (Returned 1401000000);
     EvGetPhotos 1401000000 (Returned [photoB]);
     EvStatusGet "B" (Returned None);
     EvCreateWriteStream "/tmp/B_o.jpg" (Returned tt);
     EvHttpsGet "https://live.staticflickr.com/1/B_o.jpg" (HttpsError "socket hang up");
     EvUnlink "/tmp/B_o.jpg" (Returned tt);
     EvStatusSet "B"
       (failed_status (initial_status photoB "On the hill") (Primitive "socket hang up"))
       (Threw (undefined_error "B" "error"))] ∧
  files (after_run env IndexTs now0 world0) = ∅ ∧
  (st_success <$> photo_status (after_run env' IndexTs now0 world0) !! "C") = Some true ∧
  files (after_run env' IndexTs now0 world0) = ∅.
Proof. vm_compute. repeat split; reflexivity. Qed.

(** ** The value of the new checkpoint *)

(** Every run writes the checkpoint at most once and only with
    [next_check_time]; a run that returns has written it. *)
Lemma run_checkpoint env v now w :
  ∃ evs, trace (after_run env v now w) = trace w ++ evs ∧
         (checkpoint_sets evs = [] ∧ last_check_time (after_run env v now w) = last_check_time w ∧
          (photoUploader env v now w).1 ≠ Ok tt
          ∨ checkpoint_sets evs = [next_check_time v now]) ∧
         ((photoUploader env v now w).1 = Ok tt ->
          checkpoint_sets evs = [next_check_time v now] ∧
          last_check_time (after_run env v now w) = next_check_time v now).
Proof.
  unfold after_run. rewrite photoUploader_unfold.
  destruct (list_candidates env v w) as [[photos|e|] w1] eqn:Hlist.
  - pose proof (loop_advances env v w photos w1 Hlist) as (Hc & _ & evs & Ht & Hp).
    destruct (for_each (process_photo env v) photos w1) as [[[]|e|] w2]; simpl in *.
    + destruct (last_check_ref_set_trace env (next_check_time v now) w2)
        as (r & Ht2 & _ & _ & Hres).
      exists (evs ++ [EvLastCheckSet (next_check_time v now) r]).
      rewrite Ht2, Ht, <- app_assoc, checkpoint_sets_app, (checkpoint_sets_none evs Hp).
      split; [done|]. split; [by right|]. intros Hok. simpl.
      destruct Hres as [(_ & _ & ?)|[(e & He & _) _]]; [done|congruence].
    + exists evs. rewrite (checkpoint_sets_none evs Hp). split; [done|]. split; [by left|done].
    + exists evs. rewrite (checkpoint_sets_none evs Hp). split; [done|]. split; [by left|done].
  - destruct (list_candidates_continues env v w) as [(Hc & _ & evs & Ht & Hp) _].
    rewrite Hlist in Hc, Ht. simpl in *. exists evs.
    assert (checkpoint_sets evs = []) as ->.
    { apply checkpoint_sets_none. rewrite forallb_forall in *.
      intros ev Hev. by rewrite (read_not_checkpoint ev (Hp ev Hev)). }
    split; [done|]. split; [by left|done].
  - destruct (list_candidates_continues env v w) as [(Hc & _ & evs & Ht & Hp) _].
    rewrite Hlist in Hc, Ht. simpl in *. exists evs.
    assert (checkpoint_sets evs = []) as ->.
    { apply checkpoint_sets_none. rewrite forallb_forall in *.
      intros ev Hev. by rewrite (read_not_checkpoint ev (Hp ev Hev)). }
    split; [done|]. split; [by left|done].
Qed.

(** C5. In index.ts the value written as the new checkpoint is
    [floor((now - 24*60*60*1000) / 1000)], whatever checkpoint the run read:
    no other value is ever passed to [last_check_ref.set], and it is the
    stored checkpoint when the run returns. *)
Theorem safety_margin_checkpoint (env : Env) (now : Z) (w : World) :
  ∃ evs, trace (after_run env IndexTs now w) = trace w ++ evs ∧
         (∀ n, n ∈ checkpoint_sets evs -> n = (now - 24 * 60 * 60 * 1000) / 1000) ∧
         ((photoUploader env IndexTs now w).1 = Ok tt ->
          checkpoint_sets evs = [(now - 24 * 60 * 60 * 1000) / 1000] ∧
          last_check_time (after_run env IndexTs now w)
          = (now - 24 * 60 * 60 * 1000) / 1000).
Proof.
  destruct (run_checkpoint env IndexTs now w) as (evs & Ht & Hsets & Hok).
  exists evs. split; [done|]. split; [|done].
  intros n Hn. destruct Hsets as [(Hnone & _)|Hone].
  - rewrite Hnone in Hn. by apply elem_of_nil in Hn.
  - rewrite Hone in Hn. by apply list_elem_of_singleton in Hn.
Qed.

Lemma safety_margin_checkpoint_witness :
  let env := service [photoA; photoB] ["beach"; "flickr"] [] [] [] in
  (photoUploader env IndexTs now0 world0).1 = Ok tt ∧
  last_check_time (after_run env IndexTs now0 world0) = 1401213600 ∧
  last_check_time (after_run env IndexTs now0 (set_last_check_time 7 world0)) = 1401213600.
Proof.
  intros env.
  destruct (safety_margin_checkpoint env now0 world0) as (evs & _ & _ & Hok).
  destruct (safety_margin_checkpoint env now0 (set_last_check_time 7 world0))
    as (evs' & _ & _ & Hok').
  split; [vm_compute; reflexivity|]. split.
  - apply Hok. vm_compute; reflexivity.
  - apply Hok'. vm_compute; reflexivity.
Defined.

(** ** The two copies disagree on the new checkpoint *)

Lemma next_check_time_agree_iff now :
  next_check_time IndexTs now = next_check_time Part000 now <-> now = -86487.
Proof.
  unfold next_check_time. split.
  - intros H. pose proof (Z.mul_div_le (now - 24 * 60 * 60 * 1000) 1000).
    pose proof (Z.mul_succ_div_gt (now - 24 * 60 * 60 * 1000) 1000). lia.
  - intros ->. reflexivity.
Qed.

(** C9. For one and the same clock reading (any reading from the epoch on),
    the checkpoint that index.ts stores differs from the one that part_000
    stores: seconds of a day earlier against milliseconds of now. *)
Theorem checkpoint_policies_differ (envA envB : Env) (now : Z) (wA wB : World) :
  0 <= now ->
  (photoUploader envA IndexTs now wA).1 = Ok tt ->
  (photoUploader envB Part000 now wB).1 = Ok tt ->
  next_check_time IndexTs now < next_check_time Part000 now ∧
  last_check_time (after_run envB Part000 now wB) = now ∧
  last_check_time (after_run envA IndexTs now wA)
  ≠ last_check_time (after_run envB Part000 now wB).
Proof.
  intros Hnow HA HB.
  destruct (run_checkpoint envA IndexTs now wA) as (evsA & _ & _ & HokA).
  destruct (run_checkpoint envB Part000 now wB) as (evsB & _ & _ & HokB).
  destruct (HokA HA) as [_ EA]. destruct (HokB HB) as [_ EB]. rewrite EA, EB.
  assert (next_check_time IndexTs now < next_check_time Part000 now) as Hlt.
  { unfold next_check_time.
    pose proof (Z.mul_div_le (now - 24 * 60 * 60 * 1000) 1000).
    pose proof (Z.mul_succ_div_gt (now - 24 * 60 * 60 * 1000) 1000). lia. }
  repeat split; [done|lia].
Qed.

Lemma checkpoint_policies_differ_witness :
  let env := service [photoA] ["beach"; "flickr"] [] [] [] in
  last_check_time (after_run env IndexTs now0 world0) = 1401213600 ∧
  last_check_time (after_run env Part000 now0 world0) = 1401300000000 ∧
  last_check_time (after_run env IndexTs now0 world0)
  ≠ last_check_time (after_run env Part000 now0 world0).
Proof.
  intros env.
  destruct (checkpoint_policies_differ env env now0 world0 world0)
    as (_ & _ & Hne); [vm_compute; discriminate|vm_compute; reflexivity..|].
  split; [vm_compute; reflexivity|]. split; [vm_compute; reflexivity|]. exact Hne.
Defined.

(** ** Failures before the loop *)

(** C7. When the checkpoint read fails, or the listing fails, the run ends
    with that exception; the checkpoint, the status records and the files are
    what they were, and the only calls made are reads. *)
Theorem fatal_failures_mutate_nothing (env : Env) (v : Variant) (now : Z)
    (w : World) (e : thrown) :
  last_check_get_fails env w = Some e
  ∨ last_check_get_fails env w = None ∧
    (v = IndexTs -> is_Some (toISOString (last_check_time w * 1000))) ∧
    flickr_getPhotos env (emit (EvLastCheckGet (Returned (last_check_time w))) w)
      (last_check_time w) = Threw e ->
  (photoUploader env v now w).1 = Throw e ∧
  last_check_time (after_run env v now w) = last_check_time w ∧
  photo_status (after_run env v now w) = photo_status w ∧
  files (after_run env v now w) = files w ∧
  ∃ evs, trace (after_run env v now w) = trace w ++ evs ∧
         forallb is_read evs = true ∧ checkpoint_sets evs = [].
Proof.
  intros Hfail.
  assert (∃ w1, list_candidates env v w = (Throw e, w1)) as [w1 Hlist].
  { unfold list_candidates, bind, last_check_ref_get.
    destruct Hfail as [->|(-> & Hlog & Hphotos)]; [by eexists|].
    assert (log_window v (last_check_time w)
              (emit (EvLastCheckGet (Returned (last_check_time w))) w)
            = (Ok tt, emit (EvLastCheckGet (Returned (last_check_time w))) w)) as ->.
    { unfold log_window, bind, date_toISOString. destruct v; [|done].
      by destruct (Hlog eq_refl) as [iso ->]. }
    unfold getPhotos. rewrite Hphotos. by eexists. }
  destruct (list_candidates_continues env v w) as [(Hc & Hs & evs & Ht & Hp) Hf].
  unfold after_run. rewrite photoUploader_unfold, Hlist in *. simpl in *.
  repeat split; [done..|]. exists evs. repeat split; [done..|].
  apply checkpoint_sets_none. rewrite forallb_forall in *.
  intros ev Hev. by rewrite (read_not_checkpoint ev (Hp ev Hev)).
Qed.

Lemma fatal_failures_mutate_nothing_witness :
  (photoUploader listing_down IndexTs now0 world_A_published).1
  = Throw (ErrorObj "getaddrinfo ENOTFOUND api.flickr.com") ∧
  last_check_time (after_run listing_down IndexTs now0 world_A_published) = 1401000000 ∧
  photo_status (after_run listing_down IndexTs now0 world_A_published)
  = photo_status world_A_published.
Proof.
  destruct (fatal_failures_mutate_nothing listing_down IndexTs now0 world_A_published
              (ErrorObj "getaddrinfo ENOTFOUND api.flickr.com"))
    as (Hr & Hc & Hs & _).
  - right. split; [reflexivity|]. split; [|reflexivity].
    intros _. vm_compute. by eexists.
  - split; [exact Hr|]. split; [exact Hc|exact Hs].
Defined.

(** ** What the [try] block does not cover *)

(** C10. The status record is built before the [try] block and written
    after it.  For a photo that is not skipped: if its description is absent,
    building the record throws a [TypeError] before any publish sub-step; if
    the write of the record that the attempt left throws, that exception
    leaves the iteration although the attempt itself had ended, and nothing is
    stored.  In both cases, as for any exception that leaves an iteration, the
    run ends there with that exception: the photos after it are not touched
    and the checkpoint is not written. *)
Theorem status_record_is_outside_try (env : Env) (v : Variant) :
  (∀ photo w,
      status_get_fails env w (p_id photo) = None ->
      already_published (photo_status w !! p_id photo) = false ->
      p_description photo = None ->
      ∃ e, process_photo env v photo w = (Throw e, after_status_get photo w)) ∧
  (∀ photo desc w r w2 st e,
      status_get_fails env w (p_id photo) = None ->
      already_published (photo_status w !! p_id photo) = false ->
      p_description photo = Some desc ->
      publish env v photo desc (after_status_get photo w) = (r, w2) ->
      status_after photo desc r = Some st ->
      (photo_status_set env (p_id photo) st w2).1 = Throw e ->
      process_photo env v photo w
      = (Throw e, emit (EvStatusSet (p_id photo) st (Threw e)) w2) ∧
      photo_status (process_photo env v photo w).2 = photo_status w) ∧
  (∀ now w done photo rest w1 w2 w3 e,
      list_candidates env v w = (Ok (done ++ photo :: rest), w1) ->
      for_each (process_photo env v) done w1 = (Ok tt, w2) ->
      process_photo env v photo w2 = (Throw e, w3) ->
      photoUploader env v now w = (Throw e, w3) ∧
      last_check_time w3 = last_check_time w ∧
      ∃ evs, trace w3 = trace w ++ evs ∧ checkpoint_sets evs = []).
Proof.
  split; [|split].
  - intros photo w Hget Hpub Hdesc.
    rewrite (process_photo_no_description _ _ _ _ Hget Hpub Hdesc). eexists. reflexivity.
  - intros photo desc w r w2 st e Hget Hpub Hdesc Hattempt Hst Hset.
    rewrite (process_photo_attempts _ _ _ _ _ _ _ Hget Hpub Hdesc Hattempt), Hst.
    pose proof (stays_publish env v photo desc (after_status_get photo w)) as Hstay.
    rewrite Hattempt in Hstay. destruct Hstay as (_ & Hs & _). simpl in Hs.
    destruct (photo_status_set_cases env (p_id photo) st w2) as (res & Hw3 & _ & Hres).
    rewrite Hset in Hres. subst res.
    destruct (photo_status_set env (p_id photo) st w2) as [r3 w3].
    simpl in Hset, Hw3. subst r3 w3. by split.
  - intros now w done photo rest w1 w2 w3 e. apply exception_ends_the_run.
Qed.

Lemma status_record_is_outside_try_witness :
  let env := service [photoA; photoD; photoC] ["beach"; "flickr"] [] [] [] in
  let env' := service [photoA; photoC] ["beach"; "flickr"] [] [] ["A"] in
  (photoUploader env IndexTs now0 world0).1
  = Throw (ErrorObj "Cannot read properties of undefined (reading '_content')") ∧
  (st_success <$> photo_status (after_run env IndexTs now0 world0) !! "A") = Some true ∧
  photo_status (after_run env IndexTs now0 world0) !! "C" = None ∧
  last_check_time (after_run env IndexTs now0 world0) = last_check_time world0 ∧
  (photoUploader env' IndexTs now0 world0).1 = Throw (ErrorObj "PERMISSION_DENIED") ∧
  posts_created (trace (after_run env' IndexTs now0 world0))
  = [post_of photoA "At the beach" ["beach"; "flickr"; "sunset"]
       "https://blog.example/content/images/A_o.jpg" "2014-05-27T23:49:27.000Z"] ∧
  photo_status (after_run env' IndexTs now0 world0) !! "A" = None ∧
  status_reads (trace (after_run env' IndexTs now0 world0)) = ["A"] ∧
  last_check_time (after_run env' IndexTs now0 world0) = last_check_time world0.
Proof.
  intros env env'.
  destruct (status_record_is_outside_try env IndexTs) as (Hdesc & _ & Hrun).
  destruct (status_record_is_outside_try env' IndexTs) as (_ & Hwrite & Hrun').
  pose (w1 := (list_candidates env IndexTs world0).2).
  pose (w2 := (for_each (process_photo env IndexTs) [photoA] w1).2).
  destruct (Hdesc photoD w2) as [e Hbody]; [reflexivity..|].
  destruct (Hrun now0 world0 [photoA] photoD [photoC] w1 w2
              (after_status_get photoD w2) e) as (Hr & Hc & _);
    [reflexivity|vm_compute; reflexivity|exact Hbody|].
  assert (e = ErrorObj "Cannot read properties of undefined (reading '_content')") as ->.
  { assert (process_photo env IndexTs photoD w2
            = (Throw (ErrorObj "Cannot read properties of undefined (reading '_content')"),
               after_status_get photoD w2)) as Hc' by (vm_compute; reflexivity).
    congruence. }
  pose (w1' := (list_candidates env' IndexTs world0).2).
  pose (w2' := (publish env' IndexTs photoA "At the beach" (after_status_get photoA w1')).2).
  assert (publish env' IndexTs photoA "At the beach" (after_status_get photoA w1')
          = (Ok tt, w2')) as Hattempt by (vm_compute; reflexivity).
  assert ((photo_status_set env' "A" (initial_status photoA "At the beach") w2').1
          = Throw (ErrorObj "PERMISSION_DENIED")) as Hset by (vm_compute; reflexivity).
  destruct (Hwrite photoA "At the beach" w1' (Ok tt) w2' _ _
              eq_refl eq_refl eq_refl Hattempt eq_refl Hset) as [Hbody' _].
  destruct (Hrun' now0 world0 [] photoA [photoC] w1' w1' _ _ eq_refl eq_refl Hbody')
    as (Hr' & Hc' & _).
  split; [by rewrite Hr|]. split; [vm_compute; reflexivity|].
  split; [vm_compute; reflexivity|].
  split; [unfold after_run; rewrite Hr; exact Hc|].
  split; [by rewrite Hr'|]. split; [vm_compute; reflexivity|].
  split; [vm_compute; reflexivity|]. split; [vm_compute; reflexivity|].
  unfold after_run. rewrite Hr'. exact Hc'.
Defined.

(** ** Tags and the post of a successful attempt *)

Lemma missing_tags_cons tag tags ghostTags :
  missing_tags (tag :: tags) ghostTags
  = if includes ghostTags tag then missing_tags tags ghostTags
    else tag :: missing_tags tags ghostTags.
Proof.
  unfold missing_tags. rewrite filter_cons.
  destruct (includes ghostTags tag); by case_decide.
Qed.

Lemma posts_added_app evs1 evs2 :
  posts_added (evs1 ++ evs2) = posts_added evs1 ++ posts_added evs2.
Proof. apply omap_app. Qed.

Lemma posts_added_tag_add_events names : posts_added (tag_add_events names) = [].
Proof. by induction names. Qed.

Lemma uploads_app evs1 evs2 : uploads (evs1 ++ evs2) = uploads evs1 ++ uploads evs2.
Proof. apply omap_app. Qed.

Lemma uploads_tag_add_events names : uploads (tag_add_events names) = [].
Proof. by induction names. Qed.

Lemma tag_listings_app evs1 evs2 :
  tag_listings (evs1 ++ evs2) = tag_listings evs1 ++ tag_listings evs2.
Proof. apply omap_app. Qed.

Lemma no_tag_events evs :
  forallb (λ e, negb (is_tag_event e)) evs = true ->
  tag_listings evs = [] ∧ filter is_tag_add evs = [].
Proof.
  induction evs as [|e evs IH]; [done|]. simpl.
  intros [He Hevs]%andb_true_iff. destruct (IH Hevs) as [IH1 IH2].
  rewrite filter_cons, IH2. unfold tag_listings in *. simpl. rewrite IH1.
  by destruct e.
Qed.

Lemma tag_add_events_only names :
  tag_listings (tag_add_events names) = [] ∧
  filter is_tag_add (tag_add_events names) = tag_add_events names.
Proof.
  induction names as [|t names [IH1 IH2]]; [done|]. split; [exact IH1|].
  simpl. rewrite filter_cons. simpl. by rewrite IH2.
Qed.

Lemma file_event_not_tag e : is_file_event e = true -> negb (is_tag_event e) = true.
Proof. by destruct e. Qed.

Lemma file_events_no_tag evs :
  forallb is_file_event evs = true -> forallb (λ e, negb (is_tag_event e)) evs = true.
Proof.
  rewrite !forallb_forall. intros H e He. by apply file_event_not_tag, H.
Qed.

(** Calls that are not about tags, before and after, change nothing to the
    matter. *)
Lemma tag_loop_calls_frame tags pre evs post :
  forallb (λ e, negb (is_tag_event e)) pre = true ->
  forallb (λ e, negb (is_tag_event e)) post = true ->
  tag_loop_calls tags evs -> tag_loop_calls tags (pre ++ evs ++ post).
Proof.
  intros [Hl1 Hf1]%no_tag_events [Hl2 Hf2]%no_tag_events. unfold tag_loop_calls.
  rewrite !tag_listings_app, !filter_app, Hl1, Hl2, Hf1, Hf2. simpl.
  by rewrite !app_nil_r.
Qed.

Lemma tag_loop_calls_quiet tags evs :
  forallb (λ e, negb (is_tag_event e)) evs = true -> tag_loop_calls tags evs.
Proof. intros [Hl Hf]%no_tag_events. unfold tag_loop_calls. by rewrite Hl. Qed.

Lemma stays_mono (P Q : Event -> bool) {A} (m : M A) :
  (∀ e, P e = true -> Q e = true) -> stays P m -> stays Q m.
Proof.
  intros HPQ Hm w. destruct (Hm w) as (Hc & Hs & evs & Ht & Hp).
  repeat split; [done..|]. exists evs. split; [done|].
  rewrite forallb_forall in *. intros e He. by apply HPQ, Hp.
Qed.

Section Attempt.
Context (env : Env) (v : Variant).

(** The loop over the tags calls [ghost.tags.add] for the missing tags, in
    list order, and stops at the first call that throws. *)
Lemma create_tags_trace ghostTags tags w :
  ∃ evs, trace (create_tags env ghostTags tags w).2 = trace w ++ evs ∧
         files (create_tags env ghostTags tags w).2 = files w ∧
         tag_adds evs `prefix_of` missing_tags tags ghostTags ∧
         match (create_tags env ghostTags tags w).1 with
         | Ok _ => evs = tag_add_events (missing_tags tags ghostTags)
         | Throw e =>
             ∃ n t, missing_tags tags ghostTags !! n = Some t ∧
                    evs = tag_add_events (take n (missing_tags tags ghostTags))
                          ++ [EvTagsAdd t t (Threw e)]
         | Pending => False
         end.
Proof.
  revert w. induction tags as [|tag rest IH]; intros w; simpl.
  { exists []. by rewrite app_nil_r. }
  rewrite missing_tags_cons. unfold bind.
  destruct (includes ghostTags tag); simpl; [apply IH|].
  unfold tags_add. destruct (ghost_tags_add env w tag) as [e|]; simpl.
  - exists [EvTagsAdd tag tag (Threw e)]. split_and!; [done..| |].
    + apply prefix_cons, prefix_nil.
    + by exists 0%nat, tag.
  - destruct (IH (emit (EvTagsAdd tag tag (Returned tt)) w)) as (evs & Ht & Hf & Hpre & Hres).
    exists (EvTagsAdd tag tag (Returned tt) :: evs). simpl in *.
    rewrite Ht, <- app_assoc. split_and!; [done..| |].
    + by apply prefix_cons.
    + destruct (create_tags env ghostTags rest _).1 as [[]|e|]; [by subst| |done].
      destruct Hres as (n & t & Hn & ->). by exists (S n), t.
Qed.

Lemma file_unlink path : stays is_file_event (unlink env path).
Proof.
  intros w. unfold unlink. destruct (unlink_fails env w path); simpl.
  - by apply continues_emit.
  - repeat split. by eexists [_].
Qed.

Lemma file_downloadImage url : stays is_file_event (downloadImage env v url).
Proof.
  unfold downloadImage. destruct url as [u|]; [|auto with stays].
  apply stays_bind.
  { intros w. unfold createWriteStream. destruct (open_fails env w _); simpl.
    - by apply continues_emit.
    - repeat split. by eexists [_]. }
  intros fileStream. apply stays_bind.
  { intros w. simpl. by apply continues_emit. }
  intros [|msg| |msg]; destruct fileStream; auto with stays.
  apply stays_bind; [|auto with stays]. apply stays_unhandled, file_unlink.
Qed.

(** Download, upload and unlink, the first three sub-steps. *)
Lemma file_steps photo (k : string -> M unit) w r w' :
  (filePath <- downloadImage env v (p_url_o photo) ;;
   imageUpload <- images_upload env filePath ;;
   unlink env filePath ;;
   k imageUpload) w = (r, w') ->
  ∃ pre w1, trace w1 = trace w ++ pre ∧ forallb is_file_event pre = true ∧
            (r ≠ Ok tt ∧ w' = w1 ∨ ∃ image, k image w1 = (r, w')).
Proof.
  unfold bind at 1.
  destruct (file_downloadImage (p_url_o photo) w) as (_ & _ & evs1 & Ht1 & Hp1).
  destruct (downloadImage env v (p_url_o photo) w) as [[filePath|e|] w1]; simpl in Ht1;
    [|intros H; simplify_eq; exists evs1, w'; split_and!; [done..|by left]
     |intros H; simplify_eq; exists evs1, w'; split_and!; [done..|by left]].
  unfold bind at 1, images_upload.
  destruct (ghost_images_upload env w1 filePath) as [image|e] eqn:Hup; simpl.
  2: { intros H. simplify_eq.
       exists (evs1 ++ [EvImagesUpload filePath (Threw e)]),
              (emit (EvImagesUpload filePath (Threw e)) w1). simpl.
       rewrite Ht1, <- app_assoc. split_and!; [done| |by left].
       by rewrite forallb_app, Hp1. }
  unfold bind at 1.
  destruct (file_unlink filePath (emit (EvImagesUpload filePath (Returned image)) w1))
    as (_ & _ & evs3 & Ht3 & Hp3).
  destruct (unlink env filePath _) as [[[]|e|] w3]; simpl in Ht3; intros H;
    exists (evs1 ++ EvImagesUpload filePath (Returned image) :: evs3), w3;
    rewrite Ht3; simpl; rewrite Ht1, <- app_assoc; simpl;
    (split_and!; [by rewrite <- app_assoc|rewrite forallb_app, Hp1; exact Hp3| ]).
  - right. by exists image.
  - left. by simplify_eq.
  - left. by simplify_eq.
Qed.

(** The tag listing, the tag loop and the post: the calls about tags are
    those of the tag loop. *)
Lemma tags_and_post_calls photo desc image w :
  ∃ evs,
    trace ((ghostTags <- tags_browse env ;;
            create_tags env ghostTags (tags_of (p_tags photo)) ;;
            published_at <- date_toISOString (p_dateupload photo * 1000) ;;
            posts_add env (post_of photo desc (tags_of (p_tags photo)) image published_at))
             w).2
    = trace w ++ evs ∧
    tag_loop_calls (tags_of (p_tags photo)) evs.
Proof.
  unfold bind at 1, tags_browse.
  destruct (ghost_tags_browse env w) as [names|e]; simpl.
  2: { by exists [EvTagsBrowse (Threw e)]. }
  unfold bind at 1.
  set (w1 := emit (EvTagsBrowse (Returned names)) w).
  destruct (create_tags_trace names (tags_of (p_tags photo)) w1) as (adds & Ht & _ & _ & Hres).
  destruct (create_tags env names (tags_of (p_tags photo)) w1) as [[[]|e|] w2];
    simpl in Ht, Hres; [| |done].
  - subst adds.
    destruct (tag_add_events_only (missing_tags (tags_of (p_tags photo)) names)) as [Hl Hf].
    unfold bind at 1, date_toISOString.
    destruct (toISOString (p_dateupload photo * 1000)) as [iso|]; simpl.
    + exists (EvTagsBrowse (Returned names)
              :: tag_add_events (missing_tags (tags_of (p_tags photo)) names)
              ++ [EvPostsAdd (post_of photo desc (tags_of (p_tags photo)) image iso)
                    (unit_outcome
                       (ghost_posts_add env w2
                          (post_of photo desc (tags_of (p_tags photo)) image iso)))]).
      split; [by rewrite Ht, <- !app_assoc|].
      unfold tag_loop_calls. simpl. rewrite filter_cons. simpl.
      rewrite tag_listings_app, filter_app, Hl, Hf. simpl. left. by rewrite app_nil_r.
    + exists (EvTagsBrowse (Returned names)
              :: tag_add_events (missing_tags (tags_of (p_tags photo)) names)).
      split; [by rewrite Ht, <- !app_assoc|].
      unfold tag_loop_calls. simpl. rewrite filter_cons. simpl.
      rewrite Hl, Hf. by left.
  - destruct Hres as (n & t & Hn & ->).
    destruct (tag_add_events_only (take n (missing_tags (tags_of (p_tags photo)) names)))
      as [Hl Hf].
    simpl.
    exists (EvTagsBrowse (Returned names)
            :: tag_add_events (take n (missing_tags (tags_of (p_tags photo)) names))
            ++ [EvTagsAdd t t (Threw e)]).
    split; [by rewrite Ht, <- !app_assoc|].
    unfold tag_loop_calls. simpl. rewrite filter_cons. simpl.
    rewrite tag_listings_app, filter_app, Hl, Hf. simpl. right. by exists n, t, e.
Qed.

Lemma publish_tag_calls photo desc w :
  ∃ evs, trace (publish env v photo desc w).2 = trace w ++ evs ∧
         tag_loop_calls (tags_of (p_tags photo)) evs.
Proof.
  destruct (publish env v photo desc w) as [r w'] eqn:Hattempt.
  unfold publish in Hattempt. cbv zeta in Hattempt.
  apply file_steps in Hattempt as (pre & w1 & Ht1 & Hp1 & [[_ ->]|[image Hrest]]).
  - exists pre. split; [done|]. by apply tag_loop_calls_quiet, file_events_no_tag.
  - destruct (tags_and_post_calls photo desc image w1) as (evs & Ht & Hcalls).
    rewrite Hrest in Ht. simpl in Ht.
    exists (pre ++ evs). simpl. rewrite Ht, Ht1, <- app_assoc. split; [done|].
    rewrite <- (app_nil_r evs).
    apply tag_loop_calls_frame; [by apply file_events_no_tag|done..].
Qed.

Lemma downloadImage_ok url w dest w1 :
  downloadImage env v url w = (Ok dest, w1) ->
  ∃ u, url = Some u ∧ dest = destination v u ∧
       trace w1 = trace w ++ [EvCreateWriteStream dest (Returned tt);
                              EvHttpsGet u HttpsResponse] ∧
       files w1 = {[dest]} ∪ files w.
Proof.
  unfold downloadImage. destruct url as [u|]; [|done].
  unfold bind at 1, createWriteStream.
  destruct (open_fails env w (destination v u)) as [e|];
    unfold bind at 1, https_request;
    destruct (https_get env _ u) eqn:Hresp; simpl; try done.
  - intros [= <- <-]. exists u. simpl. rewrite <- app_assoc. by repeat split.
  - unfold bind, unhandled. by destruct (unlink env _ _) as [[[]|e|] w'].
Qed.

(** The calls of an attempt that went through, in order. *)
Lemma publish_ok photo desc w w' :
  publish env v photo desc w = (Ok tt, w') ->
  ∃ url image names iso,
    p_url_o photo = Some url ∧
    toISOString (p_dateupload photo * 1000) = Some iso ∧
    trace w' = trace w
               ++ [EvCreateWriteStream (destination v url) (Returned tt);
                   EvHttpsGet url HttpsResponse;
                   EvImagesUpload (destination v url) (Returned image);
                   EvUnlink (destination v url) (Returned tt);
                   EvTagsBrowse (Returned names)]
               ++ tag_add_events (missing_tags (tags_of (p_tags photo)) names)
               ++ [EvPostsAdd (post_of photo desc (tags_of (p_tags photo)) image iso)
                     (Returned tt)] ∧
    files w' = ({[destination v url]} ∪ files w) ∖ {[destination v url]}.
Proof.
  unfold publish. intros H.
  apply bind_ok_inv in H as (filePath & w1 & Hdl & H).
  apply downloadImage_ok in Hdl as (url & Hurl & -> & Ht1 & Hf1).
  apply bind_ok_inv in H as (image & w2 & Hup & H).
  unfold images_upload in Hup.
  destruct (ghost_images_upload env w1 (destination v url)) as [image'|] eqn:Himage; [|done].
  simpl in Hup. injection Hup as -> <-.
  apply bind_ok_inv in H as ([] & w3 & Hunlink & H).
  unfold unlink in Hunlink. simpl in Hunlink.
  destruct (unlink_fails env _ (destination v url)); [done|].
  injection Hunlink as <-.
  apply bind_ok_inv in H as (names & w4 & Hbrowse & H).
  unfold tags_browse in Hbrowse.
  match type of Hbrowse with context [ghost_tags_browse env ?w0] =>
    destruct (ghost_tags_browse env w0) as [names'|] eqn:Hnames; [|done] end.
  simpl in Hbrowse. injection Hbrowse as -> <-.
  apply bind_ok_inv in H as ([] & w5 & Htags & H).
  match type of Htags with create_tags env ?g ?t ?w0 = _ =>
    destruct (create_tags_trace g t w0) as (evs & Ht5 & Hf5 & _ & Hevs) end.
  rewrite Htags in Ht5, Hf5, Hevs. simpl in Ht5, Hf5, Hevs. rewrite Hevs in Ht5.
  apply bind_ok_inv in H as (iso & w6 & Hiso & H).
  unfold date_toISOString in Hiso.
  destruct (toISOString (p_dateupload photo * 1000)) as [iso'|] eqn:Hdate; [|done].
  injection Hiso as -> <-.
  unfold posts_add in H.
  match type of H with context [ghost_posts_add env ?w0 ?p] =>
    destruct (ghost_posts_add env w0 p); [done|] end.
  simpl in H. injection H as <-. simpl.
  exists url, image, names, iso. split; [done|]. split; [done|]. split.
  - rewrite Ht5. simpl. rewrite Ht1. by rewrite <- !app_assoc.
  - rewrite Hf5. simpl. by rewrite Hf1.
Qed.

(** After the attempt the iteration makes one more call at most, the status
    write. *)
Lemma process_photo_after_attempt photo desc w r w2 :
  status_get_fails env w (p_id photo) = None ->
  already_published (photo_status w !! p_id photo) = false ->
  p_description photo = Some desc ->
  publish env v photo desc (after_status_get photo w) = (r, w2) ->
  ∃ sets, trace (process_photo env v photo w).2 = trace w2 ++ sets ∧
          forallb is_status_set sets = true.
Proof.
  intros Hget Hpub Hdesc Hattempt.
  rewrite (process_photo_attempts _ _ _ _ _ _ _ Hget Hpub Hdesc Hattempt).
  destruct (status_after photo desc r) as [st|].
  - destruct (photo_status_set_world env (p_id photo) st w2) as (res & Ht & _).
    by eexists [_].
  - exists []. by rewrite app_nil_r.
Qed.

Lemma status_sets_no_tag sets :
  forallb is_status_set sets = true ->
  forallb (λ e, negb (is_tag_event e)) sets = true ∧
  uploads sets = [] ∧ posts_added sets = [].
Proof.
  induction sets as [|e sets IH]; [done|]. simpl.
  intros [He Hsets]%andb_true_iff. destruct (IH Hsets) as (IH1 & IH2 & IH3).
  unfold uploads, posts_added in *. simpl. rewrite IH1, IH2, IH3. by destruct e.
Qed.

(** The calls about tags in an iteration, whatever its course. *)
Lemma process_photo_tag_calls photo w :
  ∃ evs, trace (process_photo env v photo w).2 = trace w ++ evs ∧
         tag_loop_calls (tags_of (p_tags photo)) evs.
Proof.
  destruct (process_photo_cases env photo w)
    as [[e Hget]|[Hget [Hpub|[Hpub [Hdesc|[desc Hdesc]]]]]].
  - rewrite (process_photo_read_fails _ _ _ _ _ Hget). by eexists [_].
  - rewrite (process_photo_skips _ _ _ _ Hget Hpub). by eexists [_].
  - rewrite (process_photo_no_description _ _ _ _ Hget Hpub Hdesc). by eexists [_].
  - destruct (publish env v photo desc (after_status_get photo w)) as [r w2] eqn:Hattempt.
    destruct (process_photo_after_attempt _ _ _ _ _ Hget Hpub Hdesc Hattempt)
      as (sets & Ht & Hsets).
    destruct (publish_tag_calls photo desc (after_status_get photo w)) as (evs & Ht2 & Hcalls).
    rewrite Hattempt in Ht2. simpl in Ht2.
    exists ([EvStatusGet (p_id photo) (Returned (photo_status w !! p_id photo))]
            ++ evs ++ sets).
    rewrite Ht, Ht2, <- !app_assoc. split; [done|].
    apply tag_loop_calls_frame; [done| |done].
    by apply status_sets_no_tag.
Qed.
End Attempt.

(** C8. In an iteration that is not skipped and whose sub-steps all succeed,
    whatever becomes of the status write that follows, exactly one post was
    submitted.  It has the photo's title, the description between [<p>] and
    [</p>], the status [published], the tag list of the photo, as feature
    image the URL that the one image upload of the iteration returned, and as
    publication time the ISO rendering of [dateupload * 1000]. *)
Theorem published_post_fields (env : Env) (v : Variant) (photo : Photo)
    (desc : string) (w : World) :
  status_get_fails env w (p_id photo) = None ->
  already_published (photo_status w !! p_id photo) = false ->
  p_description photo = Some desc ->
  (publish env v photo desc (after_status_get photo w)).1 = Ok tt ->
  ∃ image iso evs,
    toISOString (p_dateupload photo * 1000) = Some iso ∧
    trace (process_photo env v photo w).2 = trace w ++ evs ∧
    uploads evs = [image] ∧
    posts_added evs
    = [ {| post_title := p_title photo;
           post_html := ("<p>" ++ desc ++ "</p>")%string;
           post_status := "published";
           post_tags := tags_of (p_tags photo);
           post_feature_image := image;
           post_published_at := iso |} ].
Proof.
  intros Hget Hpub Hdesc Hok.
  destruct (publish env v photo desc (after_status_get photo w)) as [r w2] eqn:Hattempt.
  simpl in Hok. subst r.
  destruct (process_photo_after_attempt env v _ _ _ _ _ Hget Hpub Hdesc Hattempt)
    as (sets & Ht & Hsets).
  destruct (status_sets_no_tag sets Hsets) as (_ & Hu & Hp).
  apply publish_ok in Hattempt as (url & image & names & iso & _ & Hiso & Ht2 & _).
  exists image, iso. eexists. split; [done|]. split.
  { rewrite Ht, Ht2. simpl. rewrite <- !app_assoc. reflexivity. }
  split.
  - simpl. rewrite !uploads_app, uploads_tag_add_events, Hu. reflexivity.
  - simpl. rewrite !posts_added_app, posts_added_tag_add_events, Hp. reflexivity.
Qed.

Lemma published_post_fields_witness :
  let env := service [photoA] ["beach"; "flickr"] [] [] ["A"] in
  (process_photo env IndexTs photoA world0).1 = Throw (ErrorObj "PERMISSION_DENIED") ∧
  posts_added (trace (process_photo env IndexTs photoA world0).2)
  = [ {| post_title := "Beach";
         post_html := "<p>At the beach</p>";
         post_status := "published";
         post_tags := ["beach"; "flickr"; "sunset"];
         post_feature_image := "https://blog.example/content/images/A_o.jpg";
         post_published_at := "2014-05-27T23:49:27.000Z" |} ].
Proof.
  intros env.
  assert ((publish env IndexTs photoA "At the beach" (after_status_get photoA world0)).1
          = Ok tt) as Hok by (vm_compute; reflexivity).
  destruct (published_post_fields env IndexTs photoA "At the beach" world0
              eq_refl eq_refl eq_refl Hok)
    as (image & iso & evs & Hiso & Ht & Hup & Hposts).
  split; vm_compute; reflexivity.
Defined.

(** ** The tag list *)

(** C6, as amended.  The tag list of a photo is the sorted rearrangement of
    the pieces that cutting its tag string at every single space gives,
    followed by ["flickr"]: empty pieces and repetitions stay in.  In an
    iteration, no tag is created before the tag listing has returned; from
    then on [ghost.tags.add] is called for the elements of that list which
    the listing does not include, in list order and with their repetitions,
    up to the first call that throws.  When all sub-steps succeed these calls
    are all made and the post carries that list. *)
Theorem tag_list_is_sorted_pieces (env : Env) (v : Variant) (photo : Photo) :
  Sorted str_le (tags_of (p_tags photo)) ∧
  tags_of (p_tags photo) ≡ₚ split " " (p_tags photo) ++ ["flickr"] ∧
  (∀ w, ∃ evs, trace (process_photo env v photo w).2 = trace w ++ evs ∧
               tag_loop_calls (tags_of (p_tags photo)) evs) ∧
  (∀ w desc,
      status_get_fails env w (p_id photo) = None ->
      already_published (photo_status w !! p_id photo) = false ->
      p_description photo = Some desc ->
      (publish env v photo desc (after_status_get photo w)).1 = Ok tt ->
      ∃ names evs,
        trace (process_photo env v photo w).2 = trace w ++ evs ∧
        tag_listings evs = [names] ∧
        filter is_tag_add evs
        = tag_add_events (missing_tags (tags_of (p_tags photo)) names) ∧
        post_tags <$> posts_added evs = [tags_of (p_tags photo)]).
Proof.
  split; [apply tags_of_sorted|]. split; [apply tags_of_permutation|]. split.
  - intros w. apply process_photo_tag_calls.
  - intros w desc Hget Hpub Hdesc Hok.
    destruct (publish env v photo desc (after_status_get photo w)) as [r w2] eqn:Hattempt.
    simpl in Hok. subst r.
    destruct (process_photo_after_attempt env v _ _ _ _ _ Hget Hpub Hdesc Hattempt)
      as (sets & Ht & Hsets).
    destruct (status_sets_no_tag sets Hsets) as (Hquiet & _ & Hp).
    destruct (no_tag_events sets Hquiet) as [Hl Hf].
    apply publish_ok in Hattempt as (url & image & names & iso & _ & _ & Ht2 & _).
    destruct (tag_add_events_only (missing_tags (tags_of (p_tags photo)) names))
      as [Hl' Hf'].
    exists names. eexists. split.
    { rewrite Ht, Ht2. simpl. rewrite <- !app_assoc. reflexivity. }
    split; [|split].
    + simpl. rewrite !tag_listings_app, Hl, Hl'. reflexivity.
    + simpl. repeat (rewrite filter_cons; simpl).
      rewrite !filter_app, Hf, Hf', filter_cons, filter_nil. simpl.
      by rewrite !app_nil_r.
    + simpl. rewrite !posts_added_app, posts_added_tag_add_events, Hp. reflexivity.
Qed.

Lemma tag_list_is_sorted_pieces_witness :
  let env := service [photoA] ["beach"; "flickr"] [] [] [] in
  tags_of "beach sunset" = ["beach"; "flickr"; "sunset"] ∧
  ∃ evs,
    trace (process_photo env IndexTs photoA world0).2 = trace world0 ++ evs ∧
    tag_listings evs = [["beach"; "flickr"]] ∧
    filter is_tag_add evs = tag_add_events ["sunset"] ∧
    post_tags <$> posts_added evs = [["beach"; "flickr"; "sunset"]].
Proof.
  intros env. split; [reflexivity|].
  destruct (tag_list_is_sorted_pieces env IndexTs photoA) as (_ & _ & _ & Hok).
  assert ((publish env IndexTs photoA "At the beach" (after_status_get photoA world0)).1
          = Ok tt) as Hpublish by (vm_compute; reflexivity).
  destruct (Hok world0 "At the beach" eq_refl eq_refl eq_refl Hpublish)
    as (names & evs & Ht & Hl & Hadds & Hposts).
  assert (tag_listings (trace (process_photo env IndexTs photoA world0).2)
          = [["beach"; "flickr"]]) as Hlisted by (vm_compute; reflexivity).
  rewrite Ht, tag_listings_app, Hl in Hlisted. simpl in Hlisted.
  injection Hlisted as ->.
  exists evs. split; [exact Ht|]. split; [exact Hl|]. split; [exact Hadds|exact Hposts].
Defined.

(** The tag list is not the set of whitespace-separated tokens.  A photo
    without tags gets the empty tag: on a Ghost that lists [flickr],
    [ghost.tags.add] is called for the empty name.  A photo tagged [flickr]
    gets that tag twice: on a Ghost that has no tag yet it is created twice in
    the same iteration, and the post carries it twice. *)
Lemma tag_list_counterexample :
  let env := service [photoB] ["flickr"] [] [] [] in
  let env' := service [photoC] [] [] [] [] in
  tag_set_as_specified "" = ["flickr"] ∧
  tags_of "" = [""; "flickr"] ∧
  tag_adds (trace (after_run env IndexTs now0 world0)) = [""] ∧
  tag_set_as_specified "flickr" = ["flickr"] ∧
  tags_of "flickr" = ["flickr"; "flickr"] ∧
  tag_adds (trace (after_run env' IndexTs now0 world0)) = ["flickr"; "flickr"] ∧
  post_tags <$> posts_added (trace (after_run env' IndexTs now0 world0))
  = [["flickr"; "flickr"]].
Proof. vm_compute. repeat split; reflexivity. Qed.

(** * Further properties *)

(** ** [paramsSerializer] *)

Lemma string_forall_app P s t :
  string_forall P (s ++ t)%string = string_forall P s && string_forall P t.
Proof. induction s as [|c s IH]; [done|]. simpl. by rewrite IH, andb_assoc. Qed.

Lemma string_forall_impl (P Q : ascii -> bool) s :
  (∀ c, P c = true -> Q c = true) -> string_forall P s = true -> string_forall Q s = true.
Proof.
  intros HPQ. induction s as [|c s IH]; [done|]. simpl.
  intros [Hc Hs]%andb_true_iff. by rewrite (HPQ c Hc), IH.
Qed.

Lemma encode_unit_alphabet c :
  string_forall (λ d, unreserved d || Ascii.eqb d "%") (encode_unit c) = true.
Proof. destruct c as [[|] [|] [|] [|] [|] [|] [|] [|]]; reflexivity. Qed.

Lemma encodeURIComponent_alphabet s :
  string_forall (λ d, unreserved d || Ascii.eqb d "%") (encodeURIComponent s) = true.
Proof.
  induction s as [|c s IH]; [done|]. simpl.
  by rewrite string_forall_app, encode_unit_alphabet, IH.
Qed.

Lemma decode_encode_unit c s :
  decode_component (encode_unit c ++ s) = String c (decode_component s).
Proof. destruct c as [[|] [|] [|] [|] [|] [|] [|] [|]]; reflexivity. Qed.

Lemma decode_encodeURIComponent s : decode_component (encodeURIComponent s) = s.
Proof.
  induction s as [|c s IH]; [done|]. simpl. by rewrite decode_encode_unit, IH.
Qed.

Lemma encodeURIComponent_inj s t :
  encodeURIComponent s = encodeURIComponent t -> s = t.
Proof.
  intros H. by rewrite <- (decode_encodeURIComponent s), H, decode_encodeURIComponent.
Qed.

Lemma reduce_parts (parameters : list (string * ParamValue)) (acc : list string) :
  fold_left (λ parts '(key, v), parts ++ [(key ++ "=" ++ param_value v)%string])
    parameters acc
  = acc ++ map serialized_pair parameters.
Proof.
  revert acc. induction parameters as [|[key v] l IH]; intros acc; simpl.
  - by rewrite app_nil_r.
  - by rewrite IH, <- app_assoc.
Qed.

Lemma paramsSerializer_join parameters :
  paramsSerializer parameters = join "&" (map serialized_pair parameters).
Proof. unfold paramsSerializer. by rewrite reduce_parts. Qed.

Lemma split_lacks sep s : lacks sep s = true -> split sep s = [s].
Proof.
  unfold split, lacks. induction s as [|c s IH]; [done|]. simpl.
  intros [Hc Hs]%andb_true_iff. apply negb_true_iff in Hc. rewrite Hc.
  by rewrite (IH Hs).
Qed.

Lemma split_app_sep sep s t :
  lacks sep s = true ->
  split sep (s ++ String sep t) = s :: split sep t.
Proof.
  unfold split, lacks. induction s as [|c s IH]; simpl.
  - intros _. by rewrite Ascii.eqb_refl.
  - intros [Hc Hs]%andb_true_iff. apply negb_true_iff in Hc. rewrite Hc.
    by rewrite (IH Hs).
Qed.

Lemma split_join sep (l : list string) :
  l ≠ [] -> Forall (λ piece, lacks sep piece = true) l ->
  split sep (join (String sep "") l) = l.
Proof.
  unfold join. induction l as [|piece l IH]; [done|]. intros _ Hl.
  apply Forall_cons in Hl as [Hpiece Hl].
  destruct l as [|piece' l]; simpl.
  - by apply split_lacks.
  - change (split sep (piece ++ String sep (String.concat (String sep "") (piece' :: l)))
            = piece :: piece' :: l).
    rewrite (split_app_sep _ _ _ Hpiece). f_equal. by apply IH.
Qed.

Lemma param_value_lacks c v :
  unreserved c = false -> c ≠ "%"%char -> lacks c (param_value v) = true.
Proof.
  intros Hc Hpct. unfold lacks, param_value.
  eapply string_forall_impl, encodeURIComponent_alphabet.
  intros d Hd. apply negb_true_iff, Ascii.eqb_neq. intros ->.
  rewrite Hc in Hd. simpl in Hd. by apply Ascii.eqb_eq in Hd.
Qed.

Lemma serialized_pair_lacks_amp kv :
  lacks "&" kv.1 = true -> lacks "&" (serialized_pair kv) = true.
Proof.
  intros Hk. pose proof (param_value_lacks "&" kv.2 eq_refl) as Hv.
  unfold lacks, serialized_pair in *.
  rewrite !string_forall_app, Hk, Hv; done.
Qed.

Lemma cut_at_equals k k' e e' :
  lacks "=" k = true -> lacks "=" k' = true ->
  (k ++ String "=" e)%string = (k' ++ String "=" e')%string -> k = k' ∧ e = e'.
Proof.
  unfold lacks. revert k'. induction k as [|c k IH]; intros [|c' k']; simpl.
  - intros _ _ [= ->]. done.
  - intros _ [Hc _]%andb_true_iff [= <- _]. done.
  - intros [Hc _]%andb_true_iff _ [= -> _]. done.
  - intros [_ Hk]%andb_true_iff [_ Hk']%andb_true_iff [= -> H].
    destruct (IH k' Hk Hk' H) as [-> ->]. done.
Qed.

(** X1. A query string of parameters whose keys contain no [&] splits at its
    [&] into exactly one part per parameter, in key order, each part being the
    key, [=] and the encoded value; the encoded values contain neither [&] nor
    [=], whatever the values are. *)
Theorem paramsSerializer_pieces (parameters : list (string * ParamValue)) :
  parameters ≠ [] ->
  (∀ kv, kv ∈ parameters -> lacks "&" kv.1 = true) ->
  split "&" (paramsSerializer parameters)
  = map (λ kv, (kv.1 ++ "=" ++ encodeURIComponent (normal_form kv).2)%string) parameters
  ∧ Forall (λ kv, lacks "&" (encodeURIComponent (normal_form kv).2) = true
                  ∧ lacks "=" (encodeURIComponent (normal_form kv).2) = true) parameters.
Proof.
  intros Hne Hkeys. split.
  - rewrite paramsSerializer_join. apply split_join.
    + by destruct parameters.
    + apply Forall_map, Forall_forall. intros kv Hin.
      apply serialized_pair_lacks_amp, Hkeys, Hin.
  - apply Forall_forall. intros kv _. split.
    + by apply (param_value_lacks "&" kv.2).
    + by apply (param_value_lacks "=" kv.2).
Qed.

(** The query string is a function of the keys and the comma-joined
    values. *)
Lemma paramsSerializer_normal_form ps :
  paramsSerializer ps
  = join "&" (map (λ nf, (nf.1 ++ "=" ++ encodeURIComponent nf.2)%string)
                (map normal_form ps)).
Proof. rewrite paramsSerializer_join, map_map. reflexivity. Qed.

(** X2. Two objects whose keys contain neither [&] nor [=] give the same
    query string exactly when they have the same keys, in the same order,
    with the same comma-joined values: the serializer tells apart all that
    the join tells apart, and nothing more. *)
Theorem paramsSerializer_injective (ps ps' : list (string * ParamValue)) :
  (∀ kv, kv ∈ ps -> lacks "&" kv.1 = true ∧ lacks "=" kv.1 = true) ->
  (∀ kv, kv ∈ ps' -> lacks "&" kv.1 = true ∧ lacks "=" kv.1 = true) ->
  (paramsSerializer ps = paramsSerializer ps'
   <-> map normal_form ps = map normal_form ps').
Proof.
  intros Hps Hps'. split.
  2: { intros Hnf. by rewrite !paramsSerializer_normal_form, Hnf. }
  intros Heq.
  assert (∀ l : list (string * ParamValue), l ≠ [] -> paramsSerializer l ≠ "") as Hnonempty.
  { intros [|[k v] l] Hl; [done|]. rewrite paramsSerializer_join. unfold join. simpl.
    destruct l; unfold serialized_pair; simpl; by destruct k. }
  assert (map serialized_pair ps = map serialized_pair ps') as Hpairs.
  { destruct ps as [|kv ps], ps' as [|kv' ps']; [done| | |].
    - exfalso. by apply (Hnonempty (kv' :: ps')).
    - exfalso. by apply (Hnonempty (kv :: ps)).
    - rewrite !paramsSerializer_join in Heq.
      rewrite <- (split_join "&" (map serialized_pair (kv :: ps))),
              <- (split_join "&" (map serialized_pair (kv' :: ps'))); [by rewrite Heq|done| |done|].
      + apply Forall_map, Forall_forall. intros x Hx. apply serialized_pair_lacks_amp, Hps', Hx.
      + apply Forall_map, Forall_forall. intros x Hx. apply serialized_pair_lacks_amp, Hps, Hx. }
  clear Heq Hnonempty. revert ps' Hps' Hpairs.
  induction ps as [|kv ps IH]; intros [|kv' ps'] Hps' Hpairs; try done.
  simpl in Hpairs. injection Hpairs as Hpair Hrest. simpl. f_equal.
  - destruct (cut_at_equals kv.1 kv'.1 (param_value kv.2) (param_value kv'.2)) as [Hk Hv].
    + apply Hps. by left.
    + apply Hps'. by left.
    + exact Hpair.
    + unfold normal_form. rewrite Hk. f_equal. by apply encodeURIComponent_inj.
  - apply IH; [|intros x Hx; apply Hps'; by right|done].
    intros x Hx. apply Hps. by right.
Qed.

Lemma paramsSerializer_pieces_witness :
  split "&" (paramsSerializer [("limit", PScalar (SNumber 10000 eq_refl));
                               ("filter", PScalar (SString "tag:a&b=c"));
                               ("include", PArray [SString "tags"; SString "authors"])])
  = ["limit=10000"; "filter=tag%3Aa%26b%3Dc"; "include=tags%2Cauthors"].
Proof.
  destruct (paramsSerializer_pieces
              [("limit", PScalar (SNumber 10000 eq_refl));
               ("filter", PScalar (SString "tag:a&b=c"));
               ("include", PArray [SString "tags"; SString "authors"])]) as [Hpieces _].
  - discriminate.
  - intros kv Hin. apply list_elem_of_In in Hin. simpl in Hin.
    destruct Hin as [<-|[<-|[<-|[]]]]; reflexivity.
  - rewrite Hpieces. reflexivity.
Defined.

Lemma paramsSerializer_injective_witness :
  paramsSerializer [("fields", PArray [SString "a"; SString "b"]); ("page", PScalar (SNumber 1 eq_refl))]
  = paramsSerializer [("fields", PScalar (SString "a,b")); ("page", PScalar (SString "1"))] ∧
  paramsSerializer [("filter", PScalar SNull)] = paramsSerializer [("filter", PArray [])] ∧
  paramsSerializer [("filter", PScalar SUndefined)] = paramsSerializer [("filter", PScalar (SString ""))] ∧
  paramsSerializer [("page", PScalar (SNumber 1 eq_refl))]
  ≠ paramsSerializer [("page", PScalar (SNumber 2 eq_refl))].
Proof.
  assert (∀ (k : string) (v : ParamValue), k = "fields" ∨ k = "page" ∨ k = "filter" ->
                 ∀ kv, kv ∈ [(k, v)] -> lacks "&" kv.1 = true ∧ lacks "=" kv.1 = true)
    as Hone.
  { intros k v Hk kv Hin. apply list_elem_of_singleton in Hin. subst kv. simpl.
    destruct Hk as [->|[->| ->]]; split; reflexivity. }
  assert (∀ (k : string) (v : ParamValue) (k' : string) (v' : ParamValue),
                       (k = "fields" ∨ k = "page" ∨ k = "filter") ->
                       (k' = "fields" ∨ k' = "page" ∨ k' = "filter") ->
                       ∀ kv, kv ∈ [(k, v); (k', v')] ->
                             lacks "&" kv.1 = true ∧ lacks "=" kv.1 = true)
    as Htwo.
  { intros k v k' v' Hk Hk' kv Hin. apply elem_of_cons in Hin as [->|Hin].
    - by apply (Hone k v Hk), list_elem_of_singleton.
    - by apply (Hone k' v' Hk'). }
  split; [|split; [|split]].
  - apply paramsSerializer_injective; [apply Htwo; auto..|reflexivity].
  - apply paramsSerializer_injective; [apply Hone; auto..|reflexivity].
  - apply paramsSerializer_injective; [apply Hone; auto..|reflexivity].
  - intros Heq. apply paramsSerializer_injective in Heq; [discriminate|apply Hone; auto..].
Defined.

(** ** Files added and removed *)

Lemma remove_added (d : string) (X : gset string) : ({[d]} ∪ X) ∖ {[d]} = X ∖ {[d]}.
Proof.
  apply set_eq. intros x.
  rewrite !elem_of_difference, elem_of_union, elem_of_singleton. tauto.
Qed.

Lemma not_in_removed (d : string) (X : gset string) : d ∉ X ∖ {[d]}.
Proof. rewrite elem_of_difference, elem_of_singleton. tauto. Qed.

Lemma in_added (d : string) (X : gset string) : d ∈ {[d]} ∪ X.
Proof. apply elem_of_union_l. by apply elem_of_singleton. Qed.

Lemma other_in_added (p d : string) (X : gset string) :
  p ≠ d -> (p ∈ {[d]} ∪ X <-> p ∈ X).
Proof. intros Hne. rewrite elem_of_union, elem_of_singleton. tauto. Qed.

Lemma other_in_removed (p d : string) (X : gset string) :
  p ≠ d -> (p ∈ X ∖ {[d]} <-> p ∈ X).
Proof. intros Hne. rewrite elem_of_difference, elem_of_singleton. tauto. Qed.

(** ** Relations kept along a computation *)

Lemma respects_ret R `{!Reflexive R} {A} (a : A) : respects R (ret a).
Proof. intros w. simpl. reflexivity. Qed.

Lemma respects_bind R `{!Transitive R} {A B} (m : M A) (k : A -> M B) :
  respects R m -> (∀ a, respects R (k a)) -> respects R (bind m k).
Proof.
  intros Hm Hk w. unfold bind. specialize (Hm w).
  destruct (m w) as [[a|e|] w1]; simpl in *; [|done..].
  etransitivity; [done|]. apply Hk.
Qed.

Lemma respects_for_each R `{!PreOrder R} {A} (body : A -> M unit) (l : list A) :
  (∀ x, respects R (body x)) -> respects R (for_each body l).
Proof.
  intros Hbody. induction l as [|x l IH]; simpl.
  - intros w. simpl. reflexivity.
  - apply respects_bind; [apply _|apply Hbody|done].
Qed.

#[global] Instance same_files_preorder : PreOrder same_files.
Proof. split; [by intros w|]. intros w1 w2 w3. unfold same_files. congruence. Qed.

Lemma same_files_create_tags env ghostTags tags :
  respects same_files (create_tags env ghostTags tags).
Proof.
  intros w. destruct (create_tags_trace env ghostTags tags w) as (_ & _ & Hf & _).
  exact Hf.
Qed.

(** What follows the unlink in the [try] block leaves the files alone. *)
Lemma same_files_after_unlink env photo desc image w :
  files ((ghostTags <- tags_browse env ;;
          create_tags env ghostTags (tags_of (p_tags photo)) ;;
          published_at <- date_toISOString (p_dateupload photo * 1000) ;;
          posts_add env (post_of photo desc (tags_of (p_tags photo)) image published_at))%js
           w).2
  = files w.
Proof.
  revert w. apply (respects_bind same_files); [by intros w|intros ghostTags].
  apply (respects_bind same_files); [apply same_files_create_tags|intros _].
  apply (respects_bind same_files); [|by intros iso w].
  intros w. unfold date_toISOString. by destruct (toISOString _).
Qed.

(** ** [downloadImage], outcome by outcome *)

(** The calls of [downloadImage] on a URL, with the result and the files they
    lead to: the stream [o], the request [h], and the unlink of the error
    handler in [rest]. *)
Lemma downloadImage_calls env v u w r w' :
  downloadImage env v (Some u) w = (r, w') ->
  ∃ o h rest,
    trace w' = trace w ++ EvCreateWriteStream (destination v u) o
                          :: EvHttpsGet u h :: rest ∧
    match o, h with
    | _, HttpsThrows msg =>
        r = Throw (ErrorObj msg) ∧ rest = [] ∧
        files w' = match o with
                   | Returned _ => {[destination v u]} ∪ files w
                   | Threw _ => files w
                   end
    | Threw _, _ => r = Pending ∧ rest = [] ∧ files w' = files w
    | Returned _, HttpsResponse =>
        r = Ok (destination v u) ∧ rest = [] ∧
        files w' = {[destination v u]} ∪ files w
    | Returned _, HttpsStall =>
        r = Pending ∧ rest = [] ∧ files w' = {[destination v u]} ∪ files w
    | Returned _, HttpsError msg =>
        r = Throw (Primitive msg) ∧
        rest = [EvUnlink (destination v u) (Returned tt)] ∧
        files w' = files w ∖ {[destination v u]}
        ∨ r = Pending ∧
          (∃ e, rest = [EvUnlink (destination v u) (Threw e)]) ∧
          files w' = {[destination v u]} ∪ files w
    end.
Proof.
  unfold downloadImage, bind at 1, createWriteStream.
  destruct (open_fails env w (destination v u)) as [e|];
    unfold bind at 1, https_request;
    match goal with |- context [https_get env ?w0 u] =>
      destruct (https_get env w0 u) as [|msg| |msg] end;
    unfold ret, never, throw; try (intros H; simplify_eq; simpl;
      eexists _, _, []; rewrite <- app_assoc; (split; [reflexivity|]); done).
  unfold bind, unhandled, unlink.
  destruct (unlink_fails env _ (destination v u)) as [e|]; simpl;
    intros H; simplify_eq; simpl; eexists _, _, [_]; rewrite <- !app_assoc;
    (split; [reflexivity|]).
  - right. split_and!; [done|by eexists|done].
  - left. split_and!; [done..|]. apply remove_added.
Qed.

Lemma downloadImage_outcome env v u w r w' :
  downloadImage env v (Some u) w = (r, w') ->
  match r with
  | Ok path => path = destination v u ∧ files w' = {[destination v u]} ∪ files w
  | Throw (Primitive _) => files w' = files w ∖ {[destination v u]}
  | Throw (ErrorObj _) | Pending =>
      files w' = {[destination v u]} ∪ files w ∨ files w' = files w
  end.
Proof.
  intros (o & h & rest & _ & Hcase)%downloadImage_calls.
  destruct o as [[]|e], h as [|msg| |msg]; try destruct Hcase as [Hcase|Hcase];
    destruct Hcase as (-> & _ & Hf); auto.
Qed.

(** ** The files after an attempt *)

Lemma publish_files env v photo desc w r w' :
  publish env v photo desc w = (r, w') ->
  match p_url_o photo with
  | None => files w' = files w
  | Some u =>
      files w' = {[destination v u]} ∪ files w
      ∨ files w' = files w ∖ {[destination v u]}
      ∨ files w' = files w
  end.
Proof.
  unfold publish. destruct (p_url_o photo) as [u|] eqn:Hurl.
  2: { unfold bind at 1, downloadImage, throw. intros H. by simplify_eq. }
  unfold bind at 1.
  destruct (downloadImage env v (Some u) w) as [r1 w1] eqn:Hdl.
  apply downloadImage_outcome in Hdl. destruct r1 as [path|e|].
  - destruct Hdl as [-> Hf1]. unfold bind at 1, images_upload.
    destruct (ghost_images_upload env w1 (destination v u)) as [image|e]; simpl.
    2: { intros H. simplify_eq. by left. }
    unfold bind at 1, unlink.
    destruct (unlink_fails env _ (destination v u)); simpl.
    { intros H. simplify_eq. by left. }
    intros H. right. left.
    match type of H with ?m ?w0 = _ =>
      pose proof (same_files_after_unlink env photo desc image w0) as Hf2 end.
    cbv zeta in H. rewrite H in Hf2. simpl in Hf2. rewrite Hf2. simpl. rewrite Hf1.
    apply remove_added.
  - intros H. simplify_eq. destruct e; [destruct Hdl; auto|auto].
  - intros H. simplify_eq. destruct Hdl; auto.
Qed.

(** ** At most one post per attempt, and none behind a failure *)

Lemma pre_post_events_no_post evs :
  forallb is_pre_post_event evs = true -> posts_added evs = [] ∧ posts_created evs = [].
Proof.
  induction evs as [|e evs IH]; [done|]. simpl.
  intros [He Hevs]%andb_true_iff. destruct (IH Hevs) as [IH1 IH2].
  unfold posts_added, posts_created in *. simpl. rewrite IH1, IH2. by destruct e.
Qed.

Lemma posts_created_app evs1 evs2 :
  posts_created (evs1 ++ evs2) = posts_created evs1 ++ posts_created evs2.
Proof. apply omap_app. Qed.

Lemma one_post_bind {A} (m : M A) (k : A -> M unit) :
  stays is_pre_post_event m -> (∀ a, one_post (k a)) -> one_post (bind m k).
Proof.
  intros Hm Hk w. unfold bind. destruct (Hm w) as (_ & _ & evs0 & Ht0 & Hp0).
  destruct (pre_post_events_no_post evs0 Hp0) as [Hadd0 Hcre0].
  destruct (m w) as [[a|e|] w1]; simpl in *.
  - destruct (Hk a w1) as (evs1 & Ht1 & Hlen & Hfail).
    exists (evs0 ++ evs1). rewrite Ht1, Ht0, <- app_assoc.
    rewrite posts_added_app, posts_created_app, Hadd0, Hcre0. done.
  - exists evs0. rewrite Hadd0, Hcre0. simpl. split; [done|]. split; [lia|done].
  - exists evs0. rewrite Hadd0, Hcre0. simpl. split; [done|]. split; [lia|done].
Qed.

Section PrePost.
Context (env : Env).

Lemma file_event_pre_post e : is_file_event e = true -> is_pre_post_event e = true.
Proof. by destruct e. Qed.

Lemma pre_post_unlink path : stays is_pre_post_event (unlink env path).
Proof. eapply stays_mono, file_unlink. apply file_event_pre_post. Qed.

Lemma pre_post_downloadImage v url : stays is_pre_post_event (downloadImage env v url).
Proof. eapply stays_mono, file_downloadImage. apply file_event_pre_post. Qed.

Lemma pre_post_create_tags ghostTags tags :
  stays is_pre_post_event (create_tags env ghostTags tags).
Proof.
  induction tags as [|tag rest IH]; simpl; [auto with stays|].
  apply stays_bind; [|done].
  destruct (includes ghostTags tag); [auto with stays|].
  intros w. simpl. by apply continues_emit.
Qed.

Lemma one_post_posts_add post : one_post (posts_add env post).
Proof.
  intros w. unfold posts_add. eexists [_]. simpl. split; [done|]. split; [done|].
  by destruct (ghost_posts_add env w post).
Qed.

Lemma one_post_publish v photo desc : one_post (publish env v photo desc).
Proof.
  unfold publish.
  apply one_post_bind; [apply pre_post_downloadImage|intros filePath].
  apply one_post_bind; [intros w; simpl; by apply continues_emit|intros imageUpload].
  apply one_post_bind; [apply pre_post_unlink|intros _].
  apply one_post_bind; [intros w; simpl; by apply continues_emit|intros ghostTags].
  apply one_post_bind; [apply pre_post_create_tags|intros _].
  apply one_post_bind; [apply stays_date_toISOString|intros published_at].
  apply one_post_posts_add.
Qed.
End PrePost.

(** ** The events and the records of one iteration *)

Lemma failed_status_mirrors photo desc e :
  p_description photo = Some desc ->
  mirrors photo (failed_status (initial_status photo desc) e).
Proof.
  intros Hdesc. unfold mirrors. simpl. split_and!; try done.
  split; [done|]. by destruct e.
Qed.

Lemma initial_status_mirrors photo desc :
  p_description photo = Some desc -> mirrors photo (initial_status photo desc).
Proof. intros Hdesc. unfold mirrors. simpl. by split_and!. Qed.

Lemma posts_created_le_added evs :
  (length (posts_created evs) ≤ length (posts_added evs))%nat.
Proof.
  induction evs as [|e evs IH]; [done|].
  change (e :: evs) with ([e] ++ evs).
  rewrite posts_created_app, posts_added_app, !length_app.
  destruct e as [| | | | | | | | |post [|]| |]; simpl; lia.
Qed.

Section IterationShape.
Context (env : Env) (v : Variant).

Ltac read_only_block :=
  eexists; split; [reflexivity|]; eexists _, [], [];
  split; [reflexivity|]; split; [reflexivity|]; split; [simpl; lia|]; by left.

Lemma process_photo_events photo w r w' :
  process_photo env v photo w = (r, w') ->
  ∃ evs, trace w' = trace w ++ evs ∧ iteration_events photo evs.
Proof.
  intros Hbody.
  destruct (process_photo_cases env photo w)
    as [[e Hget]|[Hget [Hpub|[Hpub [Hdesc|[desc Hdesc]]]]]].
  - rewrite (process_photo_read_fails _ _ _ _ _ Hget) in Hbody. simplify_eq.
    read_only_block.
  - rewrite (process_photo_skips _ _ _ _ Hget Hpub) in Hbody. simplify_eq.
    read_only_block.
  - rewrite (process_photo_no_description _ _ _ _ Hget Hpub Hdesc) in Hbody. simplify_eq.
    read_only_block.
  - destruct (publish env v photo desc (after_status_get photo w)) as [r2 w2] eqn:Hattempt.
    rewrite (process_photo_attempts _ _ _ _ _ _ _ Hget Hpub Hdesc Hattempt) in Hbody.
    pose proof (stays_publish env v photo desc (after_status_get photo w)) as Hstay.
    destruct (one_post_publish env v photo desc (after_status_get photo w))
      as (pub & Ht & Hlen & Hnone).
    rewrite Hattempt in Hstay, Ht, Hnone. simpl in Hstay, Ht, Hnone.
    destruct Hstay as (_ & _ & pub' & Ht' & Hpub').
    assert (pub' = pub) as -> by (rewrite Ht in Ht'; by apply app_inv_head in Ht').
    assert (∀ st, mirrors photo st -> (st_success st = false -> posts_created pub = []) ->
                  photo_status_set env (p_id photo) st w2 = (r, w') ->
                  ∃ evs, trace w' = trace w ++ evs ∧ iteration_events photo evs) as Hwrite.
    { intros st Hm Hfail Hset.
      destruct (photo_status_set_world env (p_id photo) st w2) as (res & Ht3 & _).
      rewrite Hset in Ht3. simpl in Ht3.
      exists (EvStatusGet (p_id photo) (Returned (photo_status w !! p_id photo))
              :: pub ++ [EvStatusSet (p_id photo) st res]).
      split; [rewrite Ht3, Ht; simpl; by rewrite <- !app_assoc|].
      eexists _, pub, _. split; [reflexivity|]. split; [done|]. split; [done|].
      right. by exists st, res. }
    destruct r2 as [[]|e|]; simpl in Hbody.
    + apply (Hwrite _ (initial_status_mirrors photo desc Hdesc)); done.
    + apply (Hwrite _ (failed_status_mirrors photo desc e Hdesc)); [|done].
      intros _. by apply Hnone.
    + simplify_eq. rewrite Ht. simpl. rewrite <- !app_assoc.
      eexists. split; [reflexivity|]. eexists _, pub, []. rewrite app_nil_r.
      split; [reflexivity|]. split; [done|]. split; [done|].
      left. split; [done|]. by apply Hnone.
Qed.

Lemma process_photo_store photo w r w' :
  process_photo env v photo w = (r, w') ->
  (photo_status w' = photo_status w
   ∨ ∃ st, mirrors photo st ∧ undefined_property st = None ∧
           photo_status w' = <[p_id photo := st]> (photo_status w)) ∧
  (r = Ok tt -> is_Some (photo_status w' !! p_id photo)).
Proof.
  intros Hbody.
  destruct (process_photo_cases env photo w)
    as [[e Hget]|[Hget [Hpub|[Hpub [Hdesc|[desc Hdesc]]]]]].
  - rewrite (process_photo_read_fails _ _ _ _ _ Hget) in Hbody. simplify_eq.
    split; [by left|done].
  - rewrite (process_photo_skips _ _ _ _ Hget Hpub) in Hbody. simplify_eq.
    split; [by left|]. intros _. simpl.
    destruct (photo_status w !! p_id photo); [by eexists|done].
  - rewrite (process_photo_no_description _ _ _ _ Hget Hpub Hdesc) in Hbody. simplify_eq.
    split; [by left|done].
  - destruct (publish env v photo desc (after_status_get photo w)) as [r2 w2] eqn:Hattempt.
    rewrite (process_photo_attempts _ _ _ _ _ _ _ Hget Hpub Hdesc Hattempt) in Hbody.
    pose proof (stays_publish env v photo desc (after_status_get photo w)) as Hstay.
    rewrite Hattempt in Hstay. destruct Hstay as (_ & Hs & _). simpl in Hs.
    assert (∀ st, mirrors photo st ->
                  photo_status_set env (p_id photo) st w2 = (r, w') ->
                  (photo_status w' = photo_status w
                   ∨ ∃ st, mirrors photo st ∧ undefined_property st = None ∧
                           photo_status w' = <[p_id photo := st]> (photo_status w)) ∧
                  (r = Ok tt -> is_Some (photo_status w' !! p_id photo))) as Hwrite.
    { intros st Hm Hset.
      destruct (photo_status_set_world env (p_id photo) st w2)
        as (res & _ & _ & _ & Hstore & Hok & _).
      rewrite Hset in Hstore, Hok. simpl in Hstore, Hok. rewrite Hs in Hstore, Hok. split.
      - destruct Hstore as [->|[Hdef ->]]; [by left|right; by exists st].
      - intros Hr. destruct (Hok Hr) as [_ ->]. rewrite lookup_insert_eq. by eexists. }
    destruct r2 as [[]|e|]; simpl in Hbody.
    + by apply (Hwrite _ (initial_status_mirrors photo desc Hdesc)).
    + by apply (Hwrite _ (failed_status_mirrors photo desc e Hdesc)).
    + simplify_eq. split; [by left|done].
Qed.

(** The events of the loop: one block per iteration, for the photos up to
    the one where the loop stopped. *)
Lemma for_each_blocks photos w r w' :
  for_each (process_photo env v) photos w = (r, w') ->
  ∃ blocks, trace w' = trace w ++ concat blocks ∧
            Forall2 iteration_events (take (length blocks) photos) blocks ∧
            (r = Ok tt -> length blocks = length photos).
Proof.
  revert w. induction photos as [|photo rest IH]; intros w; simpl.
  - intros H. unfold ret in H. simplify_eq. exists []. simpl.
    rewrite app_nil_r. split; [done|]. split; [constructor|done].
  - unfold bind. destruct (process_photo env v photo w) as [r1 w1] eqn:Hbody.
    destruct (process_photo_events photo w r1 w1 Hbody) as (evs & Ht & Hevs).
    destruct r1 as [[]|e|].
    + intros Hrest. destruct (IH w1 Hrest) as (blocks & Ht' & Hblocks & Hlen).
      exists (evs :: blocks). simpl. rewrite Ht', Ht, <- app_assoc.
      split; [done|]. split; [by constructor|]. intros Hr. by rewrite (Hlen Hr).
    + intros H. simplify_eq. exists [evs]. simpl. rewrite app_nil_r.
      split; [done|]. split; [|done]. by repeat constructor.
    + intros H. simplify_eq. exists [evs]. simpl. rewrite app_nil_r.
      split; [done|]. split; [|done]. by repeat constructor.
Qed.

Lemma list_candidates_events w r w1 :
  list_candidates env v w = (r, w1) ->
  last_check_time w1 = last_check_time w ∧ photo_status w1 = photo_status w ∧
  files w1 = files w ∧
  match r with
  | Ok photos =>
      trace w1 = trace w ++ [EvLastCheckGet (Returned (last_check_time w));
                             EvGetPhotos (last_check_time w) (Returned photos)]
  | _ =>
      ∃ evs, trace w1 = trace w ++ evs ∧
             (listings evs = [] ∨ listings evs = [last_check_time w]) ∧
             checkpoint_sets evs = [] ∧ status_reads evs = [] ∧
             status_writes evs = [] ∧ posts_added evs = []
  end.
Proof.
  unfold list_candidates, bind at 1, last_check_ref_get.
  destruct (last_check_get_fails env w) as [e|].
  { intros H. simplify_eq. split_and!; try done. eexists [_]. split_and!; try done. by left. }
  unfold bind at 1.
  pose proof (log_window_world v (last_check_time w)
                (emit (EvLastCheckGet (Returned (last_check_time w))) w)) as Hlog.
  destruct (log_window v (last_check_time w) _) as [[[]|e|] w0]; simpl in Hlog; subst w0.
  - unfold getPhotos.
    destruct (flickr_getPhotos env _ (last_check_time w)) as [photos|e] eqn:Hphotos;
      simpl; intros H; simplify_eq; simpl; rewrite <- app_assoc; split_and!; try done.
    eexists [_; _]. split_and!; try done. by right.
  - intros H. simplify_eq. split_and!; try done. eexists [_]. split_and!; try done. by left.
  - intros H. simplify_eq. split_and!; try done. eexists [_]. split_and!; try done. by left.
Qed.
End IterationShape.

(** ** Reading the blocks *)

Lemma publish_events_reads pub :
  forallb is_publish_event pub = true ->
  status_reads pub = [] ∧ status_writes pub = [] ∧ listings pub = [] ∧
  checkpoint_sets pub = [].
Proof.
  induction pub as [|e pub IH]; [done|]. simpl.
  intros [He Hpub]%andb_true_iff. destruct (IH Hpub) as (IH1 & IH2 & IH3 & IH4).
  unfold status_reads, status_writes, listings, checkpoint_sets in *. simpl.
  rewrite IH1, IH2, IH3, IH4. by destruct e.
Qed.

Lemma status_reads_app evs1 evs2 :
  status_reads (evs1 ++ evs2) = status_reads evs1 ++ status_reads evs2.
Proof. apply omap_app. Qed.

Lemma status_writes_app evs1 evs2 :
  status_writes (evs1 ++ evs2) = status_writes evs1 ++ status_writes evs2.
Proof. apply omap_app. Qed.

Lemma listings_app evs1 evs2 : listings (evs1 ++ evs2) = listings evs1 ++ listings evs2.
Proof. apply omap_app. Qed.

(** What one block contributes to each reading of the trace. *)
Lemma iteration_events_readings photo evs :
  iteration_events photo evs ->
  status_reads evs = [p_id photo] ∧
  listings evs = [] ∧
  checkpoint_sets evs = [] ∧
  (status_writes evs = [] ∨ ∃ st, status_writes evs = [(p_id photo, st)] ∧ mirrors photo st) ∧
  (length (posts_added evs) ≤ 1)%nat ∧
  (length (posts_created evs)
   ≤ length (filter (λ w, st_success w.2 = true) (status_writes evs)))%nat.
Proof.
  intros (o & pub & sets & -> & Hpub & Hlen & Hsets).
  destruct (publish_events_reads pub Hpub) as (Hr & Hw & Hl & Hc).
  change (EvStatusGet (p_id photo) o :: pub ++ sets)
    with ([EvStatusGet (p_id photo) o] ++ pub ++ sets).
  rewrite !status_reads_app, !status_writes_app, !listings_app, !checkpoint_sets_app,
    !posts_added_app, !posts_created_app, Hr, Hw, Hl, Hc.
  destruct Hsets as [[-> Hnone]|(st & res & -> & Hm & Hfail)]; simpl.
  - rewrite Hnone, !app_nil_r. repeat split; [by left|done|done].
  - rewrite !app_nil_r. repeat split; [right; by eexists|done|].
    rewrite filter_cons. simpl. destruct (st_success st) eqn:Hsucc.
    + rewrite decide_True by done. simpl.
      pose proof (posts_created_le_added pub). lia.
    + by rewrite (Hfail eq_refl).
Qed.

Lemma blocks_readings photos blocks :
  Forall2 iteration_events photos blocks ->
  status_reads (concat blocks) = map p_id photos ∧
  listings (concat blocks) = [] ∧
  checkpoint_sets (concat blocks) = [] ∧
  (∀ id st, (id, st) ∈ status_writes (concat blocks) ->
            ∃ photo, photo ∈ photos ∧ id = p_id photo ∧ mirrors photo st) ∧
  (length (status_writes (concat blocks)) ≤ length photos)%nat ∧
  (length (posts_added (concat blocks)) ≤ length photos)%nat ∧
  (length (posts_created (concat blocks))
   ≤ length (filter (λ w, st_success w.2 = true) (status_writes (concat blocks))))%nat.
Proof.
  induction 1 as [|photo evs photos blocks Hevs _ IH]; simpl.
  { repeat split; try done. intros id st Hin. by apply elem_of_nil in Hin. }
  destruct IH as (IHr & IHl & IHc & IHw & IHn & IHp & IHs).
  destruct (iteration_events_readings photo evs Hevs) as (Hr & Hl & Hc & Hw & Hp & Hs).
  rewrite status_reads_app, listings_app, checkpoint_sets_app, status_writes_app,
    posts_added_app, posts_created_app, Hr, Hl, Hc, IHr, IHl, IHc.
  rewrite filter_app, !length_app.
  repeat split; try done; try lia.
  - intros id st [Hin|Hin]%elem_of_app.
    + destruct Hw as [Hw|(st' & Hw & Hm)]; rewrite Hw in Hin.
      * by apply elem_of_nil in Hin.
      * apply list_elem_of_singleton in Hin. simplify_eq.
        exists photo. split; [by left|done].
    + destruct (IHw id st Hin) as (photo' & Hin' & Hid & Hm).
      exists photo'. split; [by right|done].
  - destruct Hw as [->|(st' & -> & _)]; simpl; lia.
Qed.

(** ** The events of a run, block by block *)

Lemma run_blocks env v now w photos w1 :
  list_candidates env v w = (Ok photos, w1) ->
  ∃ blocks tail,
    trace (after_run env v now w)
    = trace w ++ [EvLastCheckGet (Returned (last_check_time w));
                  EvGetPhotos (last_check_time w) (Returned photos)]
              ++ concat blocks ++ tail ∧
    Forall2 iteration_events (take (length blocks) photos) blocks ∧
    (tail = []
     ∨ ∃ o, tail = [EvLastCheckSet (next_check_time v now) o] ∧
            length blocks = length photos).
Proof.
  intros Hlist. unfold after_run. rewrite photoUploader_unfold, Hlist.
  destruct (list_candidates_events env v w _ w1 Hlist) as (_ & _ & _ & Ht1).
  destruct (for_each (process_photo env v) photos w1) as [r w2] eqn:Hloop.
  destruct (for_each_blocks env v photos w1 r w2 Hloop) as (blocks & Ht2 & Hblocks & Hlen).
  destruct r as [[]|e|]; simpl.
  - destruct (last_check_ref_set_trace env (next_check_time v now) w2)
      as (o & Ht3 & _).
    exists blocks, [EvLastCheckSet (next_check_time v now) o].
    rewrite Ht3, Ht2, Ht1, <- !app_assoc. split; [done|]. split; [done|].
    right. exists o. split; [done|]. by apply Hlen.
  - exists blocks, []. rewrite Ht2, Ht1, app_nil_r, <- !app_assoc.
    split; [done|]. split; [done|]. by left.
  - exists blocks, []. rewrite Ht2, Ht1, app_nil_r, <- !app_assoc.
    split; [done|]. split; [done|]. by left.
Qed.

(** X6. The statuses are read in the order of the listing, once per photo:
    the ids read in a run are an initial part of the ids listed, and all of
    them whenever the run gets to write the checkpoint. *)
Theorem photos_processed_in_listing_order (env : Env) (v : Variant) (now : Z)
    (w w1 : World) (photos : list Photo) :
  list_candidates env v w = (Ok photos, w1) ->
  ∃ evs, trace (after_run env v now w) = trace w ++ evs ∧
         status_reads evs `prefix_of` map p_id photos ∧
         (checkpoint_sets evs ≠ [] -> status_reads evs = map p_id photos).
Proof.
  intros Hlist.
  destruct (run_blocks env v now w photos w1 Hlist) as (blocks & tail & Ht & Hblocks & Htail).
  destruct (blocks_readings _ _ Hblocks) as (Hr & _ & Hc & _).
  eexists. split; [exact Ht|].
  rewrite !status_reads_app, !checkpoint_sets_app, Hr, Hc.
  assert (status_reads tail = []) as ->.
  { by destruct Htail as [->|(o & -> & _)]. }
  simpl. rewrite app_nil_r, <- firstn_map. split; [apply prefix_take|].
  destruct Htail as [->|(o & -> & Hlen)]; [done|]. intros _.
  rewrite Hlen, <- (length_map p_id). apply firstn_all.
Qed.

(** The writes of the blocks go with a subsequence of the photos. *)
Lemma blocks_writes photos blocks :
  Forall2 iteration_events photos blocks ->
  ∃ written, written `sublist_of` photos ∧
             Forall2 (λ photo ws, ws.1 = p_id photo ∧ mirrors photo ws.2)
               written (status_writes (concat blocks)).
Proof.
  induction 1 as [|photo evs photos blocks Hevs _ (written & Hsub & Hall)]; simpl.
  { exists []. by split. }
  destruct (iteration_events_readings photo evs Hevs) as (_ & _ & _ & Hw & _).
  rewrite status_writes_app.
  destruct Hw as [->|(st & -> & Hm)]; simpl.
  - exists written. split; [by apply sublist_cons|done].
  - exists (photo :: written). split; [by apply sublist_skip|]. by constructor.
Qed.

Lemma iteration_events_posts photo evs :
  iteration_events photo evs -> iteration_posts photo evs.
Proof.
  intros (o & pub & sets & -> & Hpub & Hlen & Hsets).
  destruct (publish_events_reads pub Hpub) as (Hr & Hw & _).
  exists o, (pub ++ sets).
  rewrite status_reads_app, posts_added_app, posts_created_app, status_writes_app, Hr, Hw.
  destruct Hsets as [[-> Hnone]|(st & res & -> & Hm & Hfail)]; simpl.
  - rewrite !app_nil_r. split_and!; [done..|by left].
  - rewrite !app_nil_r. split_and!; [done..|].
    destruct (st_success st) eqn:Hsucc; [right; by exists st|left; by apply Hfail].
Qed.

(** X7. The status writes of a run go one to one, in order, with a
    subsequence of the listed photos: each listed photo gets at most one
    write, under its own id, of a record that mirrors it, with [error] null
    exactly when [success] is true. *)
Theorem status_writes_mirror_candidates (env : Env) (v : Variant) (now : Z)
    (w w1 : World) (photos : list Photo) :
  list_candidates env v w = (Ok photos, w1) ->
  ∃ evs written,
    trace (after_run env v now w) = trace w ++ evs ∧
    written `sublist_of` photos ∧
    Forall2 (λ photo ws, ws.1 = p_id photo ∧ mirrors photo ws.2)
      written (status_writes evs).
Proof.
  intros Hlist.
  destruct (run_blocks env v now w photos w1 Hlist) as (blocks & tail & Ht & Hblocks & Htail).
  destruct (blocks_writes _ _ Hblocks) as (written & Hsub & Hall).
  eexists _, written. split; [exact Ht|].
  rewrite !status_writes_app.
  assert (status_writes tail = []) as ->.
  { by destruct Htail as [->|(o & -> & _)]. }
  simpl. rewrite app_nil_r. split; [|done].
  etransitivity; [exact Hsub|]. apply sublist_take.
Qed.

(** X8. The events of a run after the listing fall into one block per photo
    processed, in listing order, each starting with the status read of its
    photo.  In each block [ghost.posts.add] is called at most once, and when
    Ghost accepted the post the status write of the block says success: no
    failure record stands for an iteration that created a post, and no post is
    created outside the blocks. *)
Theorem created_posts_are_recorded (env : Env) (v : Variant) (now : Z)
    (w w1 : World) (photos : list Photo) :
  list_candidates env v w = (Ok photos, w1) ->
  ∃ blocks tail,
    trace (after_run env v now w)
    = trace w ++ [EvLastCheckGet (Returned (last_check_time w));
                  EvGetPhotos (last_check_time w) (Returned photos)]
              ++ concat blocks ++ tail ∧
    Forall2 iteration_posts (take (length blocks) photos) blocks ∧
    posts_added tail = [] ∧ status_reads tail = [] ∧ status_writes tail = [].
Proof.
  intros Hlist.
  destruct (run_blocks env v now w photos w1 Hlist) as (blocks & tail & Ht & Hblocks & Htail).
  exists blocks, tail. split; [exact Ht|]. split.
  - eapply Forall2_impl; [exact Hblocks|]. apply iteration_events_posts.
  - by destruct Htail as [->|(o & -> & _)].
Qed.

(** ** The status records across a run *)

#[global] Instance keeps_records_preorder : PreOrder keeps_records.
Proof.
  split; [intros w id Hid; exact Hid|].
  intros w1 w2 w3 H12 H23 id Hid. apply H23, H12, Hid.
Qed.

#[global] Instance keeps_sound_preorder : PreOrder keeps_sound.
Proof.
  split; [intros w Hok; exact Hok|].
  intros w1 w2 w3 H12 H23 Hok. apply H23, H12, Hok.
Qed.

Lemma mirrors_record_ok photo st : mirrors photo st -> record_ok (p_id photo) st.
Proof. intros (Hid & _ & _ & _ & _ & _ & Herr). by split. Qed.

Section Records.
Context (env : Env) (v : Variant).

Lemma keeps_records_process_photo photo : respects keeps_records (process_photo env v photo).
Proof.
  intros w. destruct (process_photo env v photo w) as [r w'] eqn:Hbody.
  destruct (process_photo_store env v photo w r w' Hbody) as [[Hs|(st & _ & _ & Hs)] _];
    simpl; intros id Hid; rewrite Hs; [done|].
  destruct (decide (p_id photo = id)) as [->|Hne].
  - rewrite lookup_insert_eq. by eexists.
  - by rewrite lookup_insert_ne.
Qed.

Lemma keeps_sound_process_photo photo : respects keeps_sound (process_photo env v photo).
Proof.
  intros w. destruct (process_photo env v photo w) as [r w'] eqn:Hbody.
  destruct (process_photo_store env v photo w r w' Hbody) as [[Hs|(st & Hm & _ & Hs)] _];
    simpl; intros Hok id st' Hst'; rewrite Hs in Hst'; [by apply Hok|].
  destruct (decide (p_id photo = id)) as [<-|Hne].
  - rewrite lookup_insert_eq in Hst'. simplify_eq. by apply mirrors_record_ok.
  - rewrite lookup_insert_ne in Hst' by done. by apply Hok.
Qed.

#[global] Instance written_ok_preorder : PreOrder written_ok.
Proof.
  split; [intros w id st Hst; by left|].
  intros w1 w2 w3 H12 H23 id st Hst.
  destruct (H23 id st Hst) as [Hst2|Hok]; [by apply H12|by right].
Qed.

Lemma written_ok_process_photo photo : respects written_ok (process_photo env v photo).
Proof.
  intros w. destruct (process_photo env v photo w) as [r w'] eqn:Hbody.
  destruct (process_photo_store env v photo w r w' Hbody) as [[Hs|(st & Hm & Hdef & Hs)] _];
    simpl; intros id st' Hst'; rewrite Hs in Hst'; [by left|].
  destruct (decide (p_id photo = id)) as [<-|Hne].
  - rewrite lookup_insert_eq in Hst'. simplify_eq. right.
    split; [by apply mirrors_record_ok|done].
  - rewrite lookup_insert_ne in Hst' by done. by left.
Qed.

Lemma run_photo_status (R : World -> World -> Prop) `{!PreOrder R} now w :
  (∀ w1 w2, photo_status w2 = photo_status w1 -> R w1 w2) ->
  (∀ photo, respects R (process_photo env v photo)) ->
  R w (after_run env v now w).
Proof.
  intros Hsame Hbody. unfold after_run. rewrite photoUploader_unfold.
  destruct (list_candidates env v w) as [r w1] eqn:Hlist.
  destruct (list_candidates_events env v w r w1 Hlist) as (_ & Hs1 & _).
  destruct r as [photos|e|]; simpl; [|by apply Hsame..].
  pose proof (respects_for_each R (process_photo env v) photos Hbody w1) as Hloop.
  destruct (for_each (process_photo env v) photos w1) as [[[]|e|] w2]; simpl in *.
  - destruct (last_check_ref_set_trace env (next_check_time v now) w2)
      as (o & _ & _ & Hs3 & _).
    transitivity w1; [by apply Hsame|]. transitivity w2; [done|]. by apply Hsame.
  - transitivity w1; [by apply Hsame|done].
  - transitivity w1; [by apply Hsame|done].
Qed.

Lemma for_each_records photos w w' :
  for_each (process_photo env v) photos w = (Ok tt, w') ->
  ∀ photo, photo ∈ photos -> is_Some (photo_status w' !! p_id photo).
Proof.
  revert w. induction photos as [|photo rest IH]; intros w Hloop photo' Hin.
  { by apply elem_of_nil in Hin. }
  simpl in Hloop. unfold bind in Hloop.
  destruct (process_photo env v photo w) as [r1 w1] eqn:Hbody.
  destruct r1 as [[]|e|]; [|done..].
  apply elem_of_cons in Hin as [->|Hin]; [|by apply (IH w1)].
  destruct (process_photo_store env v photo w _ w1 Hbody) as [_ Hsome].
  pose proof (respects_for_each keeps_records (process_photo env v) rest
                keeps_records_process_photo w1) as Hkeep.
  rewrite Hloop in Hkeep. apply Hkeep, Hsome. done.
Qed.
End Records.

(** X9. A run never deletes a status record; and when a run returns, every
    listed photo has a record under its id. *)
Theorem status_records_are_never_deleted (env : Env) (v : Variant) (now : Z) (w : World) :
  (∀ id, is_Some (photo_status w !! id) ->
         is_Some (photo_status (after_run env v now w) !! id)) ∧
  (∀ photos w1,
      list_candidates env v w = (Ok photos, w1) ->
      (photoUploader env v now w).1 = Ok tt ->
      ∀ photo, photo ∈ photos ->
               is_Some (photo_status (after_run env v now w) !! p_id photo)).
Proof.
  split.
  - apply (run_photo_status env v keeps_records).
    + intros w1 w2 Hs id. by rewrite Hs.
    + apply keeps_records_process_photo.
  - intros photos w1 Hlist. unfold after_run. rewrite photoUploader_unfold, Hlist.
    destruct (for_each (process_photo env v) photos w1) as [[[]|e|] w2] eqn:Hloop;
      [|done..].
    intros _ photo Hin.
    destruct (last_check_ref_set_trace env (next_check_time v now) w2)
      as (o & _ & _ & -> & _).
    by apply (for_each_records env v photos w1).
Qed.

(** X10. Soundness of the store is kept by every run: if each stored record
    carries the id it is stored under and has [error] null exactly when
    [success] is true, the same holds after the run. *)
Theorem store_stays_sound (env : Env) (v : Variant) (now : Z) (w : World) :
  store_ok w -> store_ok (after_run env v now w).
Proof.
  apply (run_photo_status env v keeps_sound).
  - intros w1 w2 Hs Hok id st. rewrite Hs. apply Hok.
  - apply keeps_sound_process_photo.
Qed.

(** X14. Every record that a run stores holds no undefined property and is
    sound; so each failure that a run stores comes with the message of an
    [Error], for a photo that has a [url_o]. *)
Theorem stored_failures_have_a_message (env : Env) (v : Variant) (now : Z) (w : World) :
  written_ok w (after_run env v now w) ∧
  ∀ id st,
    photo_status (after_run env v now w) !! id = Some st ->
    photo_status w !! id ≠ Some st ->
    st_success st = false ->
    st_id st = id ∧ (∃ u, st_url_o st = Some u) ∧ ∃ m, st_error st = ErrMessage m.
Proof.
  assert (written_ok w (after_run env v now w)) as Hrun.
  { apply (run_photo_status env v written_ok).
    - intros w1 w2 Hs id st Hst. left. by rewrite <- Hs.
    - apply written_ok_process_photo. }
  split; [exact Hrun|]. intros id st Hst Hnew Hfail.
  destruct (Hrun id st Hst) as [Hold|[[Hid Herr] Hdef]]; [done|].
  split; [done|]. unfold undefined_property in Hdef.
  destruct (st_url_o st) as [u|]; [|done]. split; [by eexists|].
  destruct (st_error st) as [| |m]; [|done|by eexists].
  destruct Herr as [_ Herr]. rewrite Herr in Hfail; done.
Qed.

(** ** The window of the listing *)

(** X11. A run lists at most once, with the stored checkpoint as
    [min_upload_date]; so after a run that returned, the next run lists from
    the value that run computed. *)
Theorem listing_window_is_stored_checkpoint (env : Env) (v : Variant) (now : Z)
    (w : World) :
  (∃ evs, trace (after_run env v now w) = trace w ++ evs ∧
          (listings evs = [] ∨ listings evs = [last_check_time w])) ∧
  ∀ now',
    (photoUploader env v now w).1 = Ok tt ->
    ∃ evs, trace (after_run env v now' (after_run env v now w))
           = trace (after_run env v now w) ++ evs ∧
           (listings evs = [] ∨ listings evs = [next_check_time v now]).
Proof.
  assert (∀ now0 w0, ∃ evs, trace (after_run env v now0 w0) = trace w0 ++ evs ∧
            (listings evs = [] ∨ listings evs = [last_check_time w0])) as Hone.
  { intros now0 w0. destruct (list_candidates env v w0) as [r w1] eqn:Hlist.
    destruct r as [photos|e|].
    - destruct (run_blocks env v now0 w0 photos w1 Hlist)
        as (blocks & tail & Ht & Hblocks & Htail).
      destruct (blocks_readings _ _ Hblocks) as (_ & Hl & _).
      eexists. split; [exact Ht|]. right.
      rewrite !listings_app, Hl.
      by destruct Htail as [->|(o & -> & _)].
    - destruct (list_candidates_events env v w0 _ w1 Hlist)
        as (_ & _ & _ & evs & Ht & Hl & _).
      unfold after_run. rewrite photoUploader_unfold, Hlist. by exists evs.
    - destruct (list_candidates_events env v w0 _ w1 Hlist)
        as (_ & _ & _ & evs & Ht & Hl & _).
      unfold after_run. rewrite photoUploader_unfold, Hlist. by exists evs. }
  split; [apply Hone|]. intros now' Hok.
  destruct (run_checkpoint env v now w) as (evs0 & _ & _ & Hnext).
  destruct (Hnext Hok) as [_ <-]. apply Hone.
Qed.

Lemma toISOString_None t : toISOString t = None <-> 8640000000000000 < Z.abs t.
Proof.
  unfold toISOString. destruct (Z.leb_spec (Z.abs t) 8640000000000000).
  - destruct (civil_from_days _) as [[y m] d]. split; [done|lia].
  - done.
Qed.

(** X12. index.ts renders the stored checkpoint as a date for its log before
    it lists: with a checkpoint of magnitude above 8640000000000 seconds it
    throws a [RangeError] right after the checkpoint read and changes nothing.
    part_000 has no such line and goes on to the listing. *)
Theorem invalid_checkpoint_aborts_index_ts (env : Env) (now : Z) (w : World) :
  last_check_get_fails env w = None ->
  8640000000000 < Z.abs (last_check_time w) ->
  photoUploader env IndexTs now w
  = (Throw (ErrorObj "Invalid time value"),
     emit (EvLastCheckGet (Returned (last_check_time w))) w) ∧
  ∃ o evs, trace (after_run env Part000 now w)
           = trace w ++ EvLastCheckGet (Returned (last_check_time w))
                     :: EvGetPhotos (last_check_time w) o :: evs.
Proof.
  intros Hget Hbig. split.
  - rewrite photoUploader_unfold.
    unfold list_candidates, bind at 1, last_check_ref_get. rewrite Hget.
    unfold bind at 1, log_window, bind at 1, date_toISOString.
    assert (toISOString (last_check_time w * 1000) = None) as ->; [|done].
    apply toISOString_None. lia.
  - destruct (list_candidates env Part000 w) as [r w1] eqn:Hlist.
    pose proof Hlist as Hlist'.
    unfold list_candidates, bind at 1, last_check_ref_get in Hlist'.
    rewrite Hget in Hlist'. unfold bind, log_window, ret, getPhotos in Hlist'.
    destruct r as [photos|e|].
    + destruct (run_blocks env Part000 now w photos w1 Hlist) as (blocks & tail & Ht & _).
      eexists _, _. exact Ht.
    + unfold after_run. rewrite photoUploader_unfold, Hlist. simplify_eq. simpl.
      rewrite <- app_assoc. by eexists _, [].
    + unfold after_run. rewrite photoUploader_unfold, Hlist. simplify_eq. simpl.
      rewrite <- app_assoc. by eexists _, [].
Qed.

(** ** [downloadImage] and the temporary file *)

(** X3. The outcomes of [downloadImage].  Without a URL it rejects with a
    [TypeError] and makes no call.  With one it creates the stream and calls
    [https.get], in that order, and
    - resolves, to the destination, only when the file was opened and a
      response came; the file is then on disk;
    - rejects with a string only on an ['error'] event of the request, the
      string being the message, after it has unlinked the file;
    - rejects with an [Error] only when [https.get] itself throws; no unlink
      is made, and the file that the stream opened stays;
    - never settles otherwise: the stream could not open the file, the
      response stalls, or the unlink of the error handler fails. *)
Theorem downloadImage_outcomes (env : Env) (v : Variant) (url : option string)
    (w w' : World) (r : Result string) :
  downloadImage env v url w = (r, w') ->
  match url with
  | None => w' = w ∧ ∃ m, r = Throw (ErrorObj m)
  | Some u =>
      ∃ o h rest,
        trace w' = trace w ++ EvCreateWriteStream (destination v u) o
                              :: EvHttpsGet u h :: rest ∧
        match r with
        | Ok path =>
            path = destination v u ∧ o = Returned tt ∧ h = HttpsResponse ∧ rest = [] ∧
            destination v u ∈ files w'
        | Throw (Primitive msg) =>
            o = Returned tt ∧ h = HttpsError msg ∧
            rest = [EvUnlink (destination v u) (Returned tt)] ∧
            (destination v u ∉ files w')
        | Throw (ErrorObj msg) =>
            h = HttpsThrows msg ∧ rest = [] ∧
            (o = Returned tt -> destination v u ∈ files w') ∧
            (∀ e, o = Threw e -> files w' = files w)
        | Pending =>
            (∀ msg, h ≠ HttpsThrows msg) ∧
            (o = Returned tt ->
             destination v u ∈ files w' ∧
             (h = HttpsStall ∧ rest = []
              ∨ ∃ msg e, h = HttpsError msg ∧
                         rest = [EvUnlink (destination v u) (Threw e)])) ∧
            (∀ e, o = Threw e -> files w' = files w ∧ rest = [])
        end
  end.
Proof.
  destruct url as [u|].
  2: { unfold downloadImage, throw. intros H. simplify_eq. split; [done|]. by eexists. }
  intros (o & h & rest & Ht & Hcase)%downloadImage_calls.
  exists o, h, rest. split; [exact Ht|].
  destruct o as [[]|e], h as [|msg| |msg]; try destruct Hcase as [Hcase|Hcase];
    destruct Hcase as (-> & Hrest & Hf); rewrite Hf; subst;
    split_and!; try done; try apply in_added; try (intros; simplify_eq; done).
  - apply not_in_removed.
  - intros _. split; [apply in_added|]. right. destruct Hrest as [e ->]. by eexists _, _.
  - intros _. split; [apply in_added|]. by left.
  - intros _. apply in_added.
Qed.

Lemma photo_status_set_files env id st w : files (photo_status_set env id st w).2 = files w.
Proof. by destruct (photo_status_set_world env id st w) as (res & _ & -> & _). Qed.

(** X4. An iteration touches no file but the destination of its photo's
    download: every other path is on disk after it exactly if it was
    before. *)
Theorem iteration_touches_only_its_file (env : Env) (v : Variant) (photo : Photo)
    (w : World) (path : string) :
  (∀ u, p_url_o photo = Some u -> path ≠ destination v u) ->
  (path ∈ files (process_photo env v photo w).2 <-> path ∈ files w).
Proof.
  intros Hpath.
  destruct (process_photo_cases env photo w)
    as [[e Hget]|[Hget [Hpub|[Hpub [Hdesc|[desc Hdesc]]]]]].
  - by rewrite (process_photo_read_fails _ _ _ _ _ Hget).
  - by rewrite (process_photo_skips _ _ _ _ Hget Hpub).
  - by rewrite (process_photo_no_description _ _ _ _ Hget Hpub Hdesc).
  - destruct (publish env v photo desc (after_status_get photo w)) as [r w2] eqn:Hattempt.
    rewrite (process_photo_attempts _ _ _ _ _ _ _ Hget Hpub Hdesc Hattempt).
    pose proof (publish_files env v photo desc _ r w2 Hattempt) as Hfiles.
    assert (path ∈ files w2 <-> path ∈ files w) as Hw2.
    { destruct (p_url_o photo) as [u|]; simpl in Hfiles.
      - specialize (Hpath u eq_refl).
        destruct Hfiles as [->|[->| ->]];
          [by apply other_in_added|by apply other_in_removed|done].
      - by rewrite Hfiles. }
    destruct (status_after photo desc r); [|done].
    by rewrite photo_status_set_files.
Qed.

(** X5. After an iteration that was not skipped and recorded a success, the
    downloaded file is gone and the other files are as before. *)
Theorem published_photo_leaves_no_file (env : Env) (v : Variant) (photo : Photo)
    (w w' : World) (st : PhotoStatus) :
  already_published (photo_status w !! p_id photo) = false ->
  process_photo env v photo w = (Ok tt, w') ->
  photo_status w' !! p_id photo = Some st ->
  st_success st = true ->
  ∃ u, p_url_o photo = Some u ∧
       files w' = files w ∖ {[destination v u]} ∧
       (destination v u ∉ files w').
Proof.
  intros Hpub Hbody Hst Hsucc.
  destruct (process_photo_cases env photo w)
    as [[e Hget]|[Hget [Hpub'|[_ [Hdesc|[desc Hdesc]]]]]].
  - rewrite (process_photo_read_fails _ _ _ _ _ Hget) in Hbody. done.
  - congruence.
  - rewrite (process_photo_no_description _ _ _ _ Hget Hpub Hdesc) in Hbody. done.
  - destruct (publish env v photo desc (after_status_get photo w)) as [r w2] eqn:Hattempt.
    rewrite (process_photo_attempts _ _ _ _ _ _ _ Hget Hpub Hdesc Hattempt) in Hbody.
    assert (files w' = files w2) as Hfiles.
    { destruct (status_after photo desc r) as [st'|]; [|done].
      rewrite <- (photo_status_set_files env (p_id photo) st' w2). by rewrite Hbody. }
    destruct r as [[]|e|]; simpl in Hbody; [| |done].
    + apply publish_ok in Hattempt as (u & image & names & iso & Hurl & _ & _ & Hf).
      exists u. split; [done|]. rewrite Hfiles, Hf. simpl. rewrite remove_added.
      split; [done|apply not_in_removed].
    + destruct (photo_status_set_world env (p_id photo)
                  (failed_status (initial_status photo desc) e) w2)
        as (res & _ & _ & _ & _ & Hok & _).
      rewrite Hbody in Hok. destruct (Hok eq_refl) as [_ Hstore]. simpl in Hstore.
      rewrite Hstore, lookup_insert_eq in Hst. by simplify_eq.
Qed.

(** X13. A photo for which the listing gives no [url_o], and a photo whose
    attempt throws a string, as [downloadImage] does on a request error, are
    never recorded: the status write is issued, with [success = false], but
    the record holds an undefined property, [url_o] or [error]; [set] throws
    on it before it writes, that exception leaves the iteration, and the store
    is as it was. *)
Theorem undefined_field_is_never_recorded (env : Env) (v : Variant)
    (photo : Photo) (desc : string) (w w2 : World) (r : Result unit) :
  status_get_fails env w (p_id photo) = None ->
  already_published (photo_status w !! p_id photo) = false ->
  p_description photo = Some desc ->
  publish env v photo desc (after_status_get photo w) = (r, w2) ->
  p_url_o photo = None ∨ (∃ msg, r = Throw (Primitive msg)) ->
  ∃ st prop,
    process_photo env v photo w
    = (Throw (undefined_error (p_id photo) prop),
       emit (EvStatusSet (p_id photo) st (Threw (undefined_error (p_id photo) prop))) w2) ∧
    st_id st = p_id photo ∧ st_success st = false ∧
    (prop = "url_o" ∧ st_url_o st = None ∨ prop = "error" ∧ st_error st = ErrUndefined) ∧
    photo_status (process_photo env v photo w).2 = photo_status w.
Proof.
  intros Hget Hpub Hdesc Hattempt Hundef.
  pose proof (stays_publish env v photo desc (after_status_get photo w)) as Hstay.
  rewrite Hattempt in Hstay. destruct Hstay as (_ & Hs & _). simpl in Hs.
  assert (∃ e, r = Throw e ∧
               (p_url_o photo = None ∨ ∃ msg, e = Primitive msg)) as (e & -> & He).
  { destruct Hundef as [Hurl|[msg ->]]; [|by eauto].
    unfold publish in Hattempt. rewrite Hurl in Hattempt.
    unfold bind at 1, downloadImage, throw in Hattempt. simplify_eq. by eauto. }
  rewrite (process_photo_attempts _ _ _ _ _ _ _ Hget Hpub Hdesc Hattempt).
  cbn [status_after].
  assert (∃ prop, undefined_property (failed_status (initial_status photo desc) e)
                  = Some prop ∧
                  (prop = "url_o" ∧ p_url_o photo = None
                   ∨ prop = "error" ∧ message_of e = ErrUndefined))
    as (prop & Hprop & Hwhich).
  { unfold undefined_property. simpl. destruct (p_url_o photo) as [u|]; [|by eauto].
    destruct He as [?|[msg ->]]; [done|]. simpl. by eauto. }
  rewrite (photo_status_set_undefined _ _ _ _ _ Hprop).
  eexists _, prop. split; [reflexivity|]. by split_and!.
Qed.

(** ** A stream that cannot open its file *)

Lemma after_download_no_failed_open evs :
  forallb is_after_download evs = true -> existsb is_failed_open evs = false.
Proof.
  induction evs as [|e evs IH]; [done|]. simpl.
  intros [He Hevs]%andb_true_iff. rewrite (IH Hevs). by destruct e.
Qed.

Lemma status_sets_no_failed_open evs :
  forallb is_status_set evs = true -> existsb is_failed_open evs = false.
Proof.
  induction evs as [|e evs IH]; [done|]. simpl.
  intros [He Hevs]%andb_true_iff. rewrite (IH Hevs). by destruct e.
Qed.

Section FailedOpen.
Context (env : Env) (v : Variant).

Lemma after_download_stays photo desc filePath :
  stays is_after_download
    (imageUpload <- images_upload env filePath ;;
     unlink env filePath ;;
     ghostTags <- tags_browse env ;;
     create_tags env ghostTags (tags_of (p_tags photo)) ;;
     published_at <- date_toISOString (p_dateupload photo * 1000) ;;
     posts_add env (post_of photo desc (tags_of (p_tags photo)) imageUpload published_at)).
Proof.
  apply stays_bind; [intros w; simpl; by apply continues_emit|intros imageUpload].
  apply stays_bind.
  { intros w. unfold unlink. destruct (unlink_fails env w filePath); simpl.
    - by apply continues_emit.
    - repeat split. by eexists [_]. }
  intros _. apply stays_bind; [intros w; simpl; by apply continues_emit|intros ghostTags].
  apply stays_bind.
  { induction (tags_of (p_tags photo)) as [|tag rest IH]; simpl; [auto with stays|].
    apply stays_bind; [|done].
    destruct (includes ghostTags tag); [auto with stays|].
    intros w. simpl. by apply continues_emit. }
  intros _. apply stays_bind; [apply stays_date_toISOString|intros published_at].
  intros w. simpl. by apply continues_emit.
Qed.

(** An attempt in which the stream failed to open made two calls, the
    stream and the request, and either never settles or was rejected by
    [https.get]. *)
Lemma publish_failed_open photo desc w r w2 pub :
  publish env v photo desc w = (r, w2) ->
  trace w2 = trace w ++ pub ->
  existsb is_failed_open pub = true ->
  ∃ path e u h,
    pub = [EvCreateWriteStream path (Threw e); EvHttpsGet u h] ∧
    (r = Pending ∨ ∃ msg, h = HttpsThrows msg ∧ r = Throw (ErrorObj msg)).
Proof.
  unfold publish. cbv zeta. unfold bind at 1.
  destruct (p_url_o photo) as [u|].
  2: { unfold downloadImage, throw. intros H Ht. injection H as <- <-.
       rewrite <- (app_nil_r (trace w)) in Ht at 1. apply app_inv_head in Ht.
       by subst pub. }
  destruct (downloadImage env v (Some u) w) as [r1 w1] eqn:Hdl.
  apply downloadImage_calls in Hdl as (o & h & rest & Ht1 & Hcase).
  destruct r1 as [filePath|e1|].
  - intros Hrest Ht Hopen. exfalso.
    pose proof (after_download_stays photo desc filePath w1) as (_ & _ & later & Ht2 & Hlater).
    rewrite Hrest in Ht2. simpl in Ht2.
    rewrite Ht2, Ht1, <- app_assoc in Ht. apply app_inv_head in Ht. subst pub.
    simpl in Hopen. rewrite existsb_app, (after_download_no_failed_open later Hlater) in Hopen.
    destruct o as [[]|e], h as [|msg| |msg]; try destruct Hcase as [Hcase|Hcase];
      destruct Hcase as (Hr & Hrest' & _); simplify_eq; done.
  - intros H Ht Hopen. simplify_eq. rewrite Ht1 in Ht. apply app_inv_head in Ht. subst pub.
    destruct o as [[]|e], h as [|msg| |msg]; try destruct Hcase as [Hcase|Hcase];
      destruct Hcase as (Hr & Hrest' & _); simplify_eq; try done.
    exists (destination v u), e, u, (HttpsThrows msg). split; [done|]. right. by exists msg.
  - intros H Ht Hopen. simplify_eq. rewrite Ht1 in Ht. apply app_inv_head in Ht. subst pub.
    destruct o as [[]|e], h as [|msg| |msg]; try destruct Hcase as [Hcase|Hcase];
      destruct Hcase as (Hr & Hrest' & _); simplify_eq; try done;
      try (destruct Hrest' as [e' ->]; done);
      eexists (destination v u), e, u, _; (split; [reflexivity|by left]).
Qed.

(** The iteration in which a stream failed to open does not return. *)
Lemma process_photo_failed_open photo w r w' evs :
  process_photo env v photo w = (r, w') ->
  trace w' = trace w ++ evs ->
  existsb is_failed_open evs = true ->
  r ≠ Ok tt ∧
  ∃ pre path e u h tail,
    evs = pre ++ EvCreateWriteStream path (Threw e) :: EvHttpsGet u h :: tail ∧
    (tail = [] ∨ ∃ id st res msg, h = HttpsThrows msg ∧ tail = [EvStatusSet id st res]).
Proof.
  intros Hbody Ht Hopen.
  assert (∀ o, trace w' = trace w ++ [EvStatusGet (p_id photo) o] -> False) as Hquiet.
  { intros o Ht'. rewrite Ht' in Ht. apply app_inv_head in Ht. by subst evs. }
  destruct (process_photo_cases env photo w)
    as [[e Hget]|[Hget [Hpub|[Hpub [Hdesc|[desc Hdesc]]]]]].
  - rewrite (process_photo_read_fails _ _ _ _ _ Hget) in Hbody. simplify_eq.
    by destruct (Hquiet (Threw e)).
  - rewrite (process_photo_skips _ _ _ _ Hget Hpub) in Hbody. simplify_eq.
    by destruct (Hquiet (Returned (photo_status w !! p_id photo))).
  - rewrite (process_photo_no_description _ _ _ _ Hget Hpub Hdesc) in Hbody. simplify_eq.
    by destruct (Hquiet (Returned (photo_status w !! p_id photo))).
  - destruct (publish env v photo desc (after_status_get photo w)) as [r2 w2] eqn:Hattempt.
    destruct (process_photo_after_attempt env v _ _ _ _ _ Hget Hpub Hdesc Hattempt)
      as (sets & Ht3 & Hsets).
    pose proof (stays_publish env v photo desc (after_status_get photo w)) as Hstay.
    rewrite Hattempt in Hstay. destruct Hstay as (_ & _ & pub & Ht2 & _). simpl in Ht2.
    rewrite Hbody in Ht3. simpl in Ht3.
    assert (evs = EvStatusGet (p_id photo) (Returned (photo_status w !! p_id photo))
                  :: pub ++ sets) as ->.
    { rewrite Ht3, Ht2 in Ht. simpl in Ht. rewrite <- !app_assoc in Ht.
      by apply app_inv_head in Ht. }
    simpl in Hopen.
    rewrite existsb_app, (status_sets_no_failed_open sets Hsets), orb_false_r in Hopen.
    destruct (publish_failed_open _ _ _ _ _ _ Hattempt Ht2 Hopen)
      as (path & e & u & h & -> & Hres).
    rewrite (process_photo_attempts _ _ _ _ _ _ _ Hget Hpub Hdesc Hattempt) in Hbody.
    destruct Hres as [->|(msg & -> & ->)]; simpl in Hbody.
    + injection Hbody as <- <-. split; [done|].
      assert (sets = []) as ->.
      { destruct sets as [|s0 sets]; [done|].
        apply (f_equal length) in Ht3. rewrite length_app in Ht3. simpl in Ht3. lia. }
      exists [EvStatusGet (p_id photo) (Returned (photo_status w !! p_id photo))],
             path, e, u, h, []. split; [done|by left].
    + assert (stream_error_queued w2 = true) as Hqueued.
      { unfold stream_error_queued. rewrite Ht2, reverse_app. done. }
      destruct (photo_status_set_cases env (p_id photo)
                  (failed_status (initial_status photo desc) (ErrorObj msg)) w2)
        as (res & Hw3 & _ & Hres).
      destruct (photo_status_set_world env (p_id photo)
                  (failed_status (initial_status photo desc) (ErrorObj msg)) w2)
        as (res' & Ht4 & _).
      rewrite Hbody in Hres, Ht4. simpl in Hres, Ht4.
      split.
      { intros ->. destruct Hres as [_ Hlive]. congruence. }
      rewrite Ht4 in Ht3. apply app_inv_head in Ht3. subst sets.
      exists [EvStatusGet (p_id photo) (Returned (photo_status w !! p_id photo))],
             path, e, u, (HttpsThrows msg),
             [EvStatusSet (p_id photo)
                (failed_status (initial_status photo desc) (ErrorObj msg)) res'].
      split; [done|]. right. by eexists _, _, _, _.
Qed.

(** In the loop, the iteration in which a stream fails to open is the
    last. *)
Lemma for_each_failed_open photos w r w' evs :
  for_each (process_photo env v) photos w = (r, w') ->
  trace w' = trace w ++ evs ->
  existsb is_failed_open evs = true ->
  r ≠ Ok tt ∧
  ∃ pre path e u h tail,
    evs = pre ++ EvCreateWriteStream path (Threw e) :: EvHttpsGet u h :: tail ∧
    (tail = [] ∨ ∃ id st res msg, h = HttpsThrows msg ∧ tail = [EvStatusSet id st res]).
Proof.
  revert w evs. induction photos as [|photo rest IH]; intros w evs; simpl.
  { unfold ret. intros H Ht. simplify_eq.
    rewrite <- (app_nil_r (trace w')) in Ht at 1. apply app_inv_head in Ht. by subst evs. }
  unfold bind. destruct (process_photo env v photo w) as [r1 w1] eqn:Hbody.
  destruct (process_photo_events env v photo w r1 w1 Hbody) as (evs1 & Ht1 & _).
  destruct r1 as [[]|e1|].
  - intros Hrest Ht Hopen.
    pose proof (for_each_advances env v rest w1) as (_ & _ & evs2 & Ht2 & _).
    rewrite Hrest in Ht2. simpl in Ht2.
    assert (evs = evs1 ++ evs2) as ->.
    { rewrite Ht2, Ht1, <- app_assoc in Ht. by apply app_inv_head in Ht. }
    rewrite existsb_app in Hopen. apply orb_true_iff in Hopen as [Hopen|Hopen].
    { by destruct (process_photo_failed_open photo w _ w1 evs1 Hbody Ht1 Hopen) as [? _]. }
    destruct (IH w1 evs2 Hrest Ht2 Hopen)
      as (Hr & pre & path & e & u & h & tail & -> & Htail).
    split; [done|]. exists (evs1 ++ pre), path, e, u, h, tail.
    by rewrite <- app_assoc.
  - intros H Ht Hopen. simplify_eq.
    by apply (process_photo_failed_open photo w _ w' evs Hbody).
  - intros H Ht Hopen. simplify_eq.
    by apply (process_photo_failed_open photo w _ w' evs Hbody).
Qed.
End FailedOpen.

(** X15. The run in which a write stream fails to open its file does not
    return and writes no checkpoint.  The failed stream and the request that
    follows it are its last calls, but for one: when [https.get] threw, the
    [catch] block ran and the status write was issued before the process
    ended. *)
Theorem failed_open_ends_the_run (env : Env) (v : Variant) (now : Z) (w : World)
    (evs : list Event) :
  trace (after_run env v now w) = trace w ++ evs ->
  existsb is_failed_open evs = true ->
  (photoUploader env v now w).1 ≠ Ok tt ∧
  checkpoint_sets evs = [] ∧
  ∃ pre path e u h tail,
    evs = pre ++ EvCreateWriteStream path (Threw e) :: EvHttpsGet u h :: tail ∧
    (tail = [] ∨ ∃ id st res msg, h = HttpsThrows msg ∧ tail = [EvStatusSet id st res]).
Proof.
  unfold after_run. rewrite photoUploader_unfold.
  destruct (list_candidates env v w) as [r0 w1] eqn:Hlist.
  destruct (list_candidates_continues env v w) as [(_ & _ & evs0 & Ht0 & Hp0) _].
  rewrite Hlist in Ht0. simpl in Ht0.
  assert (existsb is_failed_open evs0 = false) as Hquiet0.
  { clear Ht0. induction evs0 as [|e0 evs0 IH]; [done|]. simpl in *.
    apply andb_true_iff in Hp0 as [He0 Hp0]. rewrite (IH Hp0). by destruct e0. }
  destruct r0 as [photos|e0|]; simpl.
  2,3: intros Ht; rewrite Ht0 in Ht; apply app_inv_head in Ht; subst evs;
       intros Hopen; congruence.
  destruct (for_each (process_photo env v) photos w1) as [r2 w2] eqn:Hloop.
  pose proof (for_each_advances env v photos w1) as (_ & _ & evs1 & Ht1 & Hp1).
  rewrite Hloop in Ht1. simpl in Ht1.
  assert (∀ evs', trace w2 = trace w ++ evs' -> existsb is_failed_open evs' = true ->
                  r2 ≠ Ok tt ∧ checkpoint_sets evs' = [] ∧
                  ∃ pre path e u h tail,
                    evs' = pre ++ EvCreateWriteStream path (Threw e) :: EvHttpsGet u h :: tail ∧
                    (tail = [] ∨ ∃ id st res msg,
                                   h = HttpsThrows msg ∧ tail = [EvStatusSet id st res]))
    as Hloop'.
  { intros evs' Ht' Hopen.
    assert (evs' = evs0 ++ evs1) as ->.
    { rewrite Ht1, Ht0, <- app_assoc in Ht'. by apply app_inv_head in Ht'. }
    rewrite existsb_app, Hquiet0 in Hopen. simpl in Hopen.
    destruct (for_each_failed_open env v photos w1 r2 w2 evs1 Hloop Ht1 Hopen)
      as (Hr & pre & path & e & u & h & tail & -> & Htail).
    split; [done|]. split.
    - rewrite checkpoint_sets_app, (checkpoint_sets_none _ Hp1), app_nil_r.
      apply checkpoint_sets_none. rewrite forallb_forall in *.
      intros ev Hev. by rewrite (read_not_checkpoint ev (Hp0 ev Hev)).
    - exists (evs0 ++ pre), path, e, u, h, tail. by rewrite <- app_assoc. }
  destruct r2 as [[]|e2|]; simpl; [|intros Ht Hopen; by apply Hloop'..].
  intros Ht Hopen. exfalso.
  destruct (last_check_ref_set_trace env (next_check_time v now) w2) as (o & Ht3 & _).
  rewrite Ht3, Ht1, Ht0, <- !app_assoc in Ht. apply app_inv_head in Ht. subst evs.
  rewrite !existsb_app, Hquiet0 in Hopen. simpl in Hopen. rewrite orb_false_r in Hopen.
  destruct (Hloop' (evs0 ++ evs1)) as [Hr _]; [by rewrite Ht1, Ht0, <- app_assoc| |done].
  by rewrite existsb_app, Hquiet0.
Qed.

(** ** A download that is rejected, on examples *)

(** A [url_o] that is no URL.  [https.get] throws, the rejection is an
    [Error], and the failure is recorded with its message; the loop goes on,
    and the file that the stream opened stays on disk. *)
Example refused_url_is_recorded :
  let env := service [photoE; photoC] ["beach"; "flickr"] [] [] [] in
  (photoUploader env IndexTs now0 world0).1 = Ok tt ∧
  status_writes (trace (after_run env IndexTs now0 world0))
  = [("E", failed_status (initial_status photoE "At the pier") (ErrorObj "Invalid URL"));
     ("C", initial_status photoC "The logo")] ∧
  elements (files (after_run env IndexTs now0 world0)) = ["/tmp/E_o.jpg"].
Proof. vm_compute. repeat split; reflexivity. Qed.

(** An empty [url_o].  The destination is the directory [/tmp], which the
    stream cannot open, and [https.get] throws in the same turn.  The [catch]
    block runs and the status write is issued, but the process ends on the
    stream's error before the write is answered: the run never returns, and
    photo C is not looked at. *)
Example empty_url_ends_the_process :
  let env := service [photoG; photoC] ["beach"; "flickr"] [] [] [] in
  (photoUploader env IndexTs now0 world0).1 = Pending ∧
  trace (after_run env IndexTs now0 world0)
  = [EvLastCheckGet (Returned 1401000000);
     EvGetPhotos 1401000000 (Returned [photoG; photoC]);
     EvStatusGet "G" (Returned None);
     EvCreateWriteStream "/tmp"
       (Threw (ErrorObj "EISDIR: illegal operation on a directory, open '/tmp'"));
     EvHttpsGet "" (HttpsThrows "Invalid URL");
     EvStatusSet "G"
       (failed_status (initial_status photoG "In the fog") (ErrorObj "Invalid URL"))
       (Returned tt)].
Proof. vm_compute. split; reflexivity. Qed.

(** ** The further properties on the sample services *)

Lemma photos_processed_in_listing_order_witness :
  let env := service [photoA; photoB; photoC] ["beach"; "flickr"]
               ["https://live.staticflickr.com/1/A_o.jpg"] ["/tmp/B_o.jpg"] [] in
  ∃ evs, trace (after_run env IndexTs now0 world0) = trace world0 ++ evs ∧
         status_reads evs `prefix_of` map p_id [photoA; photoB; photoC] ∧
         (checkpoint_sets evs ≠ [] -> status_reads evs = ["A"; "B"; "C"]).
Proof.
  intros env.
  assert (list_candidates env IndexTs world0
          = (Ok [photoA; photoB; photoC], (list_candidates env IndexTs world0).2))
    as Hlist by (vm_compute; reflexivity).
  exact (photos_processed_in_listing_order env IndexTs now0 world0 _ _ Hlist).
Defined.

Lemma status_writes_mirror_candidates_witness :
  let env := service [photoA; photoB; photoC] ["beach"; "flickr"]
               [] ["/tmp/B_o.jpg"] [] in
  status_writes (trace (after_run env IndexTs now0 world0))
  = [("A", initial_status photoA "At the beach");
     ("B", failed_status (initial_status photoB "On the hill")
             (ErrorObj "Request failed with status code 500"));
     ("C", initial_status photoC "The logo")] ∧
  ∃ evs written,
    trace (after_run env IndexTs now0 world0) = trace world0 ++ evs ∧
    written `sublist_of` [photoA; photoB; photoC] ∧
    Forall2 (λ photo ws, ws.1 = p_id photo ∧ mirrors photo ws.2)
      written (status_writes evs).
Proof.
  intros env.
  assert (list_candidates env IndexTs world0
          = (Ok [photoA; photoB; photoC], (list_candidates env IndexTs world0).2))
    as Hlist by (vm_compute; reflexivity).
  split; [vm_compute; reflexivity|].
  exact (status_writes_mirror_candidates env IndexTs now0 world0 _ _ Hlist).
Defined.

Lemma created_posts_are_recorded_witness :
  let env := service [photoA; photoB; photoC] ["beach"; "flickr"]
               [] ["/tmp/B_o.jpg"] ["C"] in
  length (posts_created (trace (after_run env IndexTs now0 world0))) = 2%nat ∧
  ∃ blocks tail,
    trace (after_run env IndexTs now0 world0)
    = trace world0 ++ [EvLastCheckGet (Returned (last_check_time world0));
                       EvGetPhotos (last_check_time world0)
                         (Returned [photoA; photoB; photoC])]
                   ++ concat blocks ++ tail ∧
    Forall2 iteration_posts (take (length blocks) [photoA; photoB; photoC]) blocks ∧
    posts_added tail = [] ∧ status_reads tail = [] ∧ status_writes tail = [].
Proof.
  intros env.
  assert (list_candidates env IndexTs world0
          = (Ok [photoA; photoB; photoC], (list_candidates env IndexTs world0).2))
    as Hlist by (vm_compute; reflexivity).
  split; [vm_compute; reflexivity|].
  exact (created_posts_are_recorded env IndexTs now0 world0 _ _ Hlist).
Defined.

Lemma status_records_are_never_deleted_witness :
  let env := service [photoB; photoC] ["beach"; "flickr"] [] ["/tmp/B_o.jpg"] [] in
  is_Some (photo_status (after_run env IndexTs now0 world_A_published) !! "A") ∧
  is_Some (photo_status (after_run env IndexTs now0 world_A_published) !! "B") ∧
  is_Some (photo_status (after_run env IndexTs now0 world_A_published) !! "C").
Proof.
  intros env.
  destruct (status_records_are_never_deleted env IndexTs now0 world_A_published)
    as [Hkept Hlisted].
  assert (list_candidates env IndexTs world_A_published
          = (Ok [photoB; photoC], (list_candidates env IndexTs world_A_published).2))
    as Hlist by (vm_compute; reflexivity).
  assert ((photoUploader env IndexTs now0 world_A_published).1 = Ok tt)
    as Hok by (vm_compute; reflexivity).
  split; [|split].
  - apply Hkept. vm_compute. by eexists.
  - apply (Hlisted _ _ Hlist Hok photoB). by left.
  - apply (Hlisted _ _ Hlist Hok photoC). right. by left.
Defined.

Lemma store_stays_sound_witness :
  let env := service [photoB; photoC] ["beach"; "flickr"] [] ["/tmp/B_o.jpg"] [] in
  store_ok world_A_published ∧
  store_ok (after_run env IndexTs now0 world_A_published).
Proof.
  intros env.
  assert (store_ok world_A_published) as Hok.
  { intros id st Hst. unfold world_A_published in Hst. simpl in Hst.
    apply lookup_singleton_Some in Hst as [<- <-]. by split. }
  split; [exact Hok|].
  exact (store_stays_sound env IndexTs now0 world_A_published Hok).
Defined.

Lemma listing_window_is_stored_checkpoint_witness :
  let env := service [photoA] ["beach"; "flickr"] [] [] [] in
  ∃ evs, trace (after_run env IndexTs (now0 + 300000) (after_run env IndexTs now0 world0))
         = trace (after_run env IndexTs now0 world0) ++ evs ∧
         (listings evs = [] ∨ listings evs = [1401213600]).
Proof.
  intros env.
  destruct (listing_window_is_stored_checkpoint env IndexTs now0 world0) as [_ Hnext].
  assert ((photoUploader env IndexTs now0 world0).1 = Ok tt)
    as Hok by (vm_compute; reflexivity).
  exact (Hnext (now0 + 300000) Hok).
Defined.

Lemma invalid_checkpoint_aborts_index_ts_witness :
  let env := service [photoA] ["beach"; "flickr"] [] [] [] in
  let w := set_last_check_time 10000000000000 world0 in
  (photoUploader env IndexTs now0 w).1 = Throw (ErrorObj "Invalid time value") ∧
  photo_status (after_run env IndexTs now0 w) = ∅ ∧
  (photoUploader env Part000 now0 w).1 = Ok tt.
Proof.
  intros env w.
  destruct (invalid_checkpoint_aborts_index_ts env now0 w) as [Hrun _].
  - reflexivity.
  - vm_compute. reflexivity.
  - unfold after_run. rewrite Hrun. split; [reflexivity|]. split; [reflexivity|].
    vm_compute. reflexivity.
Defined.

Lemma downloadImage_outcomes_witness :
  let env := service [photoE] ["beach"; "flickr"] [] [] [] in
  (downloadImage env IndexTs (p_url_o photoE) world0).1 = Throw (ErrorObj "Invalid URL") ∧
  trace (downloadImage env IndexTs (p_url_o photoE) world0).2
  = [EvCreateWriteStream "/tmp/E_o.jpg" (Returned tt);
     EvHttpsGet "E_o.jpg" (HttpsThrows "Invalid URL")] ∧
  "/tmp/E_o.jpg" ∈ files (downloadImage env IndexTs (p_url_o photoE) world0).2.
Proof.
  intros env.
  assert (downloadImage env IndexTs (Some "E_o.jpg") world0
          = (Throw (ErrorObj "Invalid URL"),
             (downloadImage env IndexTs (Some "E_o.jpg") world0).2))
    as Hdl by (vm_compute; reflexivity).
  assert (trace (downloadImage env IndexTs (Some "E_o.jpg") world0).2
          = [EvCreateWriteStream "/tmp/E_o.jpg" (Returned tt);
             EvHttpsGet "E_o.jpg" (HttpsThrows "Invalid URL")])
    as Htrace by (vm_compute; reflexivity).
  destruct (downloadImage_outcomes env IndexTs _ world0 _ _ Hdl)
    as (o & h & rest & Ht & _ & _ & Hstays & _).
  rewrite Htrace in Ht. simpl in Ht. injection Ht as <- _.
  split; [exact (f_equal fst Hdl)|]. split; [exact Htrace|exact (Hstays eq_refl)].
Defined.

Lemma iteration_touches_only_its_file_witness :
  let env := service [photoA] ["beach"; "flickr"] [] ["/tmp/A_o.jpg"] [] in
  let w := set_files {[ "/tmp/keep.txt" ]} world0 in
  "/tmp/keep.txt" ∈ files (process_photo env IndexTs photoA w).2.
Proof.
  intros env w.
  apply (iteration_touches_only_its_file env IndexTs photoA w "/tmp/keep.txt").
  - intros u Hu. simpl in Hu. injection Hu as <-. vm_compute. discriminate.
  - unfold w. simpl. by apply elem_of_singleton.
Defined.

Lemma published_photo_leaves_no_file_witness :
  let env := service [photoA] ["beach"; "flickr"] [] [] [] in
  ∃ u, p_url_o photoA = Some u ∧
       files (process_photo env IndexTs photoA world0).2
       = files world0 ∖ {[destination IndexTs u]} ∧
       (destination IndexTs u ∉ files (process_photo env IndexTs photoA world0).2).
Proof.
  intros env.
  assert (process_photo env IndexTs photoA world0
          = (Ok tt, (process_photo env IndexTs photoA world0).2))
    as Hbody by (vm_compute; reflexivity).
  assert (photo_status (process_photo env IndexTs photoA world0).2 !! p_id photoA
          = Some (initial_status photoA "At the beach"))
    as Hst by (vm_compute; reflexivity).
  exact (published_photo_leaves_no_file env IndexTs photoA world0 _ _
           eq_refl Hbody Hst eq_refl).
Defined.

Lemma undefined_field_is_never_recorded_witness :
  let env := service [photoF; photoA] ["beach"; "flickr"] [] [] [] in
  let env' := service [photoA] ["beach"; "flickr"]
                ["https://live.staticflickr.com/1/A_o.jpg"] [] [] in
  (process_photo env IndexTs photoF world0).1 = Throw (undefined_error "F" "url_o") ∧
  photo_status (process_photo env IndexTs photoF world0).2 = photo_status world0 ∧
  (process_photo env' IndexTs photoA world0).1 = Throw (undefined_error "A" "error") ∧
  photo_status (process_photo env' IndexTs photoA world0).2 = photo_status world0.
Proof.
  intros env env'.
  assert (publish env IndexTs photoF "In the dunes" (after_status_get photoF world0)
          = (Throw (ErrorObj ("The " ++ dq ++ "path" ++ dq
                              ++ " argument must be of type string. Received undefined")%string),
             after_status_get photoF world0))
    as Hattempt by (vm_compute; reflexivity).
  assert (publish env' IndexTs photoA "At the beach" (after_status_get photoA world0)
          = (Throw (Primitive "socket hang up"),
             (publish env' IndexTs photoA "At the beach" (after_status_get photoA world0)).2))
    as Hattempt' by (vm_compute; reflexivity).
  destruct (undefined_field_is_never_recorded env IndexTs photoF "In the dunes" world0
              _ _ eq_refl eq_refl eq_refl Hattempt (or_introl eq_refl))
    as (st & prop & _ & _ & _ & _ & Hstore).
  destruct (undefined_field_is_never_recorded env' IndexTs photoA "At the beach" world0
              _ _ eq_refl eq_refl eq_refl Hattempt'
              (or_intror (ex_intro _ "socket hang up" eq_refl)))
    as (st' & prop' & _ & _ & _ & _ & Hstore').
  split; [vm_compute; reflexivity|]. split; [exact Hstore|].
  split; [vm_compute; reflexivity|exact Hstore'].
Defined.

Lemma stored_failures_have_a_message_witness :
  let env := service [photoA; photoB] ["beach"; "flickr"] [] ["/tmp/B_o.jpg"] [] in
  ∃ st, photo_status (after_run env IndexTs now0 world0) !! "B" = Some st ∧
        st_id st = "B" ∧ (∃ u, st_url_o st = Some u) ∧ ∃ m, st_error st = ErrMessage m.
Proof.
  intros env.
  destruct (stored_failures_have_a_message env IndexTs now0 world0) as [_ Hfail].
  assert (photo_status (after_run env IndexTs now0 world0) !! "B"
          = Some (failed_status (initial_status photoB "On the hill")
                    (ErrorObj "Request failed with status code 500")))
    as Hst by (vm_compute; reflexivity).
  eexists. split; [exact Hst|].
  apply (Hfail "B" _ Hst); [|reflexivity].
  unfold world0. simpl. rewrite lookup_empty. discriminate.
Defined.

Lemma failed_open_ends_the_run_witness :
  let env := service [photoG; photoC] ["beach"; "flickr"] [] [] [] in
  (photoUploader env IndexTs now0 world0).1 ≠ Ok tt ∧
  checkpoint_sets (trace (after_run env IndexTs now0 world0)) = [].
Proof.
  intros env.
  assert (existsb is_failed_open (trace (after_run env IndexTs now0 world0)) = true)
    as Hopen by (vm_compute; reflexivity).
  destruct (failed_open_ends_the_run env IndexTs now0 world0
              (trace (after_run env IndexTs now0 world0)) eq_refl Hopen)
    as (Hr & Hc & _).
  split; [exact Hr|exact Hc].
Defined.
